(** * memorywheel: a single-producer / single-consumer wheel in shared memory

    A shallow embedding of [memorywheel.h] (the wheel, its eventfd layer and
    the layout of its headers) and of [scm.c] (descriptor passing), followed
    by the properties of the natural-language specification that were checked
    against them.

    Conventions.
    - C integers are [Z] with the conversion written out: [u32], [u64] reduce
      modulo the width, as a conversion to [uint32_t] or [size_t] does.
    - The shared region is a record: the wheel header, the slice headers keyed
      by their byte displacement from the wheel pointer, and the sequence of
      stores performed so far, in program order.
    - Every operation runs to completion without interference from the peer
      process; loops that retry or walk carry fuel and return [None] when it
      runs out. *)

From Stdlib Require Import ZArith Lia List Bool.
From stdpp Require Import base gmap list strings.

Local Open Scope Z_scope.

(** ** C integer types *)

Module CInt.

Definition UINT8_MAX  : Z := 2 ^ 8 - 1.
Definition UINT32_MAX : Z := 2 ^ 32 - 1.
Definition UINT64_MAX : Z := 2 ^ 64 - 1.
Definition SIZE_MAX   : Z := 2 ^ 64 - 1.
Definition INT_MAX    : Z := 2 ^ 31 - 1.

(** Conversion to an unsigned type of the given width. *)
Definition u8  (z : Z) : Z := z mod 2 ^ 8.
Definition u32 (z : Z) : Z := z mod 2 ^ 32.
Definition u64 (z : Z) : Z := z mod 2 ^ 64.
(** Conversion to [int] (two's complement, as gcc and clang define it). *)
Definition int32 (z : Z) : Z := (z + 2 ^ 31) mod 2 ^ 32 - 2 ^ 31.

Definition is_u8  (z : Z) : Prop := 0 <= z <= UINT8_MAX.
Definition is_u32 (z : Z) : Prop := 0 <= z <= UINT32_MAX.
Definition is_size_t (z : Z) : Prop := 0 <= z <= SIZE_MAX.

End CInt.

Export CInt.

(** ** The wheel: [memorywheel.h] *)

Definition WHL_INVALID_OFFSET      : Z := UINT32_MAX.
Definition WHL_INVALID_OFFSET_PAIR : Z := UINT64_MAX.
Definition WHL_ALIGN               : Z := 64.

(** [whl_slice_state_e], stored in a [u8]. *)
Definition WHL_SLICE_UNINIT   : Z := 0.
Definition WHL_SLICE_READABLE : Z := 1.
Definition WHL_SLICE_RETURNED : Z := 2.

Record whl_slice_t := {
  trailing_user_size    : Z;   (* size_t *)
  aligned_size_in_wheel : Z;   (* _Atomic whl_offset_t *)
  state                 : Z;   (* _Atomic u8 *)
}.

(** [sizeof(whl_slice_t)], which the source asserts statically to be 16. *)
Definition sizeof_whl_slice_t : Z := 16.

#[global] Instance whl_slice_t_eq_dec : EqDecision whl_slice_t.
Proof. solve_decision. Defined.

(** [whl_offset_pair_t]: two offsets that share their storage with one
    [uint64_t]; [head] is the low half. *)
Record whl_offset_pair_t := { head : Z; last : Z }.

#[global] Instance whl_offset_pair_t_eq_dec : EqDecision whl_offset_pair_t.
Proof. solve_decision. Defined.

Definition pair_u64 (p : whl_offset_pair_t) : Z := head p + 2 ^ 32 * last p.

Definition whl_invalid_offset_pair : whl_offset_pair_t :=
  {| head := WHL_INVALID_OFFSET; last := WHL_INVALID_OFFSET |}.

(** [whl_spin_t] (also [whl_t]); [head], [last] and [head_last] are the same
    storage. *)
Record whl_spin_t := { aligned_size : Z; head_last : whl_offset_pair_t }.

#[global] Instance whl_spin_t_eq_dec : EqDecision whl_spin_t.
Proof. solve_decision. Defined.

(** A store to the shared region. *)
Inductive store_t :=
| St_wheel (w : whl_spin_t)              (* *wheel = (whl_t) { ... } *)
| St_slice (a : Z) (sl : whl_slice_t)    (* *slice = (whl_slice_t) { ... } *)
| St_units (a : Z) (v : Z)               (* slice->aligned_size_in_wheel *)
| St_state (a : Z) (v : Z)               (* slice->state *)
| St_head_last (p : whl_offset_pair_t)   (* wheel->head_last *)
| St_head (o : Z).                       (* wheel->head *)

(** The shared region a [whl_t *] points to. Slice headers are keyed by their
    byte displacement from the wheel pointer; memory that was never written
    reads as zero. *)
Record shm := {
  wheel  : whl_spin_t;
  slices : gmap Z whl_slice_t;
  stores : list store_t;
}.

Definition zero_slice : whl_slice_t :=
  {| trailing_user_size := 0; aligned_size_in_wheel := 0; state := 0 |}.

Definition slice_at (m : shm) (a : Z) : whl_slice_t :=
  default zero_slice (slices m !! a).

Definition set_units (v : Z) (sl : whl_slice_t) : whl_slice_t :=
  {| trailing_user_size := trailing_user_size sl;
     aligned_size_in_wheel := v;
     state := state sl |}.

Definition set_state (v : Z) (sl : whl_slice_t) : whl_slice_t :=
  {| trailing_user_size := trailing_user_size sl;
     aligned_size_in_wheel := aligned_size_in_wheel sl;
     state := v |}.

Definition write_mem (e : store_t) (m : shm) : whl_spin_t * gmap Z whl_slice_t :=
  match e with
  | St_wheel w => (w, slices m)
  | St_slice a sl => (wheel m, <[a := sl]> (slices m))
  | St_units a v => (wheel m, <[a := set_units v (slice_at m a)]> (slices m))
  | St_state a v => (wheel m, <[a := set_state v (slice_at m a)]> (slices m))
  | St_head_last p =>
      ({| aligned_size := aligned_size (wheel m); head_last := p |}, slices m)
  | St_head o =>
      ({| aligned_size := aligned_size (wheel m);
          head_last := {| head := o; last := last (head_last (wheel m)) |} |},
       slices m)
  end.

(** Performing a store changes the memory and extends the record of stores. *)
Definition perform (e : store_t) (m : shm) : shm :=
  {| wheel := fst (write_mem e m);
     slices := snd (write_mem e m);
     stores := stores m ++ [e] |}.

(** The memory after a sequence of stores, oldest first. *)
Definition replay (es : list store_t) (m : shm) : shm :=
  fold_left (fun m e => perform e m) es m.

(** [__whl_alignment_padding(sz)] on a [size_t]. *)
Definition __whl_alignment_padding (sz : Z) : Z :=
  (WHL_ALIGN - sz mod WHL_ALIGN) mod WHL_ALIGN.

Definition whl_align (size : Z) : Z :=
  u64 (size + __whl_alignment_padding size).

(** The bound [WHL_ALIGN * UINT32_MAX] of [whl_init]. [WHL_ALIGN] is the [int]
    constant 64 and [UINT32_MAX] has type [unsigned int], so the product is
    computed in [unsigned int] and reduced modulo [2^32] before it is compared
    with the [size_t]. *)
Definition whl_init_limit : Z := u32 (WHL_ALIGN * UINT32_MAX).

(** [whl_init]: the return value and the region afterwards. *)
Definition whl_init (m : shm) (buf_size : Z) : Z * shm :=
  if (buf_size <? 2 * WHL_ALIGN)
     || negb (buf_size mod WHL_ALIGN =? 0)
     || (whl_init_limit <=? buf_size)
  then (-1, m)
  else (0, perform (St_wheel
                      {| aligned_size := u32 ((buf_size - WHL_ALIGN) / WHL_ALIGN);
                         head_last := whl_invalid_offset_pair |}) m).

(** [__whl_at_unchecked]: the byte displacement of a slice from the wheel
    pointer. [WHL_ALIGN * offset] is an [unsigned int] product. *)
Definition __whl_at_unchecked (offset : Z) : Z :=
  WHL_ALIGN + u32 (WHL_ALIGN * offset).

(** [__whl_slice_buf]: the payload follows the 16-byte slice header. *)
Definition __whl_slice_buf (slice : Z) : Z := slice + sizeof_whl_slice_t.

(** [__whl_head] and [__whl_last]; [None] is [NULL]. *)
Definition __whl_head (m : shm) : option Z :=
  let o := head (head_last (wheel m)) in
  if o =? WHL_INVALID_OFFSET then None else Some (__whl_at_unchecked o).

Definition __whl_last (m : shm) : option Z :=
  let o := last (head_last (wheel m)) in
  if o =? WHL_INVALID_OFFSET then None else Some (__whl_at_unchecked o).

Definition __whl_next_offset_aligned
    (m : shm) (size : Z) (pair : whl_offset_pair_t) : Z :=
  if pair_u64 pair =? WHL_INVALID_OFFSET_PAIR then
    if size <=? aligned_size (wheel m) then 0 else WHL_INVALID_OFFSET
  else
    let head := head pair in
    let last := last pair in
    let last_end :=
      u32 (last + aligned_size_in_wheel (slice_at m (__whl_at_unchecked last))) in
    if last <? head then
      if size <=? u32 (head - last_end) then last_end else WHL_INVALID_OFFSET
    else
      if size <=? u32 (aligned_size (wheel m) - last_end) then last_end
      else if size <=? head then 0
      else WHL_INVALID_OFFSET.

(** [atomic_compare_exchange_strong(&wheel->head_last, &expected, desired)]:
    success, the updated [expected], and the region. The comparison is on the
    64-bit representation. *)
Definition cas_head_last (expected desired : whl_offset_pair_t) (m : shm)
    : bool * whl_offset_pair_t * shm :=
  if pair_u64 (head_last (wheel m)) =? pair_u64 expected
  then (true, expected, perform (St_head_last desired) m)
  else (false, head_last (wheel m), m).

(** The [do ... while (1)] of [whl_make_slice] that publishes the new [last]. *)
Fixpoint publish_last (fuel : nat) (offset : Z) (pair : whl_offset_pair_t)
    (m : shm) : option shm :=
  match fuel with
  | O => None
  | S fuel =>
      if pair_u64 pair =? WHL_INVALID_OFFSET_PAIR then
        Some (perform (St_head_last {| head := offset; last := offset |}) m)
      else
        let new_pair := {| head := head pair; last := offset |} in
        match cas_head_last pair new_pair m with
        | (true, _, m') => Some m'
        | (false, _, m') => publish_last fuel offset (head_last (wheel m')) m'
        end
  end.

(** The value [whl_make_slice] computes for [aligned_size_in_wheel]: the
    [size_t] sum and its padding wrap at [2^64], and the quotient is converted
    to [whl_offset_t]. *)
Definition slice_units (size : Z) : Z :=
  let size_in_wheel := u64 (sizeof_whl_slice_t + size) in
  let size_in_wheel := u64 (size_in_wheel + __whl_alignment_padding size_in_wheel) in
  u32 (size_in_wheel / WHL_ALIGN).

(** [whl_make_slice]: the offset, the value stored to [*bufp] ([None] when it
    is left untouched) and the region afterwards. *)
Definition whl_make_slice (fuel : nat) (m : shm) (size : Z)
    : option (Z * option Z * shm) :=
  if SIZE_MAX - sizeof_whl_slice_t <? size then
    Some (WHL_INVALID_OFFSET, None, m)
  else
    let aligned_size_in_wheel := slice_units size in
    let pair := head_last (wheel m) in
    let offset := __whl_next_offset_aligned m aligned_size_in_wheel pair in
    if offset =? WHL_INVALID_OFFSET then
      Some (WHL_INVALID_OFFSET, None, m)
    else
      let old_last := last pair in
      let m1 :=
        if (offset =? 0) && negb (old_last =? WHL_INVALID_OFFSET)
        then perform (St_units (__whl_at_unchecked old_last)
                               (u32 (aligned_size (wheel m) - old_last))) m
        else m in
      let m2 :=
        perform (St_slice (__whl_at_unchecked offset)
                   {| trailing_user_size := size;
                      aligned_size_in_wheel := aligned_size_in_wheel;
                      state := 0 |}) m1 in
      let bufp := __whl_slice_buf (__whl_at_unchecked offset) in
      match publish_last fuel offset pair m2 with
      | Some m3 => Some (offset, Some bufp, m3)
      | None => None
      end.

Definition whl_share_slice (m : shm) (offset : Z) : shm :=
  perform (St_state (__whl_at_unchecked offset) WHL_SLICE_READABLE) m.

(** [whl_next_shared_slice]: the offset, the values stored to [*bufp] and
    [*size] ([None] when they are left untouched) and the region afterwards. *)
Definition whl_next_shared_slice (m : shm) : Z * option (Z * Z) * shm :=
  let offset := head (head_last (wheel m)) in
  if offset =? WHL_INVALID_OFFSET then (WHL_INVALID_OFFSET, None, m)
  else
    let slice := __whl_at_unchecked offset in
    if negb (state (slice_at m slice) =? WHL_SLICE_READABLE)
    then (WHL_INVALID_OFFSET, None, m)
    else (offset,
          Some (__whl_slice_buf slice, trailing_user_size (slice_at m slice)),
          m).

(** The [else] branch of the [while] of [whl_return_slice]: the head moves to
    the slice that follows it. *)
Definition advance_head (pair : whl_offset_pair_t) (m : shm) : shm :=
  let head_slice := __whl_at_unchecked (head pair) in
  let next_head :=
    u32 (head pair + aligned_size_in_wheel (slice_at m head_slice))
    mod aligned_size (wheel m) in
  perform (St_head next_head) m.

(** One pass through the body of the [while] of [whl_return_slice], entered
    with the pair just loaded. A failed compare-exchange leaves the pair it
    found in [pair]. *)
Definition reclaim_head (pair : whl_offset_pair_t) (m : shm) : shm :=
  if head pair =? last pair then
    match cas_head_last pair whl_invalid_offset_pair m with
    | (true, _, m') => m'
    | (false, pair', m') => advance_head pair' m'
    end
  else advance_head pair m.

(** The [while] of [whl_return_slice]. When the loaded head is valid,
    [__whl_head] reads the same head again and is not [NULL]. *)
Fixpoint return_loop (fuel : nat) (returns : Z) (m : shm) : option (Z * shm) :=
  match fuel with
  | O => None
  | S fuel =>
      let pair := head_last (wheel m) in
      if negb (head pair =? WHL_INVALID_OFFSET)
         && match __whl_head m with
            | Some a => state (slice_at m a) =? WHL_SLICE_RETURNED
            | None => false
            end
      then return_loop fuel (u64 (returns + 1)) (reclaim_head pair m)
      else Some (returns, m)
  end.

Definition whl_return_slice (fuel : nat) (m : shm) (off : Z)
    : option (Z * shm) :=
  let slice := __whl_at_unchecked off in
  let old := state (slice_at m slice) in
  let m1 := perform (St_state slice WHL_SLICE_RETURNED) m in
  if old =? WHL_SLICE_RETURNED then Some (0, m1)
  else return_loop fuel 0 m1.

(** ** The eventfd layer of [memorywheel.h] *)

(** The region seen as a [whl_atomic_t]. *)
Record whl_atomic_t := {
  spin        : shm;
  is_readable : Z;   (* _Atomic u8 *)
  is_writable : Z;   (* _Atomic u8 *)
}.

(** What a [whl_efd_t] reaches: the shared [whl_atomic_t], the counters of the
    two eventfds its descriptors name, and [errno]. *)
Record whl_efd_t := {
  atomic   : whl_atomic_t;
  readable : Z;
  writable : Z;
  errno    : Z;
}.

Definition EAGAIN : Z := 11.
Definition EINVAL : Z := 22.

Definition with_spin (m : shm) (a : whl_atomic_t) : whl_atomic_t :=
  {| spin := m; is_readable := is_readable a; is_writable := is_writable a |}.
Definition with_is_readable (v : Z) (a : whl_atomic_t) : whl_atomic_t :=
  {| spin := spin a; is_readable := v; is_writable := is_writable a |}.
Definition with_is_writable (v : Z) (a : whl_atomic_t) : whl_atomic_t :=
  {| spin := spin a; is_readable := is_readable a; is_writable := v |}.

Definition with_atomic (a : whl_atomic_t) (e : whl_efd_t) : whl_efd_t :=
  {| atomic := a; readable := readable e; writable := writable e; errno := errno e |}.
Definition with_readable (c : Z) (e : whl_efd_t) : whl_efd_t :=
  {| atomic := atomic e; readable := c; writable := writable e; errno := errno e |}.
Definition with_writable (c : Z) (e : whl_efd_t) : whl_efd_t :=
  {| atomic := atomic e; readable := readable e; writable := c; errno := errno e |}.
Definition with_errno (v : Z) (e : whl_efd_t) : whl_efd_t :=
  {| atomic := atomic e; readable := readable e; writable := writable e; errno := v |}.

(** [write(2)] of the 8-byte value [v] on a non-blocking eventfd whose counter
    is [c]: the new counter, or the error. *)
Definition eventfd_write (c v : Z) : Z + Z :=
  if v =? UINT64_MAX then inr EINVAL
  else if UINT64_MAX - 1 <? c + v then inr EAGAIN
  else inl (c + v).

(** [read(2)] on a non-blocking eventfd in semaphore mode. *)
Definition eventfd_read (c : Z) : Z + Z :=
  if c =? 0 then inr EAGAIN else inl (c - 1).

(** [__whl_efd_write] and [__whl_efd_read], on each of the two descriptors;
    the result of the source ([r == sizeof(v)]) is ignored by the callers
    below. *)
Definition __whl_efd_write_readable (v : Z) (e : whl_efd_t) : whl_efd_t :=
  match eventfd_write (readable e) v with
  | inl c => with_readable c e
  | inr err => with_errno err e
  end.

Definition __whl_efd_write_writable (v : Z) (e : whl_efd_t) : whl_efd_t :=
  match eventfd_write (writable e) v with
  | inl c => with_writable c e
  | inr err => with_errno err e
  end.

Definition __whl_efd_read_readable (e : whl_efd_t) : whl_efd_t :=
  match eventfd_read (readable e) with
  | inl c => with_readable c e
  | inr err => with_errno err e
  end.

Definition __whl_efd_read_writable (e : whl_efd_t) : whl_efd_t :=
  match eventfd_read (writable e) with
  | inl c => with_writable c e
  | inr err => with_errno err e
  end.

(** [whl_atomic_init]: the compound literal zeroes the [spin] member before
    [whl_init] runs on it. *)
Definition whl_atomic_init (a : whl_atomic_t) (buf_size : Z) : Z * whl_atomic_t :=
  let zeroed :=
    perform (St_wheel {| aligned_size := 0;
                         head_last := {| head := 0; last := 0 |} |}) (spin a) in
  let '(r, m) := whl_init zeroed buf_size in
  (r, {| spin := m; is_readable := 0; is_writable := 1 |}).

(** [whl_efd_init] when both [eventfd(2)] calls succeed: the first counter
    starts at [is_readable], the second at zero and is then written
    [~0 - 1 - is_writable], an [int] converted to [uint64_t]. *)
Definition whl_efd_init (a : whl_atomic_t) : whl_efd_t :=
  __whl_efd_write_writable (u64 (-1 - 1 - is_writable a))
    {| atomic := a; readable := is_readable a; writable := 0; errno := 0 |}.

Definition whl_efd_make_slice (fuel : nat) (e : whl_efd_t) (size : Z)
    : option (Z * option Z * whl_efd_t) :=
  match whl_make_slice fuel (spin (atomic e)) size with
  | None => None
  | Some (offset, bufp, m) =>
      let e1 := with_errno 0 (with_atomic (with_spin m (atomic e)) e) in
      if offset =? WHL_INVALID_OFFSET then
        let old := is_writable (atomic e1) in
        let e2 := with_atomic (with_is_writable 0 (atomic e1)) e1 in
        Some (offset, bufp,
              if old =? 1 then __whl_efd_write_writable 1 e2 else e2)
      else Some (offset, bufp, e1)
  end.

Definition whl_efd_share_slice (e : whl_efd_t) (offset : Z) : whl_efd_t :=
  let m := whl_share_slice (spin (atomic e)) offset in
  let e1 := with_errno 0 (with_atomic (with_spin m (atomic e)) e) in
  let old := is_readable (atomic e1) in
  let e2 := with_atomic (with_is_readable 1 (atomic e1)) e1 in
  if old =? 0 then __whl_efd_write_readable 1 e2 else e2.

Definition whl_efd_next_shared_slice (e : whl_efd_t)
    : Z * option (Z * Z) * whl_efd_t :=
  let '(offset, out, m) := whl_next_shared_slice (spin (atomic e)) in
  let e1 := with_errno 0 (with_atomic (with_spin m (atomic e)) e) in
  if offset =? WHL_INVALID_OFFSET then
    let old := is_readable (atomic e1) in
    let e2 := with_atomic (with_is_readable 0 (atomic e1)) e1 in
    (offset, out, if old =? 1 then __whl_efd_read_readable e2 else e2)
  else (offset, out, e1).

Definition whl_efd_return_slice (fuel : nat) (e : whl_efd_t) (off : Z)
    : option (Z * whl_efd_t) :=
  match whl_return_slice fuel (spin (atomic e)) off with
  | None => None
  | Some (r, m) =>
      let e1 := with_errno 0 (with_atomic (with_spin m (atomic e)) e) in
      let old := is_writable (atomic e1) in
      let e2 := with_atomic (with_is_writable 1 (atomic e1)) e1 in
      Some (r, if old =? 0 then __whl_efd_read_writable e2 else e2)
  end.

(** ** The layout of the headers *)

Module Layout.

Open Scope string_scope.

(** The types the headers are declared with. A scalar is as wide as it is
    aligned ([uint8_t], [uint32_t], [uint64_t] and [size_t] on the LP64 ABIs
    that have [eventfd(2)]; [_Atomic] changes neither). A member is named or
    anonymous. *)
#[warnings="-register-all"]
Inductive ctype :=
| Scalar (size : Z)
| Struct (members : list (option string * ctype))
| Union (members : list (option string * ctype)).

Definition round_up (n a : Z) : Z := (n + a - 1) / a * a.

Fixpoint alignof (t : ctype) : Z :=
  match t with
  | Scalar n => n
  | Struct ms | Union ms =>
      (fix go (ms : list (option string * ctype)) : Z :=
         match ms with
         | [] => 1
         | (_, t) :: ms => Z.max (alignof t) (go ms)
         end) ms
  end.

(** Members of a struct follow one another, each at the next multiple of its
    alignment; members of a union all start at zero; the size is rounded up
    to the alignment. *)
Fixpoint sizeof (t : ctype) : Z :=
  match t with
  | Scalar n => n
  | Struct ms =>
      round_up
        ((fix go (off : Z) (ms : list (option string * ctype)) : Z :=
            match ms with
            | [] => off
            | (_, t) :: ms => go (round_up off (alignof t) + sizeof t) ms
            end) 0 ms)
        (alignof (Struct ms))
  | Union ms =>
      round_up
        ((fix go (ms : list (option string * ctype)) : Z :=
            match ms with
            | [] => 0
            | (_, t) :: ms => Z.max (sizeof t) (go ms)
            end) ms)
        (alignof (Union ms))
  end.

(** [offsetof(t, name)]; the members of an anonymous struct or union are
    members of the enclosing type. *)
Fixpoint offsetof (t : ctype) (name : string) : option Z :=
  match t with
  | Scalar _ => None
  | Struct ms =>
      (fix go (off : Z) (ms : list (option string * ctype)) : option Z :=
         match ms with
         | [] => None
         | (n, t) :: ms =>
             let at_ := round_up off (alignof t) in
             let here :=
               match n with
               | Some n => if decide (n = name) then Some at_ else None
               | None => (fun o => at_ + o) <$> offsetof t name
               end in
             match here with
             | Some o => Some o
             | None => go (at_ + sizeof t) ms
             end
         end) 0 ms
  | Union ms =>
      (fix go (ms : list (option string * ctype)) : option Z :=
         match ms with
         | [] => None
         | (n, t) :: ms =>
             let here :=
               match n with
               | Some n => if decide (n = name) then Some 0 else None
               | None => offsetof t name
               end in
             match here with
             | Some o => Some o
             | None => go ms
             end
         end) ms
  end.

Definition u8_t : ctype := Scalar 1.
Definition u32_t : ctype := Scalar 4.
Definition uint64_t : ctype := Scalar 8.
Definition size_t : ctype := Scalar 8.
Definition whl_offset_t : ctype := u32_t.

Definition whl_slice_t : ctype :=
  Struct [ (Some "trailing_user_size", size_t);
           (Some "aligned_size_in_wheel", whl_offset_t);
           (Some "state", u8_t) ].

Definition whl_offset_pair_t : ctype :=
  Union [ (None, Struct [ (Some "head", whl_offset_t);
                          (Some "last", whl_offset_t) ]);
          (Some "u64", uint64_t) ].

Definition whl_spin_t : ctype :=
  Struct [ (Some "aligned_size", whl_offset_t);
           (None, Union [ (None, Struct [ (Some "head", whl_offset_t);
                                          (Some "last", whl_offset_t) ]);
                          (Some "head_last", whl_offset_pair_t) ]) ].

Definition whl_atomic_t : ctype :=
  Struct [ (Some "spin", whl_spin_t);
           (Some "is_readable", u8_t);
           (Some "is_writable", u8_t) ].

(** The layout the specification gives, a byte offset for each member. *)
Definition spec_layout : Prop :=
  offsetof whl_atomic_t "spin" = Some 0
  /\ offsetof whl_spin_t "aligned_size" = Some 0
  /\ offsetof whl_spin_t "head" = Some 4
  /\ offsetof whl_spin_t "last" = Some 8
  /\ offsetof whl_spin_t "head_last" = Some 4
  /\ offsetof whl_atomic_t "is_readable" = Some 12
  /\ offsetof whl_atomic_t "is_writable" = Some 13.

End Layout.

(** ** Descriptor passing: [scm.c] *)

Module Scm.

Definition SCM_MAX_FDS : Z := 16.

(** The first control message of a received datagram. The data of a message
    of [cmsg_len = CMSG_LEN(sizeof(int) * n)] are [n] descriptors. *)
Record cmsghdr := {
  cmsg_level : Z;
  cmsg_type  : Z;
  cmsg_fds   : list Z;
}.

(** What one call of [recvmsg(2)] does: it fails with an [errno], or it
    returns the byte count of the payload and leaves the control data, if
    any, in [msg]; [CMSG_FIRSTHDR] is its first header, or [NULL]. *)
Inductive recvmsg_result :=
| Recv_error (errno : Z)
| Recv_data (bytes : Z) (control : option cmsghdr).

(** The caller's arguments: [outfds] and [n_outfds] are arrays and counters
    of the caller, or [NULL]. *)
Record caller := {
  outfds   : option (list Z);
  n_outfds : option Z;
}.

Inductive fault :=
| Null_store       (* a store through a null pointer *)
| Bounds_store.    (* a store past the end of the array [outfds] *)

(** [Returned]: the value returned, [errno] as the call leaves it ([None]:
    as it was on entry, no [recvmsg] of the call having failed), the caller's
    array and count, and the descriptors closed. *)
Inductive outcome :=
| Faulted (f : fault)
| Interrupted                  (* every [recvmsg] so far failed with EINTR *)
| Returned (ret : Z) (errno : option Z) (c : caller) (closed : list Z).

Section WithSystemConstants.

(** Constants of the system headers. *)
Variables (SOL_SOCKET SCM_RIGHTS EINTR : Z).

(** [do ret = recvmsg(...); while (ret < 0 && errno == EINTR)], against
    the results the socket gives to successive calls. *)
Fixpoint recvmsg_retry (script : list recvmsg_result) : option recvmsg_result :=
  match script with
  | [] => None
  | Recv_error e :: script =>
      if e =? EINTR then recvmsg_retry script else Some (Recv_error e)
  | r :: _ => Some r
  end.

(** [errno] when the loop is left, from its value before: a failed
    [recvmsg] sets it and one that succeeds leaves it alone, so after an
    interrupted call and a successful one it still holds [EINTR]. [None]
    stands for the value [errno] had when the function was entered. *)
Fixpoint recvmsg_errno (errno : option Z) (script : list recvmsg_result)
    : option Z :=
  match script with
  | Recv_error e :: script =>
      if e =? EINTR then recvmsg_errno (Some e) script else Some e
  | _ => errno
  end.

(** [while (i < maxfds && cmsgfds < cmsgend) outfds[i++] = *(cmsgfds++)]:
    the array, [i] and the descriptors not yet read, or the fault. *)
Fixpoint copy_fds (maxfds : Z) (i : Z) (arr : option (list Z)) (fds : list Z)
    : fault + (option (list Z) * Z * list Z) :=
  match fds with
  | [] => inr (arr, i, [])
  | fd :: rest =>
      if i <? maxfds then
        match arr with
        | None => inl Null_store
        | Some l =>
            if Z.of_nat (length l) <=? i then inl Bounds_store
            else copy_fds maxfds (i + 1) (Some (<[Z.to_nat i := fd]> l)) rest
        end
      else inr (arr, i, fds)
  end.

Definition recv_fds_with_data (script : list recvmsg_result) (c : caller)
    : outcome :=
  let maxfds := match n_outfds c with Some n => int32 n | None => 0 end in
  let errno := recvmsg_errno None script in
  match recvmsg_retry script with
  | None => Interrupted
  | Some (Recv_error e) => Returned (u64 (-1)) (Some e) c []
  | Some (Recv_data bytes control) =>
      let ret := int32 bytes in
      if ret <? 0 then Returned (u64 ret) errno c []
      else
        let no_rights :=
          match control with
          | None => true
          | Some cmsg =>
              negb (cmsg_level cmsg =? SOL_SOCKET)
              || negb (cmsg_type cmsg =? SCM_RIGHTS)
          end in
        if no_rights then
          match n_outfds c with
          | None => Faulted Null_store
          | Some _ =>
              Returned (u64 ret) errno
                {| outfds := outfds c; n_outfds := Some 0 |} []
          end
        else
          let fds := match control with
                     | Some cmsg => cmsg_fds cmsg
                     | None => []
                     end in
          match copy_fds maxfds 0 (outfds c) fds with
          | inl f => Faulted f
          | inr (arr, i, rest) =>
              Returned (u64 ret) errno
                {| outfds := arr;
                   n_outfds := match n_outfds c with
                               | Some _ => Some (u64 i)
                               | None => None
                               end |}
                rest
          end
  end.

Definition recv_fds (script : list recvmsg_result) (c : caller) : outcome :=
  recv_fds_with_data script c.

(** The datagram carries no control message, or one that is not
    [SOL_SOCKET] / [SCM_RIGHTS]. *)
Definition lacks_rights (control : option cmsghdr) : Prop :=
  match control with
  | None => True
  | Some cmsg => cmsg_level cmsg <> SOL_SOCKET \/ cmsg_type cmsg <> SCM_RIGHTS
  end.

(** [recv_fd]: one descriptor through [recv_fds]. [outfd] points to an [int]
    of the caller or is [NULL]; the local count [fds] starts at 1. The value
    of [recv_fds] is a [size_t], which the source compares with 0. *)
Inductive fd_outcome :=
| Fd_faulted (f : fault)
| Fd_interrupted
| Fd_returned (ret : Z) (errno : option Z) (outfd : option Z) (closed : list Z).

Definition recv_fd (script : list recvmsg_result) (outfd : option Z) : fd_outcome :=
  let fds := 1 in
  match recv_fds script {| outfds := (fun v => [v]) <$> outfd;
                           n_outfds := Some fds |} with
  | Faulted f => Fd_faulted f
  | Interrupted => Fd_interrupted
  | Returned ret errno c closed =>
      let outfd' := outfds c ≫= (fun l => l !! 0%nat) in
      if ret <? 0 then Fd_returned (u64 (-1)) errno outfd' closed
      else Fd_returned (default fds (n_outfds c)) errno outfd' closed
  end.

(** ** Sending descriptors *)

Variable E2BIG : Z.

(** What [sendmsg(2)] answers. *)
Inductive sendmsg_result :=
| Send_error (errno : Z)
| Send_ok (bytes : Z).

(** A call of a sending function: the assertion stopped the program, or the
    function returned, with the [errno] it set and what it passed to
    [sendmsg]: the control message and the length of the payload. *)
Inductive send_outcome :=
| Send_aborted
| Send_returned (ret : Z) (errno : option Z) (sent : option (cmsghdr * Z)).

(** [send_fds_with_data]. [fds] are the [nfds] descriptors of the caller,
    [buflen] the length of the payload; [ndebug] tells whether [assert] is
    compiled out. The [ssize_t] of [sendmsg] is returned as a [size_t]. *)
Definition send_fds_with_data (ndebug : bool) (res : sendmsg_result)
    (fds : list Z) (buflen : Z) : send_outcome :=
  let nfds := Z.of_nat (length fds) in
  if negb ndebug && negb (nfds <=? SCM_MAX_FDS) then Send_aborted
  else if SCM_MAX_FDS <? nfds then Send_returned (u64 (-1)) (Some E2BIG) None
  else
    let cmsg := {| cmsg_level := SOL_SOCKET;
                   cmsg_type := SCM_RIGHTS;
                   cmsg_fds := fds |} in
    match res with
    | Send_error e => Send_returned (u64 (-1)) (Some e) (Some (cmsg, buflen))
    | Send_ok n => Send_returned (u64 n) None (Some (cmsg, buflen))
    end.

Definition send_fds (ndebug : bool) (res : sendmsg_result) (fds : list Z)
    : send_outcome :=
  send_fds_with_data ndebug res fds 1.

Definition send_fd (ndebug : bool) (res : sendmsg_result) (fd : Z) : send_outcome :=
  send_fds ndebug res [fd].

End WithSystemConstants.

End Scm.

(** ** Runs of the wheel *)

(** The calls of the spin interface, with their arguments. *)
Inductive op :=
| Make_slice (size : Z)
| Share_slice (offset : Z)
| Next_shared_slice
| Return_slice (off : Z).

(** Arguments are values of their C types. *)
Definition op_typed (o : op) : Prop :=
  match o with
  | Make_slice size => is_size_t size
  | Share_slice offset => is_u32 offset
  | Next_shared_slice => True
  | Return_slice off => is_u32 off
  end.

(** The region after one call, when the call returns within [fuel]. *)
Definition step (fuel : nat) (o : op) (m : shm) : option shm :=
  match o with
  | Make_slice size => snd <$> whl_make_slice fuel m size
  | Share_slice offset => Some (whl_share_slice m offset)
  | Next_shared_slice => Some (snd (whl_next_shared_slice m))
  | Return_slice off => snd <$> whl_return_slice fuel m off
  end.

(** The regions reachable from a successful [whl_init], whatever the region
    held before. *)
Inductive reachable : shm -> Prop :=
| reach_init m0 buf_size m :
    is_size_t buf_size -> whl_init m0 buf_size = (0, m) -> reachable m
| reach_step m o fuel m' :
    reachable m -> op_typed o -> step fuel o m = Some m' -> reachable m'.

(** A sequence of calls, oldest first. *)
Fixpoint run_ops (fuel : nat) (ops : list op) (m : shm) : option shm :=
  match ops with
  | [] => Some m
  | o :: ops => step fuel o m ≫= run_ops fuel ops
  end.

(** ** The allocation policy in the words of the specification *)

(** The footprint of a request in [ALIGN] units: header plus requested bytes,
    rounded up to 64. *)
Definition spec_need (size : Z) : Z :=
  (sizeof_whl_slice_t + size + (WHL_ALIGN - 1)) / WHL_ALIGN.

(** The size in the wheel recorded for the slice at an offset. *)
Definition units (m : shm) (o : Z) : Z :=
  aligned_size_in_wheel (slice_at m (__whl_at_unchecked o)).

(** The offset the policy selects for [need] units from the pair of the wheel,
    in unbounded integers. *)
Definition spec_offset (m : shm) (need : Z) : Z :=
  let pair := head_last (wheel m) in
  if decide (pair = whl_invalid_offset_pair) then
    if need <=? aligned_size (wheel m) then 0 else WHL_INVALID_OFFSET
  else
    let last_end := last pair + units m (last pair) in
    if last pair <? head pair then
      if need <=? head pair - last_end then last_end else WHL_INVALID_OFFSET
    else
      if need <=? aligned_size (wheel m) - last_end then last_end
      else if need <=? head pair then 0
      else WHL_INVALID_OFFSET.

(** ** The invariant of the wheel *)

(** [run m a b]: slices laid end to end lead from offset [a] to offset [b]. *)
Inductive run (m : shm) : Z -> Z -> Prop :=
| run_here a : run m a a
| run_step a b :
    1 <= units m a -> a + units m a <= b ->
    run m (a + units m a) b -> run m a b.

(** The live slices of a valid pair: in one stretch from [head] to [last], or
    wrapped, from [head] to a slice that ends with the wheel and from offset 0
    to [last], which ends before [head]. *)
Definition chain_ok (m : shm) (p : whl_offset_pair_t) : Prop :=
  0 <= head p /\ 0 <= last p /\ 1 <= units m (last p)
  /\ ((head p <= last p
       /\ run m (head p) (last p)
       /\ last p + units m (last p) <= aligned_size (wheel m))
      \/ (last p < head p
          /\ (exists j, run m (head p) j
                        /\ 1 <= units m j
                        /\ j + units m j = aligned_size (wheel m))
          /\ run m 0 (last p)
          /\ last p + units m (last p) <= head p)).

(** The largest [aligned_size] a successful [whl_init] installs. *)
Definition MAX_ALIGNED_SIZE : Z := 2 ^ 26 - 3.

Record wheel_ok (m : shm) : Prop := {
  ok_size : 1 <= aligned_size (wheel m) <= MAX_ALIGNED_SIZE;
  ok_pair : head_last (wheel m) = whl_invalid_offset_pair
            \/ chain_ok m (head_last (wheel m));
}.

(** Requests whose footprint a [whl_offset_t] can hold. *)
Definition op_fits (o : op) : Prop :=
  match o with
  | Make_slice size => spec_need size <= UINT32_MAX
  | _ => True
  end.

(** The regions reachable when every request fits. *)
Inductive reachable_fit : shm -> Prop :=
| fit_init m0 buf_size m :
    is_size_t buf_size -> whl_init m0 buf_size = (0, m) -> reachable_fit m
| fit_step m o fuel m' :
    reachable_fit m -> op_typed o -> op_fits o ->
    step fuel o m = Some m' -> reachable_fit m'.

(** ** The walk of [whl_return_slice] *)

Definition next_head (m : shm) (h : Z) : Z :=
  u32 (h + units m h) mod aligned_size (wheel m).

(** [chain m l h cs]: following each slice's size from [h] visits the offsets
    [cs] and ends at [l]. *)
Inductive chain (m : shm) (l : Z) : Z -> list Z -> Prop :=
| chain_last : chain m l l [l]
| chain_next h cs :
    h <> l -> chain m l (next_head m h) cs -> chain m l h (h :: cs).

(** The live slices of the wheel, oldest first. *)
Definition live_chain (m : shm) (cs : list Z) : Prop :=
  let p := head_last (wheel m) in
  (p = whl_invalid_offset_pair /\ cs = [])
  \/ (head p <> WHL_INVALID_OFFSET /\ last p <> WHL_INVALID_OFFSET
      /\ chain m (last p) (head p) cs).

Definition is_returned (m : shm) (o : Z) : bool :=
  state (slice_at m (__whl_at_unchecked o)) =? WHL_SLICE_RETURNED.

(** The longest prefix of slices that are all [RETURNED], and what follows. *)
Fixpoint returned_prefix (m : shm) (cs : list Z) : list Z :=
  match cs with
  | [] => []
  | o :: cs => if is_returned m o then o :: returned_prefix m cs else []
  end.

Fixpoint after_returned (m : shm) (cs : list Z) : list Z :=
  match cs with
  | [] => []
  | o :: cs' => if is_returned m o then after_returned m cs' else cs
  end.

(** The store that takes the head off the slice at [o]: the pair becomes
    invalid when that slice is the last one, otherwise the head moves on. *)
Definition reclaim_store (m : shm) (l o : Z) : store_t :=
  if decide (o = l) then St_head_last whl_invalid_offset_pair
  else St_head (next_head m o).

(** The pair after the walk: invalid when nothing is left, otherwise the head
    is the first slice that is not [RETURNED]. *)
Definition pair_after (l : Z) (rest : list Z) : whl_offset_pair_t :=
  match rest with
  | [] => whl_invalid_offset_pair
  | h :: _ => {| head := h; last := l |}
  end.

(** The header is well formed: a size [whl_init] can install, offsets of type
    [whl_offset_t], both valid or both invalid. *)
Record header_ok (m : shm) : Prop := {
  hdr_size : 1 <= aligned_size (wheel m) <= MAX_ALIGNED_SIZE;
  hdr_head : is_u32 (head (head_last (wheel m)));
  hdr_last : is_u32 (last (head_last (wheel m)));
  hdr_both : head (head_last (wheel m)) = WHL_INVALID_OFFSET
             <-> last (head_last (wheel m)) = WHL_INVALID_OFFSET;
}.

(** ** Runs of the eventfd layer *)

Inductive efd_event :=
| Ev_make (offset : Z)
| Ev_share
| Ev_next (offset : Z)
| Ev_return (reclaimed : Z).

(** One call of the eventfd interface: what it returned and the state. *)
Definition efd_step (fuel : nat) (o : op) (e : whl_efd_t)
    : option (efd_event * whl_efd_t) :=
  match o with
  | Make_slice size =>
      (fun r => (Ev_make (fst (fst r)), snd r)) <$> whl_efd_make_slice fuel e size
  | Share_slice offset => Some (Ev_share, whl_efd_share_slice e offset)
  | Next_shared_slice =>
      let r := whl_efd_next_shared_slice e in
      Some (Ev_next (fst (fst r)), snd r)
  | Return_slice off =>
      (fun r => (Ev_return (fst r), snd r)) <$> whl_efd_return_slice fuel e off
  end.

(** A sequence of calls: the events, oldest first, and the state reached. *)
Fixpoint efd_run (fuel : nat) (ops : list op) (e : whl_efd_t)
    : option (list efd_event * whl_efd_t) :=
  match ops with
  | [] => Some ([], e)
  | o :: ops =>
      match efd_step fuel o e with
      | None => None
      | Some (ev, e') =>
          match efd_run fuel ops e' with
          | None => None
          | Some (evs, e'') => Some (ev :: evs, e'')
          end
      end
  end.

(** What the flags latch. [is_readable]: a slice was shared since the last
    peek that returned [WHL_INVALID_OFFSET]. [is_writable]: no allocation
    failed since the last return. *)
Definition readable_latch (b : Z) (ev : efd_event) : Z :=
  match ev with
  | Ev_share => 1
  | Ev_next offset => if offset =? WHL_INVALID_OFFSET then 0 else b
  | _ => b
  end.

Definition writable_latch (b : Z) (ev : efd_event) : Z :=
  match ev with
  | Ev_make offset => if offset =? WHL_INVALID_OFFSET then 0 else b
  | Ev_return _ => 1
  | _ => b
  end.

(** Whether the most recent allocation among the events failed. *)
Definition last_allocation_failed (evs : list efd_event) : bool :=
  fold_left (fun b ev => match ev with
                         | Ev_make offset => offset =? WHL_INVALID_OFFSET
                         | _ => b
                         end) evs false.

(** The flags as the specification describes them: [is_readable] is 1 iff the
    next peek would succeed, [is_writable] is 1 iff the last attempted
    allocation did not fail. *)
Definition spec_flags (evs : list efd_event) (e : whl_efd_t) : Prop :=
  (is_readable (atomic e) = 1
   <-> fst (fst (whl_efd_next_shared_slice e)) <> WHL_INVALID_OFFSET)
  /\ (is_writable (atomic e) = 1 <-> last_allocation_failed evs = false).

(** A region of zeroes, as a fresh shared mapping is. *)
Definition zero_shm : shm :=
  {| wheel := {| aligned_size := 0; head_last := {| head := 0; last := 0 |} |};
     slices := ∅;
     stores := [] |}.

Definition zero_atomic : whl_atomic_t :=
  {| spin := zero_shm; is_readable := 0; is_writable := 0 |}.

(** ** The stores of [whl_make_slice] *)

(** The region before the pair is published: back-fill, then the header. *)
Definition backfilled (m : shm) (offset : Z) : shm :=
  let old_last := last (head_last (wheel m)) in
  if (offset =? 0) && negb (old_last =? WHL_INVALID_OFFSET)
  then perform (St_units (__whl_at_unchecked old_last)
                         (u32 (aligned_size (wheel m) - old_last))) m
  else m.

Definition new_slice (size : Z) : whl_slice_t :=
  {| trailing_user_size := size;
     aligned_size_in_wheel := slice_units size;
     state := 0 |}.

Definition new_pair (m : shm) (offset : Z) : whl_offset_pair_t :=
  if pair_u64 (head_last (wheel m)) =? WHL_INVALID_OFFSET_PAIR
  then {| head := offset; last := offset |}
  else {| head := head (head_last (wheel m)); last := offset |}.


(** ** Sample runs *)

(** The wheel of a zeroed region of [buf_size] bytes after a sequence of
    calls. *)
Definition sample_wheel (buf_size : Z) (ops : list op) : shm :=
  default zero_shm (run_ops 2 ops (snd (whl_init zero_shm buf_size))).

(** Two allocations, a publication, a peek and a return. *)
Definition sample_run : list op :=
  [Make_slice 16; Make_slice 16; Share_slice 0; Next_shared_slice; Return_slice 0].

(** Three allocations fill a wheel of three units; the first two slices are
    returned, so that the next allocation wraps. *)
Definition wrap_run : list op :=
  [Make_slice 16; Make_slice 16; Make_slice 16;
   Share_slice 0; Return_slice 0; Share_slice 1; Return_slice 1].

(** An allocation and its publication, a return that empties the wheel, a
    request larger than the wheel, and a second return of the same slice. *)
Definition latch_run : list op :=
  [Make_slice 16; Share_slice 0; Return_slice 0; Make_slice 200; Return_slice 0].

(** Two slices allocated and published, none returned. *)
Definition two_slices_run : list op :=
  [Make_slice 16; Make_slice 16; Share_slice 0; Share_slice 1].

(** Three allocations with their publications fill a wheel of three units; a
    fourth finds no room; the first slice is returned; a fifth wraps. *)
Definition full_run : list op :=
  [Make_slice 16; Share_slice 0; Make_slice 16; Share_slice 1;
   Make_slice 16; Share_slice 2; Make_slice 16].

(** The initial state of the eventfd layer over a zeroed region. *)
Definition sample_efd (buf_size : Z) : whl_efd_t :=
  whl_efd_init (snd (whl_atomic_init zero_atomic buf_size)).

(** ** The descriptors of the eventfd layer *)

(** The counters agree with the flags: the counter of [readable] is
    [is_readable], and the counter of [writable] is one short of the largest
    value an eventfd holds exactly when [is_writable] is 1. *)
Definition efd_ok (e : whl_efd_t) : Prop :=
  (is_readable (atomic e) = 0 \/ is_readable (atomic e) = 1)
  /\ (is_writable (atomic e) = 0 \/ is_writable (atomic e) = 1)
  /\ readable e = is_readable (atomic e)
  /\ writable e = UINT64_MAX - 1 - is_writable (atomic e).

(** One call of the spin interface: what it returned and the region. *)
Definition spin_step (fuel : nat) (o : op) (m : shm) : option (efd_event * shm) :=
  match o with
  | Make_slice size =>
      (fun r => (Ev_make (fst (fst r)), snd r)) <$> whl_make_slice fuel m size
  | Share_slice offset => Some (Ev_share, whl_share_slice m offset)
  | Next_shared_slice =>
      let r := whl_next_shared_slice m in
      Some (Ev_next (fst (fst r)), snd r)
  | Return_slice off =>
      (fun r => (Ev_return (fst r), snd r)) <$> whl_return_slice fuel m off
  end.

Fixpoint spin_run (fuel : nat) (ops : list op) (m : shm)
    : option (list efd_event * shm) :=
  match ops with
  | [] => Some ([], m)
  | o :: ops =>
      match spin_step fuel o m with
      | None => None
      | Some (ev, m') =>
          match spin_run fuel ops m' with
          | None => None
          | Some (evs, m'') => Some (ev :: evs, m'')
          end
      end
  end.

(** ** The documented use of the eventfd layer *)

(** A call within the documented use: a request fits the wheel (the source
    warns that a larger one leaves the wheel unreadable and unwritable), and
    the slice returned is the one [whl_next_shared_slice] gives. *)
Definition op_in_protocol (e : whl_efd_t) (o : op) : Prop :=
  let m := spin (atomic e) in
  match o with
  | Make_slice size =>
      is_size_t size /\ spec_need size <= aligned_size (wheel m)
  | Share_slice _ => True
  | Next_shared_slice => True
  | Return_slice off =>
      off <> WHL_INVALID_OFFSET /\ fst (fst (whl_next_shared_slice m)) = off
  end.

(** Every call of the sequence is within the documented use in the state in
    which it is made. *)
Fixpoint in_protocol (fuel : nat) (ops : list op) (e : whl_efd_t) : Prop :=
  match ops with
  | [] => True
  | o :: ops =>
      op_in_protocol e o
      /\ match efd_step fuel o e with
         | Some (_, e') => in_protocol fuel ops e'
         | None => True
         end
  end.

(** A slice that can be taken is announced by [is_readable]; a cleared
    [is_writable] is followed by a return, since the wheel holds a slice. *)
Definition efd_awake (e : whl_efd_t) : Prop :=
  let m := spin (atomic e) in
  (fst (fst (whl_next_shared_slice m)) <> WHL_INVALID_OFFSET ->
   is_readable (atomic e) = 1)
  /\ (is_writable (atomic e) = 0 ->
      head_last (wheel m) <> whl_invalid_offset_pair).

(** One message through the wheel: allocated, published, taken, returned. *)
Definition one_message_run : list op :=
  [Make_slice 16; Share_slice 0; Next_shared_slice; Return_slice 0].

(** ** The payload of the example program ([example.c]) *)

Module Example.

(** [MAGIC]: the bytes of the string literal, UTF-8, with its terminating
    NUL; [sizeof(MAGIC)] is their number. *)
Definition MAGIC : list Z :=
  [194; 175; 92; 95; 40; 227; 131; 132; 41; 95; 47; 194; 175; 0].

Definition sizeof_MAGIC : Z := Z.of_nat (length MAGIC).

(** The macro [min(x, y)]. *)
Definition min (x y : Z) : Z := if x >? y then y else x.

(** [memset], [memcpy] and [memcmp] on the bytes that follow a pointer;
    [None] when they would run past the end of an object. *)
Definition memset (buf : list Z) (c : Z) (n : Z) : option (list Z) :=
  if n <=? Z.of_nat (length buf)
  then Some (replicate (Z.to_nat n) (u8 c) ++ drop (Z.to_nat n) buf)
  else None.

Definition memcpy (dst src : list Z) (n : Z) : option (list Z) :=
  if (n <=? Z.of_nat (length dst)) && (n <=? Z.of_nat (length src))
  then Some (take (Z.to_nat n) src ++ drop (Z.to_nat n) dst)
  else None.

(** Whether [memcmp] returns 0. *)
Definition memcmp_is_zero (a b : list Z) (n : Z) : option bool :=
  if (n <=? Z.of_nat (length a)) && (n <=? Z.of_nat (length b))
  then Some (bool_decide (take (Z.to_nat n) a = take (Z.to_nat n) b))
  else None.

Definition write_buf (buf : list Z) (bufsize : Z) : option (list Z) :=
  memset buf 240 bufsize ≫= fun buf => memcpy buf MAGIC (min sizeof_MAGIC bufsize).

Definition test_buf (buf : list Z) (bufsize : Z) : option bool :=
  memcmp_is_zero buf MAGIC (min sizeof_MAGIC bufsize).

End Example.

(** A request whose footprint is [2^32] units: the 32-bit count of its units
    is 0. *)
Definition truncated_run : list op := [Make_slice (2 ^ 38 - 16)].

(** * Properties *)

(** ** Arithmetic of the C types *)

Ltac unfold_consts :=
  unfold is_u8, is_u32, is_size_t, MAX_ALIGNED_SIZE,
    WHL_INVALID_OFFSET_PAIR, WHL_INVALID_OFFSET, WHL_ALIGN,
    WHL_SLICE_UNINIT, WHL_SLICE_READABLE, WHL_SLICE_RETURNED,
    sizeof_whl_slice_t, UINT8_MAX, UINT32_MAX, UINT64_MAX, SIZE_MAX, INT_MAX in *.

Lemma u32_range z : is_u32 (u32 z).
Proof.
  unfold u32. unfold_consts.
  pose proof (Z.mod_pos_bound z (2 ^ 32)). lia.
Qed.

Lemma u32_small z : is_u32 z -> u32 z = z.
Proof. unfold u32. unfold_consts. intros. apply Z.mod_small. lia. Qed.

Lemma u64_small z : is_size_t z -> u64 z = z.
Proof. unfold u64. unfold_consts. intros. apply Z.mod_small. lia. Qed.

Lemma pair_u64_invalid p :
  is_u32 (head p) -> is_u32 (last p) ->
  pair_u64 p = WHL_INVALID_OFFSET_PAIR <-> p = whl_invalid_offset_pair.
Proof.
  destruct p as [h l]. unfold pair_u64, whl_invalid_offset_pair. cbn [head last].
  unfold_consts. intros Hh Hl. split.
  - intros H. assert (h = 2 ^ 32 - 1 /\ l = 2 ^ 32 - 1) as [-> ->] by lia.
    reflexivity.
  - intros [= -> ->]. reflexivity.
Qed.

Lemma pair_u64_invalid_b p :
  is_u32 (head p) -> is_u32 (last p) ->
  (pair_u64 p =? WHL_INVALID_OFFSET_PAIR) = bool_decide (p = whl_invalid_offset_pair).
Proof.
  intros Hh Hl. pose proof (pair_u64_invalid p Hh Hl) as H.
  destruct (Z.eqb_spec (pair_u64 p) WHL_INVALID_OFFSET_PAIR) as [E|E];
    symmetry; [apply bool_decide_eq_true | apply bool_decide_eq_false]; tauto.
Qed.

(** Slices of offsets below [2^26] have distinct addresses. *)
Lemma at_unchecked_small o :
  0 <= o < 2 ^ 26 -> __whl_at_unchecked o = 64 + 64 * o.
Proof.
  intros H. unfold __whl_at_unchecked, u32. unfold_consts.
  rewrite Z.mod_small by lia. reflexivity.
Qed.

Lemma at_unchecked_inj o o' :
  0 <= o < 2 ^ 26 -> 0 <= o' < 2 ^ 26 ->
  __whl_at_unchecked o = __whl_at_unchecked o' -> o = o'.
Proof.
  intros H H'. rewrite !at_unchecked_small by assumption. lia.
Qed.

(** ** Stores *)

Lemma wheel_perform_slice a sl m : wheel (perform (St_slice a sl) m) = wheel m.
Proof. reflexivity. Qed.
Lemma wheel_perform_units a v m : wheel (perform (St_units a v) m) = wheel m.
Proof. reflexivity. Qed.
Lemma wheel_perform_state a v m : wheel (perform (St_state a v) m) = wheel m.
Proof. reflexivity. Qed.

Lemma slice_at_perform_slice a sl m b :
  slice_at (perform (St_slice a sl) m) b = if decide (a = b) then sl else slice_at m b.
Proof.
  unfold slice_at, perform. cbn [slices write_mem snd].
  rewrite lookup_insert. destruct (decide (a = b)); reflexivity.
Qed.

Lemma slice_at_perform_units a v m b :
  slice_at (perform (St_units a v) m) b
  = if decide (a = b) then set_units v (slice_at m a) else slice_at m b.
Proof.
  unfold slice_at at 1. unfold perform. cbn [slices write_mem snd].
  rewrite lookup_insert. destruct (decide (a = b)); reflexivity.
Qed.

Lemma slice_at_perform_state a v m b :
  slice_at (perform (St_state a v) m) b
  = if decide (a = b) then set_state v (slice_at m a) else slice_at m b.
Proof.
  unfold slice_at at 1. unfold perform. cbn [slices write_mem snd].
  rewrite lookup_insert. destruct (decide (a = b)); reflexivity.
Qed.

Lemma slice_at_perform_head_last p m b :
  slice_at (perform (St_head_last p) m) b = slice_at m b.
Proof. reflexivity. Qed.

Lemma slice_at_perform_head o m b :
  slice_at (perform (St_head o) m) b = slice_at m b.
Proof. reflexivity. Qed.

(** A store to a slice's state leaves every recorded size as it is. *)
Lemma units_perform_state a v m o :
  units (perform (St_state a v) m) o = units m o.
Proof.
  unfold units. rewrite slice_at_perform_state.
  destruct (decide (a = __whl_at_unchecked o)) as [->|]; reflexivity.
Qed.

(** ** [whl_init] *)

Lemma whl_init_limit_value : whl_init_limit = 2 ^ 32 - 64.
Proof. reflexivity. Qed.

(** What [whl_init] accepts and what it installs. *)
Lemma whl_init_cases m buf_size :
  (buf_size < 128 \/ buf_size mod 64 <> 0 \/ 2 ^ 32 - 64 <= buf_size)
  /\ whl_init m buf_size = (-1, m)
  \/ (128 <= buf_size < 2 ^ 32 - 64 /\ buf_size mod 64 = 0)
     /\ whl_init m buf_size
        = (0, perform (St_wheel {| aligned_size := (buf_size - 64) / 64;
                                   head_last := whl_invalid_offset_pair |}) m).
Proof.
  unfold whl_init. rewrite whl_init_limit_value. unfold WHL_ALIGN.
  destruct (Z.ltb_spec buf_size (2 * 64)); cbn [orb]; [left; split; [lia|reflexivity]|].
  destruct (Z.eqb_spec (buf_size mod 64) 0); cbn [negb orb];
    [|left; split; [lia|reflexivity]].
  destruct (Z.leb_spec (2 ^ 32 - 64) buf_size); [left; split; [lia|reflexivity]|].
  right. split; [lia|]. rewrite u32_small; [reflexivity|].
  unfold_consts.
  pose proof (Z.div_le_mono 64 (buf_size - 64) 64 ltac:(lia) ltac:(lia)).
  pose proof (Z.div_lt_upper_bound (buf_size - 64) 64 (2 ^ 32) ltac:(lia) ltac:(lia)).
  change (64 / 64) with 1 in *. lia.
Qed.

Lemma whl_init_header_ok m0 buf_size m :
  whl_init m0 buf_size = (0, m) -> header_ok m.
Proof.
  intros H. destruct (whl_init_cases m0 buf_size) as [[_ E]|[[Hb Hm] E]];
    rewrite E in H; [discriminate|]. injection H as <-.
  assert (1 <= (buf_size - 64) / 64 <= MAX_ALIGNED_SIZE).
  { unfold_consts.
    pose proof (Z.div_le_mono 64 (buf_size - 64) 64 ltac:(lia) ltac:(lia)).
    pose proof (Z.div_lt_upper_bound (buf_size - 64) 64 (2 ^ 26 - 2) ltac:(lia) ltac:(lia)).
    change (64 / 64) with 1 in *. lia. }
  split; cbn; [assumption| | |tauto]; unfold_consts; lia.
Qed.

(** ** The operations, one call at a time *)

(** Without interference the compare-exchange meets the pair that was loaded:
    the loop of [whl_make_slice] ends in its first pass. *)
Lemma publish_last_once fuel offset m :
  publish_last (S fuel) offset (head_last (wheel m)) m
  = Some (perform
            (St_head_last
               (if pair_u64 (head_last (wheel m)) =? WHL_INVALID_OFFSET_PAIR
                then {| head := offset; last := offset |}
                else {| head := head (head_last (wheel m)); last := offset |})) m).
Proof.
  cbn [publish_last]. destruct (_ =? WHL_INVALID_OFFSET_PAIR); [reflexivity|].
  unfold cas_head_last. rewrite Z.eqb_refl. reflexivity.
Qed.

Lemma wheel_backfilled m offset : wheel (backfilled m offset) = wheel m.
Proof. unfold backfilled. destruct (_ && _); reflexivity. Qed.

Lemma backfilled_empty m offset :
  last (head_last (wheel m)) = WHL_INVALID_OFFSET -> backfilled m offset = m.
Proof.
  intros E. unfold backfilled. rewrite E, (Z.eqb_refl WHL_INVALID_OFFSET).
  cbn [negb]. rewrite andb_false_r. reflexivity.
Qed.

Lemma backfilled_append m offset : offset <> 0 -> backfilled m offset = m.
Proof.
  intros E. unfold backfilled. rewrite (proj2 (Z.eqb_neq offset 0) E). reflexivity.
Qed.

Lemma backfilled_wrap m :
  last (head_last (wheel m)) <> WHL_INVALID_OFFSET ->
  backfilled m 0
  = perform (St_units (__whl_at_unchecked (last (head_last (wheel m))))
               (u32 (aligned_size (wheel m) - last (head_last (wheel m))))) m.
Proof.
  intros E. unfold backfilled. rewrite (proj2 (Z.eqb_neq _ _) E). reflexivity.
Qed.

(** [whl_make_slice] with its loop resolved. *)
Lemma whl_make_slice_once fuel m size :
  whl_make_slice (S fuel) m size
  = if SIZE_MAX - sizeof_whl_slice_t <? size then Some (WHL_INVALID_OFFSET, None, m)
    else
      let offset :=
        __whl_next_offset_aligned m (slice_units size) (head_last (wheel m)) in
      if offset =? WHL_INVALID_OFFSET then Some (WHL_INVALID_OFFSET, None, m)
      else Some (offset,
                 Some (__whl_slice_buf (__whl_at_unchecked offset)),
                 perform (St_head_last (new_pair m offset))
                   (perform (St_slice (__whl_at_unchecked offset) (new_slice size))
                      (backfilled m offset))).
Proof.
  unfold whl_make_slice. destruct (_ <? size); [reflexivity|].
  cbv zeta. destruct (_ =? WHL_INVALID_OFFSET) eqn:E; [reflexivity|].
  fold (backfilled m (__whl_next_offset_aligned m (slice_units size) (head_last (wheel m)))).
  fold (new_slice size).
  set (off := __whl_next_offset_aligned _ _ _) in *.
  set (m2 := perform (St_slice _ _) _).
  assert (Hw : wheel m2 = wheel m).
  { unfold m2. rewrite wheel_perform_slice. apply wheel_backfilled. }
  rewrite <- Hw at 1. rewrite publish_last_once. rewrite Hw. reflexivity.
Qed.

(** The loop of [whl_make_slice] returns for every positive fuel, so the
    function is total. *)
Lemma whl_make_slice_total fuel m size :
  exists r, whl_make_slice (S fuel) m size = Some r.
Proof.
  rewrite whl_make_slice_once. destruct (_ <? size); [eauto|].
  cbv zeta. destruct (_ =? WHL_INVALID_OFFSET); eauto.
Qed.

Lemma next_offset_u32 m size p : is_u32 (__whl_next_offset_aligned m size p).
Proof.
  unfold __whl_next_offset_aligned.
  repeat match goal with
         | |- context [if ?b then _ else _] => destruct b
         end; cbv zeta; try apply u32_range; unfold_consts; lia.
Qed.

(** Without interference the compare-exchange of [whl_return_slice]
    succeeds. *)
Lemma reclaim_head_once m :
  reclaim_head (head_last (wheel m)) m
  = if head (head_last (wheel m)) =? last (head_last (wheel m))
    then perform (St_head_last whl_invalid_offset_pair) m
    else advance_head (head_last (wheel m)) m.
Proof.
  unfold reclaim_head, cas_head_last. rewrite Z.eqb_refl. reflexivity.
Qed.

Lemma head_valid m :
  head (head_last (wheel m)) <> WHL_INVALID_OFFSET ->
  __whl_head m = Some (__whl_at_unchecked (head (head_last (wheel m)))).
Proof.
  intros H. unfold __whl_head. cbv zeta.
  destruct (Z.eqb_spec (head (head_last (wheel m))) WHL_INVALID_OFFSET); congruence.
Qed.

(** ** The header stays well formed *)

Lemma header_ok_same_wheel m m' : wheel m' = wheel m -> header_ok m -> header_ok m'.
Proof. intros E [? ? ? ?]. split; rewrite E; assumption. Qed.

Lemma header_ok_pair_valid m :
  header_ok m -> head_last (wheel m) <> whl_invalid_offset_pair ->
  head (head_last (wheel m)) <> WHL_INVALID_OFFSET
  /\ last (head_last (wheel m)) <> WHL_INVALID_OFFSET.
Proof.
  intros [? ? ? Hb] Hp. destruct (head_last (wheel m)) as [h l] eqn:E.
  cbn [head last] in *. unfold whl_invalid_offset_pair in Hp.
  destruct (decide (h = WHL_INVALID_OFFSET)) as [->|];
    destruct (decide (l = WHL_INVALID_OFFSET)) as [->|]; try tauto; congruence.
Qed.

Lemma header_ok_make fuel m size offset bufp m' :
  header_ok m -> whl_make_slice fuel m size = Some (offset, bufp, m') -> header_ok m'.
Proof.
  intros Hok. destruct fuel as [|fuel].
  { unfold whl_make_slice. destruct (_ <? size); [intros [= <- <- <-]; assumption|].
    cbv zeta. destruct (_ =? WHL_INVALID_OFFSET); [intros [= <- <- <-]; assumption|].
    discriminate. }
  rewrite whl_make_slice_once. destruct (_ <? size); [intros [= <- <- <-]; assumption|].
  cbv zeta. set (off := __whl_next_offset_aligned _ _ _).
  destruct (Z.eqb_spec off WHL_INVALID_OFFSET) as [|Hne];
    [intros [= <- <- <-]; assumption|].
  intros [= <- <- <-].
  pose proof (next_offset_u32 m (slice_units size) (head_last (wheel m))) as Hu.
  fold off in Hu. destruct Hok as [Hs Hh Hl Hb].
  unfold new_pair. rewrite pair_u64_invalid_b by assumption.
  split; cbn [wheel perform write_mem fst aligned_size head_last];
    rewrite ?wheel_backfilled; try assumption;
    case_bool_decide as Hp; cbn [head last]; try assumption; try tauto.
  assert (head (head_last (wheel m)) <> WHL_INVALID_OFFSET); [|tauto].
  apply header_ok_pair_valid; [split|]; assumption.
Qed.

Lemma next_head_range m h :
  1 <= aligned_size (wheel m) -> 0 <= next_head m h < aligned_size (wheel m).
Proof. intros. unfold next_head. apply Z.mod_pos_bound. lia. Qed.

Lemma header_ok_reclaim m :
  header_ok m -> head (head_last (wheel m)) <> WHL_INVALID_OFFSET ->
  header_ok (reclaim_head (head_last (wheel m)) m).
Proof.
  intros [Hs Hh Hl Hb] Hv. rewrite reclaim_head_once.
  destruct (_ =? _).
  - split; cbn; try assumption; try tauto; unfold_consts; lia.
  - pose proof (next_head_range m (head (head_last (wheel m))) ltac:(lia)) as Hn.
    unfold next_head, units in Hn.
    split; cbn [advance_head wheel perform write_mem fst aligned_size head_last head last];
      try assumption.
    + unfold_consts. lia.
    + split; [intros E; unfold_consts; lia | tauto].
Qed.

Lemma header_ok_return_loop fuel : forall r m r' m',
  header_ok m -> return_loop fuel r m = Some (r', m') -> header_ok m'.
Proof.
  induction fuel as [|fuel IH]; intros r m r' m' Hok; [discriminate|].
  cbn [return_loop]. cbv zeta.
  destruct (Z.eqb_spec (head (head_last (wheel m))) WHL_INVALID_OFFSET) as [|Hv];
    cbn [negb andb]; [intros [= <- <-]; assumption|].
  destruct (match __whl_head m with Some _ => _ | None => _ end);
    [|intros [= <- <-]; assumption].
  apply IH. apply header_ok_reclaim; assumption.
Qed.

Lemma header_ok_return fuel m off r m' :
  header_ok m -> whl_return_slice fuel m off = Some (r, m') -> header_ok m'.
Proof.
  intros Hok. unfold whl_return_slice. cbv zeta.
  assert (header_ok (perform (St_state (__whl_at_unchecked off) WHL_SLICE_RETURNED) m))
    by (eapply header_ok_same_wheel; [apply wheel_perform_state|assumption]).
  destruct (_ =? WHL_SLICE_RETURNED); [intros [= <- <-]; assumption|].
  apply header_ok_return_loop; assumption.
Qed.

Lemma whl_next_shared_slice_same m : snd (whl_next_shared_slice m) = m.
Proof.
  unfold whl_next_shared_slice. cbv zeta.
  destruct (_ =? WHL_INVALID_OFFSET); [reflexivity|].
  destruct (negb _); reflexivity.
Qed.

Lemma header_ok_step fuel o m m' :
  header_ok m -> step fuel o m = Some m' -> header_ok m'.
Proof.
  intros Hok. destruct o as [size|offset| |off]; cbn [step].
  - destruct (whl_make_slice fuel m size) as [[[offset bufp] m1]|] eqn:E; [|discriminate].
    intros [= <-]. eapply header_ok_make; eassumption.
  - intros [= <-]. eapply header_ok_same_wheel; [apply wheel_perform_state|assumption].
  - intros [= <-]. rewrite whl_next_shared_slice_same. assumption.
  - destruct (whl_return_slice fuel m off) as [[r m1]|] eqn:E; [|discriminate].
    intros [= <-]. eapply header_ok_return; eassumption.
Qed.

Lemma reachable_header_ok m : reachable m -> header_ok m.
Proof.
  induction 1 as [m0 buf_size m _ Hi | m o fuel m' _ IH _ Hs].
  - eapply whl_init_header_ok; eassumption.
  - eapply header_ok_step; eassumption.
Qed.

(** ** Initialization *)

(** C7. [whl_init] is documented to accept every multiple of 64 from 128 up to,
    but not including, [64 * (2^32 - 1)]. The bound it compares with is the
    [unsigned int] product [WHL_ALIGN * UINT32_MAX], which is [2^32 - 64]: a
    buffer of [2^32] bytes meets the documented conditions and is refused,
    with the region left as it was. *)
Theorem whl_init_refuses_4GiB m :
  let buf_size := 2 ^ 32 in
  is_size_t buf_size
  /\ 2 * WHL_ALIGN <= buf_size
  /\ buf_size mod WHL_ALIGN = 0
  /\ buf_size < WHL_ALIGN * UINT32_MAX
  /\ whl_init_limit = 2 ^ 32 - 64
  /\ whl_init m buf_size = (-1, m).
Proof. cbv zeta. unfold_consts. repeat split; try lia; reflexivity. Qed.

(** [whl_init] fails exactly on sizes below 128, sizes that are not multiples
    of 64 and sizes from [2^32 - 64] on; when it succeeds it installs
    [(buf_size - 64) / 64] with both offsets invalid. *)
Theorem whl_init_accepts m buf_size :
  (fst (whl_init m buf_size) <> 0
   <-> buf_size < 2 * WHL_ALIGN \/ buf_size mod WHL_ALIGN <> 0
       \/ 2 ^ 32 - WHL_ALIGN <= buf_size)
  /\ (fst (whl_init m buf_size) = 0 ->
      let m' := snd (whl_init m buf_size) in
      aligned_size (wheel m') = (buf_size - WHL_ALIGN) / WHL_ALIGN
      /\ head (head_last (wheel m')) = WHL_INVALID_OFFSET
      /\ last (head_last (wheel m')) = WHL_INVALID_OFFSET
      /\ slices m' = slices m).
Proof.
  unfold WHL_ALIGN.
  destruct (whl_init_cases m buf_size) as [[Hc E]|[[Hb Hm] E]]; rewrite E; cbn [fst snd].
  - split; [split; [intros _; lia | intros _; lia]|]. intros H. lia.
  - split; [split; [intros H; lia | intros H; lia]|]. intros _. cbv zeta.
    cbn. repeat split; reflexivity.
Qed.

(** ** [whl_next_shared_slice] *)


(** ** Both offsets valid or both invalid *)

(** C3. In every region reachable from a successful [whl_init] by calls of
    [whl_make_slice], [whl_share_slice], [whl_next_shared_slice] and
    [whl_return_slice], with any arguments, [head] is [WHL_INVALID_OFFSET] if
    and only if [last] is. *)
Theorem head_invalid_iff_last_invalid m :
  reachable m ->
  head (head_last (wheel m)) = WHL_INVALID_OFFSET
  <-> last (head_last (wheel m)) = WHL_INVALID_OFFSET.
Proof. intros H. apply reachable_header_ok in H. apply H. Qed.

Lemma run_ops_reachable fuel ops : forall m m',
  reachable m -> Forall op_typed ops -> run_ops fuel ops m = Some m' -> reachable m'.
Proof.
  induction ops as [|o ops IH]; intros m m' Hr Ht; cbn [run_ops].
  - intros [= <-]. assumption.
  - apply Forall_cons in Ht as [Ho Ht].
    destruct (step fuel o m) as [m1|] eqn:E; [|discriminate]. cbn.
    apply IH; [|assumption]. eapply reach_step; eassumption.
Qed.

Ltac solve_ops :=
  repeat (apply Forall_cons; split; [vm_compute; intuition discriminate|]);
  apply Forall_nil_2.

Lemma head_invalid_iff_last_invalid_witness :
  let m := sample_wheel 256 sample_run in
  head (head_last (wheel m)) = WHL_INVALID_OFFSET
  <-> last (head_last (wheel m)) = WHL_INVALID_OFFSET.
Proof.
  apply (head_invalid_iff_last_invalid (sample_wheel 256 sample_run)).
  apply (run_ops_reachable 2 sample_run (snd (whl_init zero_shm 256))).
  - apply (reach_init zero_shm 256); [unfold_consts; lia|vm_compute; reflexivity].
  - unfold sample_run. solve_ops.
  - vm_compute. reflexivity.
Defined.

(** ** Slices laid end to end *)

Lemma run_le m a b : run m a b -> a <= b.
Proof. induction 1; lia. Qed.

(** A run depends only on the sizes recorded between its ends. *)
Lemma run_frame m m' a b :
  (forall o, a <= o < b -> units m' o = units m o) -> run m a b -> run m' a b.
Proof.
  intros Hu Hr. induction Hr as [a | a b H1 H2 Hr IH]; [constructor|].
  pose proof (run_le _ _ _ Hr).
  assert (E : units m' a = units m a) by (apply Hu; lia).
  apply run_step; rewrite E; try assumption.
  apply IH. intros o Ho. apply Hu. lia.
Qed.

Lemma run_snoc m a b :
  run m a b -> 1 <= units m b -> run m a (b + units m b).
Proof.
  intros Hr Hb. induction Hr as [a | a b H1 H2 Hr IH].
  - apply run_step; [assumption|lia|constructor].
  - apply run_step; [assumption|lia|]. apply IH. assumption.
Qed.

Lemma __whl_at_unchecked_eq o o' :
  0 <= o < 2 ^ 26 -> 0 <= o' < 2 ^ 26 ->
  __whl_at_unchecked o = __whl_at_unchecked o' <-> o = o'.
Proof.
  intros H H'. split; [apply at_unchecked_inj; assumption | intros ->; reflexivity].
Qed.

Lemma units_perform_slice o' sl m o :
  0 <= o < 2 ^ 26 -> 0 <= o' < 2 ^ 26 ->
  units (perform (St_slice (__whl_at_unchecked o') sl) m) o
  = if decide (o' = o) then aligned_size_in_wheel sl else units m o.
Proof.
  intros H H'. unfold units. rewrite slice_at_perform_slice.
  pose proof (__whl_at_unchecked_eq o' o H' H).
  destruct (decide (__whl_at_unchecked o' = _)), (decide (o' = o)); tauto.
Qed.

Lemma units_perform_units o' v m o :
  0 <= o < 2 ^ 26 -> 0 <= o' < 2 ^ 26 ->
  units (perform (St_units (__whl_at_unchecked o') v) m) o
  = if decide (o' = o) then v else units m o.
Proof.
  intros H H'. unfold units. rewrite slice_at_perform_units.
  pose proof (__whl_at_unchecked_eq o' o H' H).
  destruct (decide (__whl_at_unchecked o' = _)), (decide (o' = o)); tauto.
Qed.

Lemma units_perform_head_last p m o : units (perform (St_head_last p) m) o = units m o.
Proof. reflexivity. Qed.

Lemma units_perform_head h m o : units (perform (St_head h) m) o = units m o.
Proof. reflexivity. Qed.

(** ** The policy the code follows *)

(** What [chain_ok] says about the end of the last slice. *)
Lemma chain_ok_bounds m :
  1 <= aligned_size (wheel m) <= MAX_ALIGNED_SIZE ->
  chain_ok m (head_last (wheel m)) ->
  let p := head_last (wheel m) in
  0 <= head p < aligned_size (wheel m)
  /\ 0 <= last p < aligned_size (wheel m)
  /\ 1 <= units m (last p)
  /\ last p + units m (last p) <= aligned_size (wheel m)
  /\ (last p < head p -> last p + units m (last p) <= head p).
Proof.
  intros Hs (Hh & Hl & Hu & [(Hle & Hr & He) | (Hlt & (j & Hj & Hju & Hje) & Hr & He)]);
    cbv zeta.
  - lia.
  - pose proof (run_le _ _ _ Hj). lia.
Qed.

Lemma chain_ok_valid m :
  1 <= aligned_size (wheel m) <= MAX_ALIGNED_SIZE ->
  chain_ok m (head_last (wheel m)) ->
  head_last (wheel m) <> whl_invalid_offset_pair
  /\ (pair_u64 (head_last (wheel m)) =? WHL_INVALID_OFFSET_PAIR) = false.
Proof.
  intros Hs Hc. pose proof (chain_ok_bounds m Hs Hc) as (Hh & Hl & _). cbv zeta in *.
  assert (Hne : head_last (wheel m) <> whl_invalid_offset_pair).
  { intros E. rewrite E in Hh. cbn in Hh. unfold_consts. lia. }
  split; [assumption|]. rewrite pair_u64_invalid_b by (unfold_consts; lia).
  apply bool_decide_eq_false. assumption.
Qed.

(** On a well-formed wheel the unsigned arithmetic of
    [__whl_next_offset_aligned] never wraps, and the offset it returns is the
    one the policy names. *)
Lemma next_offset_policy m need :
  wheel_ok m ->
  __whl_next_offset_aligned m need (head_last (wheel m)) = spec_offset m need.
Proof.
  intros [Hs [Hp|Hc]]; unfold __whl_next_offset_aligned, spec_offset; cbv zeta.
  - rewrite Hp. rewrite decide_True by reflexivity. reflexivity.
  - destruct (chain_ok_valid m Hs Hc) as [Hne ->]. rewrite decide_False by assumption.
    pose proof (chain_ok_bounds m Hs Hc) as (Hh & Hl & Hu & He & Hw). cbv zeta in *.
    fold (units m (last (head_last (wheel m)))).
    set (le := last (head_last (wheel m)) + units m (last (head_last (wheel m)))) in *.
    assert (Ele : u32 le = le) by (apply u32_small; unfold_consts; lia).
    rewrite Ele.
    destruct (Z.ltb_spec (last (head_last (wheel m))) (head (head_last (wheel m)))).
    + rewrite u32_small by (unfold_consts; lia). reflexivity.
    + rewrite u32_small by (unfold_consts; lia). reflexivity.
Qed.

(** The footprint the code computes is the footprint of the specification as
    long as a [whl_offset_t] can hold it. *)
Lemma padded_footprint s :
  0 <= s -> s + __whl_alignment_padding s = 64 * ((s + 63) / 64).
Proof.
  intros Hs. unfold __whl_alignment_padding, WHL_ALIGN.
  pose proof (Z.div_mod s 64 ltac:(lia)) as Hd.
  pose proof (Z.mod_pos_bound s 64 ltac:(lia)) as Hr.
  destruct (decide (s mod 64 = 0)) as [E|E].
  - rewrite E. change ((64 - 0) mod 64) with 0.
    assert ((s + 63) / 64 = s / 64); [|lia].
    symmetry. apply (Z.div_unique (s + 63) 64 (s / 64) 63); lia.
  - rewrite (Z.mod_small (64 - s mod 64)) by lia.
    assert ((s + 63) / 64 = s / 64 + 1); [|lia].
    symmetry. apply (Z.div_unique (s + 63) 64 (s / 64 + 1) (s mod 64 - 1)); lia.
Qed.

Lemma slice_units_fits size :
  0 <= size -> spec_need size <= UINT32_MAX ->
  slice_units size = spec_need size /\ 1 <= spec_need size.
Proof.
  unfold spec_need, slice_units. unfold_consts. intros H0 Hfit.
  replace (16 + size + (64 - 1)) with (16 + size + 63) in * by lia.
  set (n := (16 + size + 63) / 64) in *.
  assert (Hn : 64 * n <= 16 + size + 63 < 64 * n + 64).
  { unfold n. pose proof (Z.div_mod (16 + size + 63) 64 ltac:(lia)).
    pose proof (Z.mod_pos_bound (16 + size + 63) 64 ltac:(lia)). lia. }
  assert (E1 : u64 (16 + size) = 16 + size) by (apply u64_small; unfold_consts; lia).
  cbv zeta. rewrite E1. rewrite padded_footprint by lia. fold n.
  rewrite u64_small by (unfold_consts; lia).
  rewrite Z.mul_comm, Z.div_mul by lia.
  split; [apply u32_small; unfold_consts; lia | lia].
Qed.

(** ** The invariant is kept *)

Lemma wheel_ok_init m0 buf_size m : whl_init m0 buf_size = (0, m) -> wheel_ok m.
Proof.
  intros H. pose proof (whl_init_header_ok _ _ _ H) as [Hs _ _ _].
  split; [assumption|]. left.
  destruct (whl_init_cases m0 buf_size) as [[_ E]|[_ E]]; rewrite E in H;
    [discriminate|]. injection H as <-. reflexivity.
Qed.

(** A store that changes no recorded size and no header field keeps it. *)
Lemma wheel_ok_same m m' :
  wheel m' = wheel m -> (forall o, units m' o = units m o) ->
  wheel_ok m -> wheel_ok m'.
Proof.
  intros Ew Eu [Hs Hp]. split; rewrite Ew; [assumption|].
  destruct Hp as [Hp|(Hh & Hl & Hu & Hc)]; [left; assumption|right].
  assert (Hrun : forall a b, run m a b -> run m' a b).
  { intros a b. apply run_frame. intros o _. apply Eu. }
  unfold chain_ok. rewrite Ew, !Eu. repeat split; try assumption.
  destruct Hc as [(? & ? & ?)|(? & (j & ? & ? & ?) & ? & ?)]; [left|right].
  - auto.
  - repeat split; auto. exists j. rewrite Eu. auto.
Qed.

Lemma wheel_ok_share m offset : wheel_ok m -> wheel_ok (whl_share_slice m offset).
Proof.
  apply wheel_ok_same; [apply wheel_perform_state|].
  intros o. apply units_perform_state.
Qed.

(** An allocation of at least one unit keeps the invariant. *)
Lemma wheel_ok_make fuel m size offset bufp m' :
  wheel_ok m -> 1 <= slice_units size ->
  whl_make_slice fuel m size = Some (offset, bufp, m') -> wheel_ok m'.
Proof.
  intros Hok Hneed. destruct fuel as [|fuel].
  { unfold whl_make_slice. destruct (_ <? size); [intros [= <- <- <-]; assumption|].
    cbv zeta. destruct (_ =? WHL_INVALID_OFFSET); [intros [= <- <- <-]; assumption|].
    discriminate. }
  rewrite whl_make_slice_once. destruct (_ <? size); [intros [= <- <- <-]; assumption|].
  cbv zeta. rewrite next_offset_policy by assumption.
  destruct (Z.eqb_spec (spec_offset m (slice_units size)) WHL_INVALID_OFFSET) as [|Hne];
    [intros [= <- <- <-]; assumption|].
  intros [= <- <- <-]. revert Hne.
  set (need := slice_units size) in *.
  destruct Hok as [Hs [Hp|Hc]].
  - (* the wheel is empty *)
    unfold spec_offset. cbv zeta. rewrite decide_True by assumption.
    destruct (Z.leb_spec need (aligned_size (wheel m))); [|congruence]. intros _.
    rewrite backfilled_empty by (rewrite Hp; reflexivity).
    unfold new_pair. rewrite Hp.
    change (pair_u64 _ =? WHL_INVALID_OFFSET_PAIR) with true. cbv iota.
    split; [exact Hs|]. right. unfold chain_ok.
    cbn [wheel perform write_mem fst head_last aligned_size head last].
    rewrite units_perform_head_last, units_perform_slice by (unfold_consts; lia).
    rewrite decide_True by reflexivity. cbn [new_slice aligned_size_in_wheel]. fold need.
    repeat split; try lia. left. repeat split; [lia|constructor|lia].
  - (* the wheel holds slices *)
    destruct (chain_ok_valid m Hs Hc) as [Hnp Hnb].
    pose proof (chain_ok_bounds m Hs Hc) as (Hh & Hl & Hu & He & Hw). cbv zeta in *.
    destruct Hc as (_ & _ & _ & Hc).
    unfold spec_offset. cbv zeta. rewrite decide_False by assumption.
    unfold new_pair. rewrite Hnb.
    set (h := head (head_last (wheel m))) in *.
    set (l := last (head_last (wheel m))) in *.
    set (le := l + units m l) in *.
    assert (Hlv : l <> WHL_INVALID_OFFSET) by (unfold_consts; lia).
    destruct (Z.ltb_spec l h) as [Hlt|Hge].
    + (* wrapped: only the gap before the head *)
      destruct (Z.leb_spec need (h - le)); [|congruence]. intros _.
      rewrite backfilled_append by lia.
      destruct Hc as [(? & _)|(_ & (j & Hj & Hju & Hje) & Hr & _)]; [lia|].
      pose proof (run_le _ _ _ Hj).
      split; [exact Hs|]. right. unfold chain_ok.
      cbn [wheel perform write_mem fst head_last aligned_size head last].
      rewrite !units_perform_head_last, !units_perform_slice by (unfold_consts; lia).
      rewrite decide_True by reflexivity. cbn [new_slice aligned_size_in_wheel]. fold need.
      repeat split; try lia. right. repeat split; try lia.
      * exists j. rewrite units_perform_head_last, units_perform_slice
          by (unfold_consts; lia).
        rewrite decide_False by lia. repeat split; try assumption.
        eapply run_frame; [|exact Hj]. intros o Ho.
        rewrite units_perform_head_last, units_perform_slice by (unfold_consts; lia).
        rewrite decide_False by lia. reflexivity.
      * eapply run_frame; [|apply (run_snoc _ _ _ Hr Hu)]. intros o Ho. fold le in Ho.
        rewrite units_perform_head_last, units_perform_slice by (unfold_consts; lia).
        rewrite decide_False by lia. reflexivity.
    + destruct Hc as [(_ & Hr & _)|(? & _)]; [|lia].
      pose proof (run_le _ _ _ Hr).
      destruct (Z.leb_spec need (aligned_size (wheel m) - le)).
      * (* room after the last slice *)
        intros _. rewrite backfilled_append by lia.
        split; [exact Hs|]. right. unfold chain_ok.
        cbn [wheel perform write_mem fst head_last aligned_size head last].
        rewrite !units_perform_head_last, !units_perform_slice by (unfold_consts; lia).
        rewrite decide_True by reflexivity. cbn [new_slice aligned_size_in_wheel]. fold need.
        repeat split; try lia. left. repeat split; try lia.
        eapply run_frame; [|apply (run_snoc _ _ _ Hr Hu)]. intros o Ho. fold le in Ho.
        rewrite units_perform_head_last, units_perform_slice by (unfold_consts; lia).
        rewrite decide_False by lia. reflexivity.
      * (* wrap to offset 0, the last slice grows to the end of the wheel *)
        destruct (Z.leb_spec need h); [|congruence]. intros _.
        rewrite backfilled_wrap by assumption. fold l.
        rewrite u32_small by (unfold_consts; lia).
        split; [exact Hs|]. right. unfold chain_ok.
        cbn [wheel perform write_mem fst head_last aligned_size head last].
        rewrite !units_perform_head_last, !units_perform_slice by (unfold_consts; lia).
        rewrite decide_True by reflexivity. cbn [new_slice aligned_size_in_wheel]. fold need.
        repeat split; try lia. right. repeat split; try lia; [|constructor].
        exists l.
        rewrite units_perform_head_last, units_perform_slice by (unfold_consts; lia).
        rewrite decide_False by lia.
        rewrite units_perform_units by (unfold_consts; lia).
        rewrite decide_True by reflexivity. repeat split; try lia.
        eapply run_frame; [|exact Hr]. intros o Ho.
        rewrite units_perform_head_last, units_perform_slice by (unfold_consts; lia).
        rewrite decide_False by lia.
        rewrite units_perform_units by (unfold_consts; lia).
        rewrite decide_False by lia. reflexivity.
Qed.

Lemma run_inv m a b :
  run m a b -> a <> b ->
  1 <= units m a /\ a + units m a <= b /\ run m (a + units m a) b.
Proof. intros Hr Hne. destruct Hr; [congruence|auto]. Qed.

(** Where the head goes when it leaves a slice of a well-formed wheel. *)
Lemma wheel_ok_next_head m :
  wheel_ok m ->
  head_last (wheel m) <> whl_invalid_offset_pair ->
  head (head_last (wheel m)) <> last (head_last (wheel m)) ->
  let h := head (head_last (wheel m)) in
  1 <= units m h
  /\ (h + units m h < aligned_size (wheel m) /\ next_head m h = h + units m h
      \/ h + units m h = aligned_size (wheel m) /\ next_head m h = 0)
  /\ chain_ok m {| head := next_head m h; last := last (head_last (wheel m)) |}.
Proof.
  intros [Hs [Hp|Hc]] Hnp Hne; [congruence|]. cbv zeta.
  pose proof (chain_ok_bounds m Hs Hc) as (Hh & Hl & Hu & He & Hw). cbv zeta in *.
  destruct Hc as (_ & _ & _ & Hc).
  set (h := head (head_last (wheel m))) in *.
  set (l := last (head_last (wheel m))) in *.
  unfold next_head, chain_ok. cbn [head last].
  destruct Hc as [(Hle & Hr & _)|(Hlt & (j & Hj & Hju & Hje) & Hr & _)].
  - destruct (run_inv _ _ _ Hr Hne) as (H1 & H2 & H3).
    rewrite u32_small by (unfold_consts; lia).
    rewrite Z.mod_small by lia.
    repeat split; try lia. left. repeat split; try lia; assumption.
  - pose proof (run_le _ _ _ Hj).
    destruct (decide (h = j)) as [->|Hhj].
    + rewrite u32_small by (unfold_consts; lia).
      rewrite Hje, Z.mod_same by lia.
      repeat split; try lia. left. repeat split; try lia; assumption.
    + destruct (run_inv _ _ _ Hj Hhj) as (H1 & H2 & H3).
      rewrite u32_small by (unfold_consts; lia).
      rewrite Z.mod_small by lia.
      repeat split; try lia. right. repeat split; try lia; try assumption.
      exists j. auto.
Qed.

Lemma chain_ok_same m m' p :
  aligned_size (wheel m') = aligned_size (wheel m) ->
  (forall o, units m' o = units m o) ->
  chain_ok m p -> chain_ok m' p.
Proof.
  intros Ea Eu (Hh & Hl & Hu & Hc).
  assert (Hrun : forall a b, run m a b -> run m' a b).
  { intros a b. apply run_frame. intros o _. apply Eu. }
  unfold chain_ok. rewrite Ea, !Eu. repeat split; try assumption.
  destruct Hc as [(? & ? & ?)|(? & (j & ? & ? & ?) & ? & ?)]; [left|right].
  - auto.
  - repeat split; auto. exists j. rewrite Eu. auto.
Qed.

Lemma wheel_ok_reclaim m :
  wheel_ok m -> head (head_last (wheel m)) <> WHL_INVALID_OFFSET ->
  wheel_ok (reclaim_head (head_last (wheel m)) m).
Proof.
  intros Hok Hv. rewrite reclaim_head_once.
  destruct (Z.eqb_spec (head (head_last (wheel m))) (last (head_last (wheel m)))) as [E|E].
  - destruct Hok as [Hs _]. split; [exact Hs|]. left. reflexivity.
  - assert (Hnp : head_last (wheel m) <> whl_invalid_offset_pair)
      by (intros Hp; rewrite Hp in Hv; apply Hv; reflexivity).
    destruct (wheel_ok_next_head m Hok Hnp E) as (_ & _ & Hc).
    destruct Hok as [Hs _]. split; [exact Hs|]. right.
    eapply chain_ok_same; [| |exact Hc]; reflexivity.
Qed.

Lemma wheel_ok_return_loop fuel : forall r m r' m',
  wheel_ok m -> return_loop fuel r m = Some (r', m') -> wheel_ok m'.
Proof.
  induction fuel as [|fuel IH]; intros r m r' m' Hok; [discriminate|].
  cbn [return_loop]. cbv zeta.
  destruct (Z.eqb_spec (head (head_last (wheel m))) WHL_INVALID_OFFSET) as [|Hv];
    cbn [negb andb]; [intros [= <- <-]; assumption|].
  destruct (match __whl_head m with Some _ => _ | None => _ end);
    [|intros [= <- <-]; assumption].
  apply IH. apply wheel_ok_reclaim; assumption.
Qed.

Lemma wheel_ok_return fuel m off r m' :
  wheel_ok m -> whl_return_slice fuel m off = Some (r, m') -> wheel_ok m'.
Proof.
  intros Hok. unfold whl_return_slice. cbv zeta.
  assert (wheel_ok (perform (St_state (__whl_at_unchecked off) WHL_SLICE_RETURNED) m)).
  { eapply wheel_ok_same; [apply wheel_perform_state| |exact Hok].
    intros o. apply units_perform_state. }
  destruct (_ =? WHL_SLICE_RETURNED); [intros [= <- <-]; assumption|].
  apply wheel_ok_return_loop; assumption.
Qed.

Lemma wheel_ok_step fuel o m m' :
  wheel_ok m -> op_typed o -> op_fits o -> step fuel o m = Some m' -> wheel_ok m'.
Proof.
  intros Hok Ht Hf. destruct o as [size|offset| |off]; cbn [step].
  - destruct (whl_make_slice fuel m size) as [[[offset bufp] m1]|] eqn:E; [|discriminate].
    intros [= <-]. cbn in Ht, Hf.
    destruct (slice_units_fits size) as [E1 E2]; [unfold_consts; lia|assumption|].
    eapply wheel_ok_make; [exact Hok| |exact E]. lia.
  - intros [= <-]. apply wheel_ok_share. assumption.
  - intros [= <-]. rewrite whl_next_shared_slice_same. assumption.
  - destruct (whl_return_slice fuel m off) as [[r m1]|] eqn:E; [|discriminate].
    intros [= <-]. eapply wheel_ok_return; eassumption.
Qed.

(** Every region reached by requests that fit satisfies the invariant. *)
Lemma reachable_fit_wheel_ok m : reachable_fit m -> wheel_ok m.
Proof.
  induction 1 as [m0 buf_size m _ Hi | m o fuel m' _ IH Ht Hf Hs].
  - eapply wheel_ok_init; eassumption.
  - eapply wheel_ok_step; eassumption.
Qed.

Lemma reachable_fit_reachable m : reachable_fit m -> reachable m.
Proof.
  induction 1; [eapply reach_init|eapply reach_step]; eassumption.
Qed.

Lemma run_ops_reachable_fit fuel ops : forall m m',
  reachable_fit m -> Forall (fun o => op_typed o /\ op_fits o) ops ->
  run_ops fuel ops m = Some m' -> reachable_fit m'.
Proof.
  induction ops as [|o ops IH]; intros m m' Hr Ht; cbn [run_ops].
  - intros [= <-]. assumption.
  - apply Forall_cons in Ht as [[Ho Hf] Ht].
    destruct (step fuel o m) as [m1|] eqn:E; [|discriminate]. cbn.
    apply IH; [|assumption]. eapply fit_step; eassumption.
Qed.

(** ** Allocation *)

(** The offset of a request that fits, on a well-formed wheel. *)
Lemma make_slice_follows_policy_core fuel m size :
  wheel_ok m -> is_size_t size -> spec_need size <= UINT32_MAX ->
  exists bufp m',
    whl_make_slice (S fuel) m size
    = Some (spec_offset m (spec_need size), bufp, m').
Proof.
  intros Hok Hsz Hfit.
  destruct (slice_units_fits size) as [E _]; [unfold_consts; lia|assumption|].
  rewrite whl_make_slice_once.
  replace (SIZE_MAX - sizeof_whl_slice_t <? size) with false.
  2:{ symmetry. apply Z.ltb_ge. revert Hfit. unfold spec_need. unfold_consts.
      intros Hfit.
      pose proof (Z.div_mod (16 + size + (64 - 1)) 64 ltac:(lia)).
      pose proof (Z.mod_pos_bound (16 + size + (64 - 1)) 64 ltac:(lia)). lia. }
  cbv zeta. rewrite next_offset_policy, E by assumption.
  destruct (Z.eqb_spec (spec_offset m (spec_need size)) WHL_INVALID_OFFSET) as [->|];
    eauto.
Qed.

(** On a well-formed wheel, a request whose footprint a [whl_offset_t] can
    hold is placed where the policy of the specification says: at offset 0 of
    an empty wheel if it fits; in the gap before the head of a wrapped wheel;
    otherwise after the last slice, else at offset 0 if it ends at or before
    the head; and [WHL_INVALID_OFFSET] when none of these applies. *)
Theorem make_slice_follows_policy fuel m size :
  wheel_ok m -> is_size_t size -> spec_need size <= UINT32_MAX ->
  exists bufp m',
    whl_make_slice (S fuel) m size
    = Some (spec_offset m (spec_need size), bufp, m').
Proof. apply make_slice_follows_policy_core. Qed.

Lemma make_slice_follows_policy_witness :
  exists bufp m',
    whl_make_slice 1 (snd (whl_init zero_shm 256)) 100
    = Some (spec_offset (snd (whl_init zero_shm 256)) (spec_need 100), bufp, m').
Proof.
  apply (make_slice_follows_policy 0 (snd (whl_init zero_shm 256)) 100).
  - apply (wheel_ok_init zero_shm 256). vm_compute. reflexivity.
  - vm_compute. intuition discriminate.
  - vm_compute. discriminate.
Defined.

(** C1. The footprint is computed in [size_t] and then stored in a
    [whl_offset_t]. For a request of [2^38 - 16] bytes the footprint is [2^32]
    units and the stored value is 0; for [2^64 - 17] bytes, which the overflow
    guard lets through, the padded sum wraps to 0. In both cases the policy of
    the specification gives [WHL_INVALID_OFFSET] on an empty wheel of one
    unit, and [whl_make_slice] returns offset 0 with a buffer pointer. *)
Theorem make_slice_truncates_footprint :
  let m := snd (whl_init zero_shm 128) in
  aligned_size (wheel m) = 1
  /\ head_last (wheel m) = whl_invalid_offset_pair
  /\ Forall (fun size =>
       is_size_t size
       /\ aligned_size (wheel m) < spec_need size
       /\ spec_offset m (spec_need size) = WHL_INVALID_OFFSET
       /\ slice_units size = 0
       /\ (fun r => (fst (fst r), snd (fst r))) <$> whl_make_slice 1 m size
          = Some (0, Some 80))
     [2 ^ 38 - 16; 2 ^ 64 - 17].
Proof.
  cbv zeta. split; [reflexivity|]. split; [reflexivity|].
  repeat constructor; try (vm_compute; intuition discriminate); vm_compute; reflexivity.
Qed.

(** The stores of a wrap, on any region with a well-formed header. *)
Lemma wrap_stores fuel m size bufp m' :
  header_ok m ->
  head_last (wheel m) <> whl_invalid_offset_pair ->
  whl_make_slice fuel m size = Some (0, bufp, m') ->
  m' = replay [ St_units (__whl_at_unchecked (last (head_last (wheel m))))
                  (u32 (aligned_size (wheel m) - last (head_last (wheel m))));
                St_slice (__whl_at_unchecked 0) (new_slice size);
                St_head_last {| head := head (head_last (wheel m)); last := 0 |} ] m.
Proof.
  intros Hok Hnp. destruct fuel as [|fuel].
  { unfold whl_make_slice. destruct (_ <? size); [intros [= ? ? ?]; discriminate|].
    cbv zeta. destruct (_ =? WHL_INVALID_OFFSET); [intros [= ? ? ?]|]; discriminate. }
  rewrite whl_make_slice_once. destruct (_ <? size); [intros [= ? ? ?]; discriminate|].
  cbv zeta.
  destruct (_ =? WHL_INVALID_OFFSET); [intros [= ? ? ?]; discriminate|].
  intros [= -> <- <-].
  destruct (header_ok_pair_valid m Hok Hnp) as [_ Hlv].
  destruct Hok as [_ Hh Hl _].
  rewrite backfilled_wrap by assumption. unfold new_pair.
  rewrite pair_u64_invalid_b, bool_decide_eq_false_2 by assumption.
  reflexivity.
Qed.

(** On a well-formed wheel offset 0 is selected next to a valid pair only to
    wrap: the last slice lies after offset 0 and ends within the wheel. *)
Lemma wrap_last_slice fuel m size bufp m' :
  wheel_ok m ->
  head_last (wheel m) <> whl_invalid_offset_pair ->
  whl_make_slice fuel m size = Some (0, bufp, m') ->
  let l := last (head_last (wheel m)) in
  0 < l < aligned_size (wheel m)
  /\ 1 <= units m l <= aligned_size (wheel m) - l.
Proof.
  intros Hok Hnp. destruct fuel as [|fuel].
  { unfold whl_make_slice. destruct (_ <? size); [intros [= ? ? ?]; discriminate|].
    cbv zeta. destruct (_ =? WHL_INVALID_OFFSET); [intros [= ? ? ?]|]; discriminate. }
  rewrite whl_make_slice_once. destruct (_ <? size); [intros [= ? ? ?]; discriminate|].
  cbv zeta. rewrite next_offset_policy by assumption.
  destruct (Z.eqb_spec (spec_offset m (slice_units size)) WHL_INVALID_OFFSET) as [|Hne];
    [intros [= ? ? ?]; discriminate|].
  intros [= Hoff _ _]. clear Hne. revert Hoff.
  destruct Hok as [Hs [Hp|Hc]]; [congruence|].
  pose proof (chain_ok_bounds m Hs Hc) as (Hh & Hl & Hu & He & Hw). cbv zeta in *.
  unfold spec_offset. cbv zeta. rewrite decide_False by assumption.
  set (h := head (head_last (wheel m))) in *.
  set (l := last (head_last (wheel m))) in *.
  set (need := slice_units size).
  destruct (Z.ltb_spec l h) as [Hlt|Hge].
  { destruct (Z.leb_spec need (h - (l + units m l))); unfold_consts; lia. }
  destruct (Z.leb_spec need (aligned_size (wheel m) - (l + units m l))); [lia|].
  destruct (Z.leb_spec need h); [|unfold_consts; lia]. lia.
Qed.

(** The back-fill of a wrap. On every region reached from [whl_init], when
    [whl_make_slice] selects offset 0 on a wheel whose pair is valid, it
    performs three stores in this order: the size of the previous last
    slice becomes [aligned_size - last] (an unsigned difference), the header
    of the new slice is written at offset 0, and the pair becomes [(head, 0)].
    Unless the previous last slice is itself at offset 0, its size stays the
    grown one, a head that leaves it by [(head + size) mod aligned_size]
    arrives at offset 0, the new last slice, and in every state between the
    stores a pair whose [last] is 0 comes with the grown size. On a
    well-formed wheel the previous last slice lies after offset 0, the
    difference does not wrap and the slice only grows. *)
Theorem wrap_backfills_before_publishing fuel m size bufp m' :
  reachable m ->
  head_last (wheel m) <> whl_invalid_offset_pair ->
  whl_make_slice fuel m size = Some (0, bufp, m') ->
  let h := head (head_last (wheel m)) in
  let l := last (head_last (wheel m)) in
  let grown := u32 (aligned_size (wheel m) - l) in
  let es := [ St_units (__whl_at_unchecked l) grown;
              St_slice (__whl_at_unchecked 0) (new_slice size);
              St_head_last {| head := h; last := 0 |} ] in
  m' = replay es m
  /\ stores m' = stores m ++ es
  /\ head_last (wheel m') = {| head := h; last := 0 |}
  /\ slice_at m' (__whl_at_unchecked 0) = new_slice size
  /\ (__whl_at_unchecked l <> __whl_at_unchecked 0 ->
      units m' l = grown
      /\ next_head m' l = 0
      /\ forall k, let mk := replay (take k es) m in
                   last (head_last (wheel mk)) = 0 -> units mk l = grown)
  /\ (wheel_ok m ->
      0 < l < aligned_size (wheel m)
      /\ __whl_at_unchecked l <> __whl_at_unchecked 0
      /\ grown = aligned_size (wheel m) - l
      /\ units m l <= grown).
Proof.
  intros Hr Hnp Hmk. pose proof (reachable_header_ok m Hr) as Hok.
  pose proof (wrap_stores _ _ _ _ _ Hok Hnp Hmk) as ->. cbv zeta.
  set (h := head (head_last (wheel m))).
  set (l := last (head_last (wheel m))).
  set (grown := u32 (aligned_size (wheel m) - l)).
  set (backfill := St_units (__whl_at_unchecked l) grown).
  set (header := St_slice (__whl_at_unchecked 0) (new_slice size)).
  set (publish := St_head_last {| head := h; last := 0 |}).
  split; [reflexivity|].
  split; [cbn [replay fold_left perform stores]; rewrite <- !app_assoc; reflexivity|].
  split; [reflexivity|].
  split.
  { unfold slice_at. cbn [replay fold_left]. unfold publish, header.
    cbn [perform slices write_mem snd]. rewrite lookup_insert_eq. reflexivity. }
  split.
  - intros Hat.
    assert (Hl0 : l <> 0) by (intros E; apply Hat; rewrite E; reflexivity).
    assert (Hunits : forall mk,
               mk = perform backfill m
               \/ mk = perform header (perform backfill m)
               \/ mk = perform publish (perform header (perform backfill m)) ->
               units mk l = grown).
    { intros mk [->|[->| ->]]; unfold units, publish, header, backfill;
        rewrite ?slice_at_perform_head_last, ?slice_at_perform_slice;
        rewrite ?decide_False by (intros E; apply Hat; symmetry; exact E);
        rewrite slice_at_perform_units, decide_True by reflexivity; reflexivity. }
    split; [apply Hunits; auto|]. split.
    + unfold next_head. cbn [replay fold_left]. rewrite Hunits by auto.
      unfold publish, header, backfill. cbn [wheel perform write_mem fst aligned_size].
      destruct Hok as [Hs _ _ _].
      replace (u32 (l + grown)) with (aligned_size (wheel m)).
      { apply Z.mod_same. lia. }
      unfold grown, u32. rewrite Zplus_mod_idemp_r.
      replace (l + (aligned_size (wheel m) - l)) with (aligned_size (wheel m)) by lia.
      symmetry. apply Z.mod_small. unfold_consts. lia.
    + intros [|[|[|k]]]; cbv zeta; cbn [take replay fold_left].
      * intros E. fold l in E. congruence.
      * unfold backfill. cbn [wheel perform write_mem fst head_last last]. fold l.
        congruence.
      * unfold header, backfill. cbn [wheel perform write_mem fst head_last last].
        fold l. congruence.
      * rewrite take_nil. cbn [fold_left]. intros _. apply Hunits. auto.
  - intros Hwok. destruct (wrap_last_slice _ _ _ _ _ Hwok Hnp Hmk) as [Hl Hu].
    cbv zeta in Hl, Hu. fold l in Hl, Hu. destruct Hwok as [Hs _].
    split; [exact Hl|]. split.
    + intros E. apply at_unchecked_inj in E; unfold_consts; lia.
    + unfold grown. rewrite u32_small by (unfold_consts; lia). lia.
Qed.

(** C2, at the input where the code leaves it. In a wheel of three units the
    request of [2^38 - 16] bytes is recorded with 0 units at offset 0 (the
    truncation of C1) and the pair becomes [(0, 0)]. The next request of 16
    bytes is placed at offset 0 next to this valid pair: the back-fill stores
    [aligned_size - last = 3] in the previous last slice, and the header of
    the new slice, written at the same address, replaces it by 1. Afterwards
    the previous last slice does not reach the end of the wheel, and a head
    that leaves it arrives at offset 1, where no slice is, not at the new
    last slice at offset 0. *)
Theorem wrap_backfill_overwritten :
  let m := sample_wheel 256 truncated_run in
  reachable m
  /\ aligned_size (wheel m) = 3
  /\ head_last (wheel m) = {| head := 0; last := 0 |}
  /\ units m 0 = 0
  /\ match whl_make_slice 1 m 16 with
     | Some (offset, bufp, m') =>
         offset = 0
         /\ stores m'
            = stores m
              ++ [ St_units (__whl_at_unchecked 0) 3;
                   St_slice (__whl_at_unchecked 0) (new_slice 16);
                   St_head_last {| head := 0; last := 0 |} ]
         /\ head_last (wheel m') = {| head := 0; last := 0 |}
         /\ units m' 0 = 1
         /\ next_head m' 0 = 1
     | None => False
     end.
Proof.
  cbv zeta. split.
  - apply (run_ops_reachable 2 truncated_run (snd (whl_init zero_shm 256))).
    + apply (reach_init zero_shm 256); [unfold_consts; lia|vm_compute; reflexivity].
    + unfold truncated_run. solve_ops.
    + vm_compute. reflexivity.
  - vm_compute. repeat split; reflexivity.
Qed.

(** ** Returning slices *)

Lemma chain_det m l h cs1 :
  chain m l h cs1 -> forall cs2, chain m l h cs2 -> cs1 = cs2.
Proof.
  induction 1 as [|h cs Hne Hc IH]; intros cs2 H2; inversion H2; subst;
    try congruence.
  f_equal. apply IH. assumption.
Qed.

Lemma chain_from_member m l h cs x :
  chain m l h cs -> x ∈ cs ->
  exists cs', chain m l x cs' /\ (length cs' <= length cs)%nat.
Proof.
  induction 1 as [|h cs Hne Hc IH]; intros Hx.
  - apply list_elem_of_singleton in Hx as ->. exists [l]. split; [constructor|lia].
  - apply elem_of_cons in Hx as [->|Hx].
    + exists (h :: cs). split; [constructor; assumption|lia].
    + destruct (IH Hx) as (cs' & ? & ?). exists cs'. split; [assumption|cbn; lia].
Qed.

(** The walk visits no slice twice. *)
Lemma chain_NoDup m l h cs : chain m l h cs -> NoDup cs.
Proof.
  induction 1 as [|h cs Hne Hc IH].
  - apply NoDup_singleton.
  - constructor; [|assumption]. intros Hin.
    destruct (chain_from_member _ _ _ _ _ Hc Hin) as (cs' & Hc' & Hlen).
    assert (cs' = h :: cs)
      by (eapply chain_det; [exact Hc'|constructor; assumption]).
    subst cs'. cbn in Hlen. lia.
Qed.

Lemma chain_members m l h cs x :
  1 <= aligned_size (wheel m) <= MAX_ALIGNED_SIZE -> is_u32 h ->
  chain m l h cs -> x ∈ cs -> is_u32 x.
Proof.
  intros Hs Hh Hc. revert Hh. induction Hc as [|h cs Hne Hc IH]; intros Hh Hx.
  - apply list_elem_of_singleton in Hx as ->. assumption.
  - apply elem_of_cons in Hx as [->|Hx]; [assumption|]. apply IH; [|assumption].
    pose proof (next_head_range m h ltac:(lia)). unfold_consts. lia.
Qed.

Lemma chain_length m l h cs :
  1 <= aligned_size (wheel m) <= MAX_ALIGNED_SIZE -> is_u32 h ->
  chain m l h cs -> Z.of_nat (length cs) <= 2 ^ 32.
Proof.
  intros Hs Hh Hc.
  assert (Hsub : cs ⊆+ seqZ 0 (2 ^ 32)).
  { apply NoDup_submseteq; [eapply chain_NoDup; eassumption|].
    intros x Hx. apply elem_of_seqZ.
    pose proof (chain_members _ _ _ _ _ Hs Hh Hc Hx). unfold_consts. lia. }
  apply submseteq_length in Hsub. rewrite length_seqZ in Hsub. lia.
Qed.

Lemma chain_same m m' l h cs :
  aligned_size (wheel m') = aligned_size (wheel m) ->
  (forall o, units m' o = units m o) ->
  chain m l h cs -> chain m' l h cs.
Proof.
  intros Ea Eu. induction 1 as [|h cs Hne Hc IH]; constructor; [assumption|].
  unfold next_head in *. rewrite Ea, Eu. assumption.
Qed.

Lemma prefix_after_length m cs :
  (length (returned_prefix m cs) <= length cs)%nat.
Proof.
  induction cs as [|o cs IH]; cbn; [lia|]. destruct (is_returned m o); cbn; lia.
Qed.

Lemma return_loop_empty fuel r m :
  head (head_last (wheel m)) = WHL_INVALID_OFFSET ->
  return_loop (S fuel) r m = Some (r, m).
Proof.
  intros E. cbn [return_loop]. cbv zeta. rewrite E, Z.eqb_refl. reflexivity.
Qed.

Lemma return_loop_step fuel r m :
  head (head_last (wheel m)) <> WHL_INVALID_OFFSET ->
  return_loop (S fuel) r m
  = let h := head (head_last (wheel m)) in
    if is_returned m h then
      return_loop fuel (u64 (r + 1))
        (if h =? last (head_last (wheel m))
         then perform (St_head_last whl_invalid_offset_pair) m
         else perform (St_head (next_head m h)) m)
    else Some (r, m).
Proof.
  intros E. cbn [return_loop]. cbv zeta.
  rewrite (proj2 (Z.eqb_neq _ _) E), head_valid by assumption. cbn [negb andb].
  unfold is_returned. destruct (_ =? WHL_SLICE_RETURNED); [|reflexivity].
  rewrite reclaim_head_once. reflexivity.
Qed.

Lemma is_returned_same m m' o :
  slices m' = slices m -> is_returned m' o = is_returned m o.
Proof. intros E. unfold is_returned, slice_at. rewrite E. reflexivity. Qed.

Lemma next_head_same m m' o :
  slices m' = slices m -> aligned_size (wheel m') = aligned_size (wheel m) ->
  next_head m' o = next_head m o.
Proof. intros E Ea. unfold next_head, units, slice_at. rewrite E, Ea. reflexivity. Qed.

Lemma u64_succ r n : u64 (u64 (r + 1) + n) = u64 (r + (1 + n)).
Proof. unfold u64. rewrite Zplus_mod_idemp_l. f_equal. lia. Qed.

(** The loop of [whl_return_slice] along the chain of a region [m0] whose
    slices it does not change. *)
Lemma return_loop_walk m0 l h cs :
  1 <= aligned_size (wheel m0) <= MAX_ALIGNED_SIZE ->
  chain m0 l h cs ->
  forall fuel r m,
    is_size_t r ->
    slices m = slices m0 ->
    aligned_size (wheel m) = aligned_size (wheel m0) ->
    head_last (wheel m) = {| head := h; last := l |} ->
    h <> WHL_INVALID_OFFSET ->
    (length cs < fuel)%nat ->
    exists m',
      return_loop fuel r m
      = Some (u64 (r + Z.of_nat (length (returned_prefix m0 cs))), m')
      /\ slices m' = slices m0
      /\ aligned_size (wheel m') = aligned_size (wheel m0)
      /\ head_last (wheel m') = pair_after l (after_returned m0 cs)
      /\ stores m' = stores m ++ map (reclaim_store m0 l) (returned_prefix m0 cs).
Proof.
  intros Hs Hc. induction Hc as [|h cs Hne Hc IH];
    intros fuel r m Hr Hsl Ha Hp Hv Hf;
    (destruct fuel as [|fuel]; [cbn in Hf; lia|]);
    rewrite return_loop_step by (rewrite Hp; exact Hv);
    cbv zeta; rewrite Hp; cbn [head last returned_prefix after_returned];
    rewrite (is_returned_same m0 m) by assumption.
  - destruct (is_returned m0 l).
    + rewrite Z.eqb_refl.
      destruct fuel as [|fuel]; [cbn in Hf; lia|].
      rewrite return_loop_empty by reflexivity.
      exists (perform (St_head_last whl_invalid_offset_pair) m).
      split; [replace (r + Z.of_nat (length [l])) with (r + 1) by (cbn; lia);
              reflexivity|].
      cbn [map]. unfold reclaim_store. rewrite decide_True by reflexivity.
      cbn [perform wheel slices stores write_mem fst snd aligned_size head_last
           pair_after map]. auto.
    + exists m. split; [cbn [length]; rewrite Z.add_0_r, u64_small by assumption; reflexivity|].
      cbn [pair_after map]. rewrite app_nil_r. auto.
  - destruct (is_returned m0 h).
    + rewrite (proj2 (Z.eqb_neq _ _) Hne).
      rewrite (next_head_same m0 m) by assumption.
      pose proof (next_head_range m0 h ltac:(lia)) as Hn.
      destruct (IH fuel (u64 (r + 1))
                  (perform (St_head (next_head m0 h)) m)) as (m' & E & ? & ? & ? & Est).
      * unfold u64. pose proof (Z.mod_pos_bound (r + 1) (2 ^ 64)). unfold_consts. lia.
      * assumption.
      * assumption.
      * cbn [perform wheel write_mem fst head_last]. rewrite Hp. reflexivity.
      * unfold_consts. lia.
      * cbn in Hf. lia.
      * exists m'. rewrite E. split.
        { cbn [length]. rewrite u64_succ. f_equal. f_equal. f_equal. lia. }
        repeat split; try assumption.
        assert (Er : reclaim_store m0 l h = St_head (next_head m0 h))
          by (unfold reclaim_store; apply decide_False; assumption).
        rewrite Est. cbn [map]. rewrite Er.
        cbn [perform stores map]. rewrite <- app_assoc. reflexivity.
    + exists m. split; [cbn [length]; rewrite Z.add_0_r, u64_small by assumption; reflexivity|].
      cbn [pair_after map]. rewrite app_nil_r. auto.
Qed.

(** The two parts of a chain: the prefix holds only [RETURNED] slices and
    what follows starts with a slice that is not. *)
Lemma returned_prefix_maximal m cs :
  cs = returned_prefix m cs ++ after_returned m cs
  /\ Forall (fun o => is_returned m o = true) (returned_prefix m cs)
  /\ match after_returned m cs with
     | [] => True
     | o :: _ => is_returned m o = false
     end.
Proof.
  induction cs as [|o cs (IH1 & IH2 & IH3)]; cbn [returned_prefix after_returned].
  - split; [reflexivity|]. split; [constructor|exact I].
  - destruct (is_returned m o) eqn:E.
    + split; [cbn; f_equal; exact IH1|]. split; [constructor; assumption|exact IH3].
    + split; [reflexivity|]. split; [constructor|exact E].
Qed.

Lemma set_state_same sl : set_state (state sl) sl = sl.
Proof. destruct sl. reflexivity. Qed.

(** Marking a slice that is already [RETURNED] changes nothing in memory. *)
Lemma mark_returned_again m a :
  state (slice_at m a) = WHL_SLICE_RETURNED ->
  slices (perform (St_state a WHL_SLICE_RETURNED) m) = slices m.
Proof.
  intros E. cbn [perform slices write_mem snd]. apply insert_id.
  unfold slice_at in *. destruct (slices m !! a) as [sl|] eqn:El; cbn in *.
  - rewrite <- E. rewrite set_state_same. reflexivity.
  - discriminate.
Qed.

(** The walk of [whl_return_slice] along the chain of live slices. *)
Lemma return_slice_walk fuel m off cs :
  header_ok m -> live_chain m cs -> (length cs < fuel)%nat ->
  let slice := __whl_at_unchecked off in
  let l := last (head_last (wheel m)) in
  let m1 := perform (St_state slice WHL_SLICE_RETURNED) m in
  state (slice_at m1 slice) = WHL_SLICE_RETURNED
  /\ if state (slice_at m slice) =? WHL_SLICE_RETURNED
     then whl_return_slice fuel m off = Some (0, m1)
          /\ wheel m1 = wheel m /\ slices m1 = slices m
     else exists m',
          whl_return_slice fuel m off
          = Some (Z.of_nat (length (returned_prefix m1 cs)), m')
          /\ slices m' = slices m1
          /\ aligned_size (wheel m') = aligned_size (wheel m)
          /\ head_last (wheel m') = pair_after l (after_returned m1 cs)
          /\ stores m'
             = stores m1 ++ map (reclaim_store m1 l) (returned_prefix m1 cs).
Proof.
  intros [Hs Hh Hl Hb] Hlive Hf. cbv zeta.
  set (slice := __whl_at_unchecked off).
  set (m1 := perform (St_state slice WHL_SLICE_RETURNED) m).
  split.
  { unfold m1. rewrite slice_at_perform_state, decide_True by reflexivity.
    reflexivity. }
  unfold whl_return_slice. cbv zeta. fold slice m1.
  destruct (Z.eqb_spec (state (slice_at m slice)) WHL_SLICE_RETURNED) as [E|E].
  { split; [reflexivity|]. split; [reflexivity|]. apply mark_returned_again. exact E. }
  destruct fuel as [|fuel]; [lia|].
  destruct Hlive as [[Hp ->]|(Hv & Hlv & Hc)].
  - exists m1. rewrite return_loop_empty by (unfold m1; cbn; rewrite Hp; reflexivity).
    cbn [returned_prefix after_returned length map pair_after].
    rewrite app_nil_r. repeat split. unfold m1. cbn. exact Hp.
  - assert (Hc1 : chain m1 (last (head_last (wheel m))) (head (head_last (wheel m))) cs).
    { eapply chain_same; [| |exact Hc]; [reflexivity|].
      intros o. apply units_perform_state. }
    destruct (return_loop_walk m1 _ _ cs Hs Hc1 (S fuel) 0 m1) as (m' & E1 & E2 & E3 & E4 & E5);
      try reflexivity; try assumption.
    { unfold_consts. lia. }
    { unfold m1. cbn [perform wheel write_mem fst]. destruct (head_last (wheel m)); reflexivity. }
    exists m'. rewrite E1. split; [|auto].
    f_equal. f_equal. rewrite Z.add_0_l. apply u64_small.
    pose proof (chain_length m _ _ cs Hs Hh Hc).
    pose proof (prefix_after_length m1 cs).
    unfold_consts. lia.
Qed.



(** ** The live slices of a well-formed wheel *)

Lemma run_chain m l a b :
  1 <= aligned_size (wheel m) <= MAX_ALIGNED_SIZE ->
  run m a b -> 0 <= a -> b < aligned_size (wheel m) ->
  (forall o, a <= o < b -> o <> l) ->
  forall cs, chain m l b cs ->
  exists cs', chain m l a cs'
              /\ Z.of_nat (length cs') <= Z.of_nat (length cs) + (b - a).
Proof.
  intros Hs Hr. induction Hr as [a | a b H1 H2 Hr IH]; intros Ha Hb Hne cs Hc.
  - exists cs. split; [assumption|lia].
  - pose proof (run_le _ _ _ Hr).
    destruct (IH ltac:(lia) Hb ltac:(intros o Ho; apply Hne; lia) cs Hc) as (cs' & Hc' & Hlen).
    exists (a :: cs'). split.
    + constructor; [apply Hne; lia|].
      unfold next_head. rewrite u32_small by (unfold_consts; lia).
      rewrite Z.mod_small by lia. assumption.
    + cbn [length]. lia.
Qed.

(** A well-formed wheel has a chain of live slices, of at most
    [aligned_size] slices. *)
Lemma wheel_ok_live_chain m :
  wheel_ok m ->
  exists cs, live_chain m cs /\ Z.of_nat (length cs) <= aligned_size (wheel m).
Proof.
  intros [Hs [Hp|Hc]].
  - exists []. split; [left; auto|cbn; lia].
  - destruct (chain_ok_valid m Hs Hc) as [Hnp _].
    pose proof (chain_ok_bounds m Hs Hc) as (Hh & Hl & Hu & He & Hw). cbv zeta in *.
    destruct Hc as (_ & _ & _ & Hc).
    set (h := head (head_last (wheel m))) in *.
    set (l := last (head_last (wheel m))) in *.
    assert (Hvalid : h <> WHL_INVALID_OFFSET /\ l <> WHL_INVALID_OFFSET)
      by (unfold_consts; lia).
    destruct Hc as [(Hle & Hr & _)|(Hlt & (j & Hj & Hju & Hje) & Hr & _)].
    + destruct (run_chain m l h l Hs Hr ltac:(lia) ltac:(lia) ltac:(intros; lia)
                  [l] (chain_last m l)) as (cs & Hc & Hlen).
      exists cs. split; [right; tauto|]. cbn in Hlen. lia.
    + pose proof (run_le _ _ _ Hj).
      destruct (run_chain m l 0 l Hs Hr ltac:(lia) ltac:(lia) ltac:(intros; lia)
                  [l] (chain_last m l)) as (cs0 & Hc0 & Hlen0).
      assert (Hcj : chain m l j (j :: cs0)).
      { constructor; [lia|]. unfold next_head.
        rewrite u32_small by (unfold_consts; lia).
        rewrite Hje, Z.mod_same by lia. assumption. }
      destruct (run_chain m l h j Hs Hj ltac:(lia) ltac:(lia) ltac:(intros; lia)
                  _ Hcj) as (cs & Hc & Hlen).
      exists cs. split; [right; tauto|]. cbn in Hlen, Hlen0. lia.
Qed.

(** [whl_return_slice] returns on every well-formed wheel, within
    [aligned_size + 1] passes of its loop. *)
Theorem whl_return_slice_total m off :
  reachable_fit m ->
  exists r m',
    whl_return_slice (S (Z.to_nat (aligned_size (wheel m)))) m off = Some (r, m').
Proof.
  intros Hr. pose proof (reachable_fit_wheel_ok m Hr) as Hok.
  pose proof (reachable_header_ok m (reachable_fit_reachable m Hr)) as Hhdr.
  destruct (wheel_ok_live_chain m Hok) as (cs & Hlive & Hlen).
  destruct (return_slice_walk
              (S (Z.to_nat (aligned_size (wheel m)))) m off cs Hhdr Hlive ltac:(lia))
    as (_ & H).
  destruct (_ =? WHL_SLICE_RETURNED).
  - destruct H as (E & _). eauto.
  - destruct H as (m' & E & _). eauto.
Qed.

(** ** The flags of the eventfd layer *)

Lemma atomic_write_readable v e : atomic (__whl_efd_write_readable v e) = atomic e.
Proof. unfold __whl_efd_write_readable. destruct (eventfd_write _ _); reflexivity. Qed.
Lemma atomic_write_writable v e : atomic (__whl_efd_write_writable v e) = atomic e.
Proof. unfold __whl_efd_write_writable. destruct (eventfd_write _ _); reflexivity. Qed.
Lemma atomic_read_readable e : atomic (__whl_efd_read_readable e) = atomic e.
Proof. unfold __whl_efd_read_readable. destruct (eventfd_read _); reflexivity. Qed.
Lemma atomic_read_writable e : atomic (__whl_efd_read_writable e) = atomic e.
Proof. unfold __whl_efd_read_writable. destruct (eventfd_read _); reflexivity. Qed.

(** Each call moves the two flags as the latches say. *)
Lemma efd_step_flags fuel o e ev e' :
  efd_step fuel o e = Some (ev, e') ->
  is_readable (atomic e') = readable_latch (is_readable (atomic e)) ev
  /\ is_writable (atomic e') = writable_latch (is_writable (atomic e)) ev.
Proof.
  destruct o as [size|offset| |off]; cbn [efd_step].
  - unfold whl_efd_make_slice.
    destruct (whl_make_slice fuel (spin (atomic e)) size) as [[[offset bufp] m]|];
      [|discriminate]. cbv zeta.
    destruct (offset =? WHL_INVALID_OFFSET) eqn:E; cbn; intros [= <- <-];
      cbn [readable_latch writable_latch]; rewrite E.
    + destruct (_ =? 1); rewrite ?atomic_write_writable; cbn; auto.
    + cbn; auto.
  - intros [= <- <-]. unfold whl_efd_share_slice. cbv zeta.
    destruct (_ =? 0); rewrite ?atomic_write_readable; cbn; auto.
  - unfold whl_efd_next_shared_slice.
    destruct (whl_next_shared_slice (spin (atomic e))) as [[offset out] m].
    destruct (offset =? WHL_INVALID_OFFSET) eqn:E; cbn; intros [= <- <-];
      cbn [readable_latch writable_latch]; rewrite E.
    + destruct (_ =? 1); rewrite ?atomic_read_readable; cbn; auto.
    + cbn; auto.
  - unfold whl_efd_return_slice.
    destruct (whl_return_slice fuel (spin (atomic e)) off) as [[r m]|];
      [|discriminate]. cbv zeta. cbn. intros [= <- <-].
    destruct (_ =? 0); rewrite ?atomic_read_writable; cbn; auto.
Qed.

Lemma efd_run_flags fuel ops : forall e evs e',
  efd_run fuel ops e = Some (evs, e') ->
  is_readable (atomic e') = fold_left readable_latch evs (is_readable (atomic e))
  /\ is_writable (atomic e') = fold_left writable_latch evs (is_writable (atomic e)).
Proof.
  induction ops as [|o ops IH]; intros e evs e'; cbn [efd_run].
  - intros [= <- <-]. cbn. auto.
  - destruct (efd_step fuel o e) as [[ev e1]|] eqn:E1; [|discriminate].
    destruct (efd_run fuel ops e1) as [[evs1 e2]|] eqn:E2; [|discriminate].
    intros [= <- <-]. cbn [fold_left].
    destruct (efd_step_flags _ _ _ _ _ E1) as [<- <-]. apply IH. exact E2.
Qed.

Lemma whl_atomic_init_flags a0 buf_size r a :
  whl_atomic_init a0 buf_size = (r, a) -> is_readable a = 0 /\ is_writable a = 1.
Proof.
  unfold whl_atomic_init. cbv zeta. destruct (whl_init _ buf_size) as [r' m].
  intros [= <- <-]. auto.
Qed.

(** C6, as the code has it. In every state of the eventfd layer reached from
    [whl_atomic_init] and [whl_efd_init] by calls of the four [whl_efd_]
    operations, [is_readable] is 1 exactly when a slice was shared since the
    last [whl_efd_next_shared_slice] that returned [WHL_INVALID_OFFSET] (or
    since initialization, when none did), and 0 otherwise; [is_writable] is 0
    exactly when a [whl_efd_make_slice] returned [WHL_INVALID_OFFSET] since
    the last [whl_efd_return_slice] (or since initialization), and 1
    otherwise. *)
Theorem efd_flags_are_latches a0 buf_size a fuel ops evs e :
  whl_atomic_init a0 buf_size = (0, a) ->
  efd_run fuel ops (whl_efd_init a) = Some (evs, e) ->
  is_readable (atomic e) = fold_left readable_latch evs 0
  /\ is_writable (atomic e) = fold_left writable_latch evs 1.
Proof.
  intros Hi Hr. destruct (whl_atomic_init_flags _ _ _ _ Hi) as [E1 E2].
  destruct (efd_run_flags _ _ _ _ _ Hr) as [-> ->].
  unfold whl_efd_init. rewrite atomic_write_writable. cbn [atomic].
  rewrite E1, E2. auto.
Qed.

Lemma efd_flags_are_latches_witness :
  match efd_run 2 latch_run (whl_efd_init (snd (whl_atomic_init zero_atomic 128))) with
  | Some (evs, e) =>
      is_readable (atomic e) = fold_left readable_latch evs 0
      /\ is_writable (atomic e) = fold_left writable_latch evs 1
  | None => False
  end.
Proof.
  destruct (efd_run 2 latch_run (whl_efd_init (snd (whl_atomic_init zero_atomic 128))))
    as [[evs e]|] eqn:E.
  - apply (efd_flags_are_latches zero_atomic 128
             (snd (whl_atomic_init zero_atomic 128)) 2 latch_run evs e);
      [vm_compute; reflexivity|exact E].
  - vm_compute in E. discriminate E.
Defined.

(** C6, as the specification has it, fails. After an allocation, its
    publication and the return of the slice, the wheel is empty and the next
    peek fails, yet [is_readable] is still 1: only a failed peek clears it.
    After a failed allocation and a later return, [is_writable] is 1 although
    the last attempted allocation failed: every return sets it. *)
Lemma efd_flags_counterexample :
  exists evs e,
    efd_run 2 latch_run (whl_efd_init (snd (whl_atomic_init zero_atomic 128)))
    = Some (evs, e)
    /\ fst (whl_atomic_init zero_atomic 128) = 0
    /\ is_readable (atomic e) = 1
    /\ fst (fst (whl_efd_next_shared_slice e)) = WHL_INVALID_OFFSET
    /\ is_writable (atomic e) = 1
    /\ last_allocation_failed evs = true
    /\ ~ spec_flags evs e.
Proof.
  eexists. eexists. split; [vm_compute; reflexivity|].
  split; [reflexivity|]. split; [reflexivity|].
  split; [vm_compute; reflexivity|]. split; [reflexivity|].
  split; [vm_compute; reflexivity|].
  intros [[Hr _] _]. apply Hr; [reflexivity|]. vm_compute. reflexivity.
Qed.

(** ** Sample wheels *)

Lemma sample_wheel_fit buf_size ops m :
  is_size_t buf_size -> fst (whl_init zero_shm buf_size) = 0 ->
  Forall (fun o => op_typed o /\ op_fits o) ops ->
  run_ops 2 ops (snd (whl_init zero_shm buf_size)) = Some m ->
  reachable_fit m.
Proof.
  intros Hb Hi Hops Hrun.
  apply (run_ops_reachable_fit 2 ops (snd (whl_init zero_shm buf_size))); try assumption.
  apply (fit_init zero_shm buf_size); [assumption|].
  destruct (whl_init zero_shm buf_size) as [r m0]. cbn in Hi. subst r. reflexivity.
Qed.

Lemma wrap_wheel_fit : reachable_fit (sample_wheel 256 wrap_run).
Proof.
  apply (sample_wheel_fit 256 wrap_run);
    [vm_compute; intuition discriminate|reflexivity| |vm_compute; reflexivity].
  unfold wrap_run. solve_ops.
Qed.

Lemma two_slices_wheel_fit : reachable_fit (sample_wheel 256 two_slices_run).
Proof.
  apply (sample_wheel_fit 256 two_slices_run);
    [vm_compute; intuition discriminate|reflexivity| |vm_compute; reflexivity].
  unfold two_slices_run. solve_ops.
Qed.

Lemma wrap_backfills_before_publishing_witness :
  let m := sample_wheel 256 wrap_run in
  let l := last (head_last (wheel m)) in
  match whl_make_slice 1 m 16 with
  | Some (offset, bufp, m') =>
      offset = 0
      /\ stores m'
         = stores m
           ++ [ St_units (__whl_at_unchecked l) (u32 (aligned_size (wheel m) - l));
                St_slice (__whl_at_unchecked 0) (new_slice 16);
                St_head_last {| head := head (head_last (wheel m)); last := 0 |} ]
  | None => False
  end.
Proof.
  cbv zeta.
  destruct (whl_make_slice 1 (sample_wheel 256 wrap_run) 16)
    as [[[offset bufp] m']|] eqn:E; [|vm_compute in E; discriminate E].
  assert (offset = 0) as -> by (vm_compute in E; congruence).
  pose proof (wrap_backfills_before_publishing 1 (sample_wheel 256 wrap_run) 16 bufp m'
                (reachable_fit_reachable _ wrap_wheel_fit)
                ltac:(vm_compute; discriminate) E) as H.
  cbv zeta in H. tauto.
Defined.


(** ** The layout of the headers *)

Section LayoutFacts.

Import Layout.
Open Scope string_scope.

(** The static assertions of the source hold of the declared types. *)
Lemma static_assertions :
  sizeof whl_slice_t = 16
  /\ sizeof whl_spin_t <= WHL_ALIGN
  /\ sizeof whl_atomic_t <= WHL_ALIGN.
Proof. vm_compute. intuition discriminate. Qed.

(** C8, as the code has it. [aligned_size] is at byte offset 0. The union
    of [head], [last] and [head_last] holds a 64-bit member, so it is
    aligned to 8 bytes: [head] is at offset 8 and [last] at offset 12, and
    the two together are the 64-bit atomic [head_last] at offset 8. The
    header is 16 bytes long, and in the eventfd layout [is_readable] and
    [is_writable] are the bytes at offsets 16 and 17. *)
Theorem header_layout :
  offsetof whl_spin_t "aligned_size" = Some 0
  /\ offsetof whl_spin_t "head" = Some 8
  /\ offsetof whl_spin_t "last" = Some 12
  /\ offsetof whl_spin_t "head_last" = Some 8
  /\ sizeof whl_offset_pair_t = 8 /\ alignof whl_offset_pair_t = 8
  /\ sizeof whl_spin_t = 16
  /\ offsetof whl_atomic_t "spin" = Some 0
  /\ offsetof whl_atomic_t "is_readable" = Some 16
  /\ offsetof whl_atomic_t "is_writable" = Some 17.
Proof. vm_compute. intuition reflexivity. Qed.

(** C8, as the specification has it, fails: [head] is not at byte offset 4,
    where a 64-bit atomic would be misaligned. *)
Lemma spec_layout_counterexample :
  offsetof whl_spin_t "head" = Some 8
  /\ offsetof whl_spin_t "last" = Some 12
  /\ offsetof whl_atomic_t "is_readable" = Some 16
  /\ offsetof whl_atomic_t "is_writable" = Some 17
  /\ ~ spec_layout.
Proof.
  repeat (split; [vm_compute; reflexivity|]).
  intros (_ & _ & H & _). vm_compute in H. discriminate H.
Qed.

End LayoutFacts.

(** ** Receiving descriptors *)

Section ScmFacts.

Import Scm.

Variables (SOL_SOCKET SCM_RIGHTS EINTR : Z).

Lemma lacks_rights_test control :
  lacks_rights SOL_SOCKET SCM_RIGHTS control
  <-> match control with
      | None => true
      | Some cmsg =>
          negb (cmsg_level cmsg =? SOL_SOCKET) || negb (cmsg_type cmsg =? SCM_RIGHTS)
      end = true.
Proof.
  destruct control as [cmsg|]; cbn [lacks_rights]; [|tauto].
  rewrite orb_true_iff, !negb_true_iff, !Z.eqb_neq. tauto.
Qed.

Lemma int32_small z : 0 <= z <= INT_MAX -> int32 z = z.
Proof.
  unfold int32. unfold_consts. intros H. rewrite Z.mod_small by lia. lia.
Qed.

(** When the loop ends with a datagram, [errno] is as it was or holds
    [EINTR]. *)
Lemma recvmsg_errno_data script : forall en bytes control,
  recvmsg_retry EINTR script = Some (Recv_data bytes control) ->
  recvmsg_errno EINTR en script = en
  \/ recvmsg_errno EINTR en script = Some EINTR.
Proof.
  induction script as [|[e|b ctl] script IH]; intros en bytes control;
    cbn [recvmsg_retry recvmsg_errno]; [discriminate| |auto].
  destruct (Z.eqb_spec e EINTR) as [->|]; [|discriminate].
  intros H. destruct (IH (Some EINTR) _ _ H) as [-> | ->]; auto.
Qed.

(** The branch taken for a datagram without rights. *)
Lemma recv_without_rights script c bytes control :
  recvmsg_retry EINTR script = Some (Recv_data bytes control) ->
  0 <= bytes <= INT_MAX ->
  lacks_rights SOL_SOCKET SCM_RIGHTS control ->
  recv_fds_with_data SOL_SOCKET SCM_RIGHTS EINTR script c
  = match n_outfds c with
    | None => Faulted Null_store
    | Some _ =>
        Returned bytes (recvmsg_errno EINTR None script)
          {| outfds := outfds c; n_outfds := Some 0 |} []
    end.
Proof.
  intros Hr Hb Hl. unfold recv_fds_with_data. rewrite Hr. cbv zeta.
  rewrite int32_small by assumption.
  replace (bytes <? 0) with false by (symmetry; apply Z.ltb_ge; lia).
  apply lacks_rights_test in Hl. rewrite Hl.
  rewrite u64_small by (unfold_consts; lia). reflexivity.
Qed.

(** The branch taken for a datagram with rights when the caller passes no
    count: nothing is stored and every descriptor received is closed. *)
Lemma recv_rights_null_count script c bytes cmsg :
  recvmsg_retry EINTR script = Some (Recv_data bytes (Some cmsg)) ->
  0 <= bytes <= INT_MAX ->
  ~ lacks_rights SOL_SOCKET SCM_RIGHTS (Some cmsg) ->
  n_outfds c = None ->
  recv_fds_with_data SOL_SOCKET SCM_RIGHTS EINTR script c
  = Returned bytes (recvmsg_errno EINTR None script) c (cmsg_fds cmsg).
Proof.
  intros Hr Hb Hl Hn. unfold recv_fds_with_data. rewrite Hr, Hn. cbv zeta.
  rewrite int32_small by assumption.
  replace (bytes <? 0) with false by (symmetry; apply Z.ltb_ge; lia).
  rewrite lacks_rights_test in Hl. apply not_true_is_false in Hl. rewrite Hl.
  rewrite u64_small by (unfold_consts; lia).
  assert (E : copy_fds 0 0 (outfds c) (cmsg_fds cmsg) = inr (outfds c, 0, cmsg_fds cmsg))
    by (destruct (cmsg_fds cmsg); reflexivity).
  rewrite E. destruct c as [arr n]. cbn in *. subst n. reflexivity.
Qed.

(** C9. When the datagram received carries no control message, or one whose
    level or type is not [SOL_SOCKET] / [SCM_RIGHTS], a call that passes a
    count sets it to zero, stores nothing else, closes nothing, and returns
    the byte count of the payload. The path reports no error of its own:
    [errno] is as the calls of [recvmsg] left it, untouched when none was
    interrupted and [EINTR] when one was. *)
Theorem recv_without_rights_reports_success script c bytes control n :
  recvmsg_retry EINTR script = Some (Recv_data bytes control) ->
  0 <= bytes <= INT_MAX ->
  lacks_rights SOL_SOCKET SCM_RIGHTS control ->
  n_outfds c = Some n ->
  recv_fds_with_data SOL_SOCKET SCM_RIGHTS EINTR script c
  = Returned bytes (recvmsg_errno EINTR None script)
      {| outfds := outfds c; n_outfds := Some 0 |} []
  /\ (recvmsg_errno EINTR None script = None
      \/ recvmsg_errno EINTR None script = Some EINTR).
Proof.
  intros Hr Hb Hl Hn. split.
  - rewrite (recv_without_rights _ _ _ _ Hr Hb Hl), Hn. reflexivity.
  - eapply recvmsg_errno_data. exact Hr.
Qed.

(** C10. For a datagram without rights the store of the count is not
    guarded: with a null [n_outfds] it is a store through a null pointer,
    with any other [n_outfds] it sets the caller's count to zero. The path
    for a datagram with rights reads a null [n_outfds] as a maximum of zero
    descriptors: it stores nothing and closes what it received. *)
Theorem recv_null_count_only_faults_without_rights script c bytes control :
  recvmsg_retry EINTR script = Some (Recv_data bytes control) ->
  0 <= bytes <= INT_MAX ->
  (lacks_rights SOL_SOCKET SCM_RIGHTS control ->
   (n_outfds c = None ->
    recv_fds_with_data SOL_SOCKET SCM_RIGHTS EINTR script c = Faulted Null_store)
   /\ (forall n, n_outfds c = Some n ->
       recv_fds_with_data SOL_SOCKET SCM_RIGHTS EINTR script c
       = Returned bytes (recvmsg_errno EINTR None script)
           {| outfds := outfds c; n_outfds := Some 0 |} []))
  /\ (~ lacks_rights SOL_SOCKET SCM_RIGHTS control ->
      n_outfds c = None ->
      exists cmsg,
        control = Some cmsg
        /\ recv_fds_with_data SOL_SOCKET SCM_RIGHTS EINTR script c
           = Returned bytes (recvmsg_errno EINTR None script) c (cmsg_fds cmsg)).
Proof.
  intros Hr Hb. split.
  - intros Hl. rewrite (recv_without_rights _ _ _ _ Hr Hb Hl).
    split; [intros ->; reflexivity|intros n ->; reflexivity].
  - intros Hl Hn. destruct control as [cmsg|]; [|exfalso; apply Hl; exact I].
    exists cmsg. split; [reflexivity|].
    apply recv_rights_null_count; assumption.
Qed.

End ScmFacts.

(** The constants of Linux: [SOL_SOCKET] and [SCM_RIGHTS] are 1, [EINTR] is
    4. A first [recvmsg] is interrupted; the second returns a payload of one
    byte and no control message: the call returns 1 with the count at zero,
    and [errno] still holds [EINTR]. *)
Lemma recv_without_rights_reports_success_witness :
  Scm.recv_fds_with_data 1 1 4
    [Scm.Recv_error 4; Scm.Recv_data 1 None]
    {| Scm.outfds := Some [0; 0; 0]; Scm.n_outfds := Some 3 |}
  = Scm.Returned 1 (Some 4)
      {| Scm.outfds := Some [0; 0; 0]; Scm.n_outfds := Some 0 |} []
  /\ (Scm.recvmsg_errno 4 None [Scm.Recv_error 4; Scm.Recv_data 1 None] = None
      \/ Scm.recvmsg_errno 4 None [Scm.Recv_error 4; Scm.Recv_data 1 None] = Some 4).
Proof.
  apply (recv_without_rights_reports_success 1 1 4
           [Scm.Recv_error 4; Scm.Recv_data 1 None]
           {| Scm.outfds := Some [0; 0; 0]; Scm.n_outfds := Some 3 |} 1 None 3).
  - reflexivity.
  - vm_compute. intuition discriminate.
  - exact I.
  - reflexivity.
Defined.

Lemma recv_null_count_only_faults_without_rights_witness :
  Scm.recv_fds_with_data 1 1 4 [Scm.Recv_data 1 None]
    {| Scm.outfds := None; Scm.n_outfds := None |}
  = Scm.Faulted Scm.Null_store.
Proof.
  apply (recv_null_count_only_faults_without_rights 1 1 4 [Scm.Recv_data 1 None]
           {| Scm.outfds := None; Scm.n_outfds := None |} 1 None);
    [reflexivity|vm_compute; intuition discriminate|exact I|reflexivity].
Defined.

(** ** The scenarios of the specification *)

(** A buffer of 128 bytes: allocate 16 bytes, publish, peek, return. The peek
    yields the slice at offset 0 with its 16 bytes; after the return the pair
    is invalid. *)
Example scenario_round_trip :
  let m0 := snd (whl_init zero_shm 128) in
  exists m1 m2,
    whl_make_slice 1 m0 16 = Some (0, Some 80, m1)
    /\ fst (whl_next_shared_slice (whl_share_slice m1 0)) = (0, Some (80, 16))
    /\ whl_return_slice 2 (whl_share_slice m1 0) 0 = Some (1, m2)
    /\ head_last (wheel m2) = whl_invalid_offset_pair.
Proof.
  cbv zeta. eexists. eexists.
  split; [vm_compute; reflexivity|].
  split; [vm_compute; reflexivity|].
  split; vm_compute; reflexivity.
Qed.

(** A buffer of 256 bytes holds three units. The fourth allocation of 16
    bytes returns [WHL_INVALID_OFFSET] and clears [is_writable]; returning
    the first slice sets it again, and the next allocation is placed at
    offset 0. *)
Example scenario_full_then_return :
  match efd_run 4 full_run (sample_efd 256) with
  | Some (evs, e) =>
      evs = [Ev_make 0; Ev_share; Ev_make 1; Ev_share; Ev_make 2; Ev_share;
             Ev_make WHL_INVALID_OFFSET]
      /\ is_writable (atomic e) = 0
      /\ match efd_run 4 [Return_slice 0; Make_slice 16] e with
         | Some (evs', e') =>
             evs' = [Ev_return 1; Ev_make 0] /\ is_writable (atomic e') = 1
         | None => False
         end
  | None => False
  end.
Proof. vm_compute. repeat split; reflexivity. Qed.

(** ** Further properties of the wheel *)

(** In every region reached from a successful [whl_init] by requests whose
    footprint fits 32 bits, the live slices lie end to end from [head] to
    [last], wrapping at most once, with every slice of at least one unit and
    inside the wheel. *)
Theorem live_slices_contiguous m : reachable_fit m -> wheel_ok m.
Proof. apply reachable_fit_wheel_ok. Qed.

Lemma live_slices_contiguous_witness : wheel_ok (sample_wheel 256 wrap_run).
Proof. apply (live_slices_contiguous (sample_wheel 256 wrap_run) wrap_wheel_fit). Defined.

Lemma whl_return_slice_total_witness :
  let m := sample_wheel 256 two_slices_run in
  exists r m',
    whl_return_slice (S (Z.to_nat (aligned_size (wheel m)))) m 0 = Some (r, m').
Proof.
  apply (whl_return_slice_total (sample_wheel 256 two_slices_run) 0 two_slices_wheel_fit).
Defined.

(** ** [whl_align] *)

(** [whl_align] returns the least multiple of 64 that is not below [size], as
    long as that multiple is a [size_t]; above [SIZE_MAX - 63] the sum wraps
    and it returns 0. Rounding twice is rounding once. *)
Theorem whl_align_rounds_up size :
  is_size_t size ->
  (size <= SIZE_MAX - 63 ->
   whl_align size mod WHL_ALIGN = 0
   /\ size <= whl_align size < size + WHL_ALIGN
   /\ whl_align (whl_align size) = whl_align size)
  /\ (SIZE_MAX - 63 < size -> whl_align size = 0).
Proof.
  intros Hs. unfold whl_align. unfold_consts.
  assert (H0 : 0 <= size) by lia.
  pose proof (padded_footprint size H0) as E.
  set (n := (size + 63) / 64) in *.
  assert (Hn : 64 * n <= size + 63 < 64 * n + 64).
  { unfold n. pose proof (Z.div_mod (size + 63) 64 ltac:(lia)).
    pose proof (Z.mod_pos_bound (size + 63) 64 ltac:(lia)). lia. }
  rewrite E. split.
  - intros Hle. rewrite u64_small by (unfold_consts; lia).
    split; [rewrite Z.mul_comm; apply Z.mod_mul; lia|]. split; [lia|].
    assert (E2 : 64 * n + __whl_alignment_padding (64 * n) = 64 * n).
    { unfold __whl_alignment_padding, WHL_ALIGN.
      rewrite (Z.mul_comm 64 n), Z.mod_mul by lia.
      change ((64 - 0) mod 64) with 0. lia. }
    rewrite E2. apply u64_small. unfold_consts. lia.
  - intros Hgt. assert (n = 2 ^ 58) as -> by lia. reflexivity.
Qed.

Lemma whl_align_rounds_up_witness :
  whl_align 100 mod WHL_ALIGN = 0
  /\ 100 <= whl_align 100 < 100 + WHL_ALIGN
  /\ whl_align (whl_align 100) = whl_align 100.
Proof.
  apply (whl_align_rounds_up 100); vm_compute; intuition discriminate.
Defined.

(** ** Where the live slices lie *)

Lemma run_chain_app m l a b :
  1 <= aligned_size (wheel m) <= MAX_ALIGNED_SIZE ->
  run m a b -> 0 <= a -> b < aligned_size (wheel m) ->
  (forall o, a <= o < b -> o <> l) ->
  forall cs, chain m l b cs ->
  exists pre,
    chain m l a (pre ++ cs)
    /\ Forall (fun c => a <= c /\ 1 <= units m c /\ c + units m c <= b) pre.
Proof.
  intros Hs Hr. induction Hr as [a | a b H1 H2 Hr IH]; intros Ha Hb Hne cs Hc.
  - exists []. split; [assumption|constructor].
  - pose proof (run_le _ _ _ Hr).
    destruct (IH ltac:(lia) Hb ltac:(intros o Ho; apply Hne; lia) cs Hc)
      as (pre & Hc' & Hall).
    exists (a :: pre). split.
    + cbn [app]. constructor; [apply Hne; lia|].
      unfold next_head. rewrite u32_small by (unfold_consts; lia).
      rewrite Z.mod_small by lia. assumption.
    + constructor; [lia|]. eapply Forall_impl; [exact Hall|].
      cbn. intros c Hcc. lia.
Qed.

(** Every live slice of a well-formed wheel has at least one unit and lies in
    the stretch from [head] to the end of the last slice, or, on a wrapped
    wheel, from [head] to the end of the wheel or from offset 0 to the end of
    the last slice. *)
Lemma wheel_ok_members m cs :
  wheel_ok m -> live_chain m cs ->
  head_last (wheel m) <> whl_invalid_offset_pair ->
  let h := head (head_last (wheel m)) in
  let l := last (head_last (wheel m)) in
  let le := l + units m l in
  Forall (fun c =>
            0 <= c /\ 1 <= units m c
            /\ (h <= l /\ h <= c /\ c + units m c <= le
                \/ l < h /\ (h <= c /\ c + units m c <= aligned_size (wheel m)
                             \/ c + units m c <= le))) cs.
Proof.
  intros [Hs [Hp|Hc]] Hlive Hnp; [congruence|]. cbv zeta.
  destruct Hlive as [[Hp _]|(_ & _ & Hch)]; [congruence|].
  pose proof (chain_ok_bounds m Hs Hc) as (Hh & Hl & Hu & He & Hw). cbv zeta in *.
  destruct Hc as (_ & _ & _ & Hc).
  set (h := head (head_last (wheel m))) in *.
  set (l := last (head_last (wheel m))) in *.
  destruct Hc as [(Hle & Hr & _)|(Hlt & (j & Hj & Hju & Hje) & Hr & _)].
  - destruct (run_chain_app m l h l Hs Hr ltac:(lia) ltac:(lia) ltac:(intros; lia)
                [l] (chain_last m l)) as (pre & Hc' & Hall).
    rewrite (chain_det _ _ _ _ Hch _ Hc').
    apply Forall_app. split.
    + eapply Forall_impl; [exact Hall|]. cbn. intros c Hcc. lia.
    + repeat constructor; lia.
  - pose proof (run_le _ _ _ Hj).
    destruct (run_chain_app m l 0 l Hs Hr ltac:(lia) ltac:(lia) ltac:(intros; lia)
                [l] (chain_last m l)) as (pre0 & Hc0 & Hall0).
    assert (Hcj : chain m l j (j :: pre0 ++ [l])).
    { constructor; [lia|]. unfold next_head.
      rewrite u32_small by (unfold_consts; lia).
      rewrite Hje, Z.mod_same by lia. assumption. }
    destruct (run_chain_app m l h j Hs Hj ltac:(lia) ltac:(lia) ltac:(intros; lia)
                _ Hcj) as (pre1 & Hc1 & Hall1).
    rewrite (chain_det _ _ _ _ Hch _ Hc1).
    apply Forall_app. split.
    + eapply Forall_impl; [exact Hall1|]. cbn. intros c Hcc. lia.
    + constructor; [lia|]. apply Forall_app. split.
      * eapply Forall_impl; [exact Hall0|]. cbn. intros c Hcc. lia.
      * repeat constructor; lia.
Qed.

(** ** What a successful allocation does *)

(** The three ways a request of at least one unit is placed on a well-formed
    wheel, each with the region it leaves. *)
Lemma make_slice_cases fuel m size offset bufp m' :
  wheel_ok m -> 1 <= slice_units size ->
  whl_make_slice fuel m size = Some (offset, bufp, m') ->
  offset <> WHL_INVALID_OFFSET ->
  let need := slice_units size in
  let h := head (head_last (wheel m)) in
  let l := last (head_last (wheel m)) in
  let le := l + units m l in
  bufp = Some (__whl_slice_buf (__whl_at_unchecked offset))
  /\ (head_last (wheel m) = whl_invalid_offset_pair
      /\ offset = 0 /\ need <= aligned_size (wheel m)
      /\ m' = perform (St_head_last {| head := 0; last := 0 |})
                (perform (St_slice (__whl_at_unchecked 0) (new_slice size)) m)
      \/ head_last (wheel m) <> whl_invalid_offset_pair
         /\ offset = le
         /\ (l < h -> le + need <= h)
         /\ (h <= l -> le + need <= aligned_size (wheel m))
         /\ m' = perform (St_head_last {| head := h; last := le |})
                   (perform (St_slice (__whl_at_unchecked le) (new_slice size)) m)
      \/ head_last (wheel m) <> whl_invalid_offset_pair
         /\ h <= l /\ offset = 0 /\ need <= h
         /\ m' = perform (St_head_last {| head := h; last := 0 |})
                   (perform (St_slice (__whl_at_unchecked 0) (new_slice size))
                      (perform (St_units (__whl_at_unchecked l)
                                  (aligned_size (wheel m) - l)) m))).
Proof.
  intros Hok Hneed. destruct fuel as [|fuel].
  { unfold whl_make_slice. destruct (_ <? size); [intros [= <- <- <-]; congruence|].
    cbv zeta. destruct (_ =? WHL_INVALID_OFFSET); [intros [= <- <- <-]; congruence|].
    discriminate. }
  rewrite whl_make_slice_once. destruct (_ <? size); [intros [= <- <- <-]; congruence|].
  cbv zeta. rewrite next_offset_policy by assumption.
  destruct (Z.eqb_spec (spec_offset m (slice_units size)) WHL_INVALID_OFFSET) as [|Hne];
    [intros [= <- <- <-]; congruence|].
  intros [= <- <- <-] _. split; [reflexivity|]. revert Hne.
  set (need := slice_units size) in *.
  destruct Hok as [Hs [Hp|Hc]].
  - unfold spec_offset. cbv zeta. rewrite decide_True by assumption.
    destruct (Z.leb_spec need (aligned_size (wheel m))); [|congruence]. intros _.
    rewrite backfilled_empty by (rewrite Hp; reflexivity).
    unfold new_pair. rewrite Hp.
    change (pair_u64 _ =? WHL_INVALID_OFFSET_PAIR) with true. cbv iota.
    left. auto.
  - destruct (chain_ok_valid m Hs Hc) as [Hnp Hnb].
    pose proof (chain_ok_bounds m Hs Hc) as (Hh & Hl & Hu & He & Hw). cbv zeta in *.
    unfold spec_offset. cbv zeta. rewrite decide_False by assumption.
    unfold new_pair. rewrite Hnb.
    set (h := head (head_last (wheel m))) in *.
    set (l := last (head_last (wheel m))) in *.
    set (le := l + units m l) in *.
    assert (Hlv : l <> WHL_INVALID_OFFSET) by (unfold_consts; lia).
    destruct (Z.ltb_spec l h) as [Hlt|Hge].
    + destruct (Z.leb_spec need (h - le)); [|congruence]. intros _.
      rewrite backfilled_append by lia. right. left.
      repeat split; try assumption; lia.
    + destruct (Z.leb_spec need (aligned_size (wheel m) - le)).
      * intros _. rewrite backfilled_append by lia. right. left.
        repeat split; try assumption; lia.
      * destruct (Z.leb_spec need h); [|congruence]. intros _.
        rewrite backfilled_wrap by assumption. fold l.
        rewrite u32_small by (unfold_consts; lia).
        right. right. repeat split; try assumption.
Qed.

Lemma spec_need_covers size :
  0 <= size -> sizeof_whl_slice_t + size <= WHL_ALIGN * spec_need size.
Proof.
  intros H. unfold spec_need. unfold_consts.
  pose proof (Z.div_mod (16 + size + (64 - 1)) 64 ltac:(lia)).
  pose proof (Z.mod_pos_bound (16 + size + (64 - 1)) 64 ltac:(lia)). lia.
Qed.

(** Bounds of a successful allocation against the live slices. *)
Lemma make_slice_clear fuel m size offset bufp m' cs :
  wheel_ok m -> live_chain m cs ->
  is_size_t size -> spec_need size <= UINT32_MAX ->
  whl_make_slice fuel m size = Some (offset, bufp, m') ->
  offset <> WHL_INVALID_OFFSET ->
  let need := spec_need size in
  0 <= offset /\ 1 <= need
  /\ offset + need <= aligned_size (wheel m)
  /\ bufp = Some (WHL_ALIGN + WHL_ALIGN * offset + sizeof_whl_slice_t)
  /\ sizeof_whl_slice_t + size <= WHL_ALIGN * need
  /\ Forall (fun c => c + units m c <= offset \/ offset + need <= c) cs.
Proof.
  intros Hok Hlive Hsz Hfit Hmk Hv. cbv zeta.
  destruct (slice_units_fits size) as [E Hn1]; [unfold_consts; lia|assumption|].
  assert (Hn2 : 1 <= slice_units size) by lia.
  destruct (make_slice_cases _ _ _ _ _ _ Hok Hn2 Hmk Hv) as [-> Hcases].
  cbv zeta in Hcases. rewrite E in Hcases.
  pose proof (spec_need_covers size ltac:(unfold_consts; lia)) as Hcov.
  assert (Hs : 1 <= aligned_size (wheel m) <= MAX_ALIGNED_SIZE) by (destruct Hok; assumption).
  destruct Hcases as [(Hp & -> & Hle & _)|[(Hnp & -> & Hw & Hu & _)|(Hnp & Hhl & -> & Hle & _)]].
  - destruct Hlive as [[_ ->]|(Hh & _)]; [|rewrite Hp in Hh; cbn in Hh; congruence].
    split; [lia|]. split; [lia|]. split; [lia|]. split.
    { unfold __whl_slice_buf. rewrite at_unchecked_small by lia. reflexivity. }
    split; [assumption|constructor].
  - pose proof (wheel_ok_members m cs Hok Hlive Hnp) as Hm. cbv zeta in Hm.
    destruct Hok as [_ [Hp|Hc]]; [congruence|].
    pose proof (chain_ok_bounds m Hs Hc) as (Hh & Hl & Hul & He & Hwr). cbv zeta in *.
    split; [lia|]. split; [lia|]. split; [lia|]. split.
    { unfold __whl_slice_buf. rewrite at_unchecked_small by (unfold_consts; lia).
      reflexivity. }
    split; [assumption|].
    eapply Forall_impl; [exact Hm|]. cbn. intros c Hcc. lia.
  - pose proof (wheel_ok_members m cs Hok Hlive Hnp) as Hm. cbv zeta in Hm.
    destruct Hok as [_ [Hp|Hc]]; [congruence|].
    pose proof (chain_ok_bounds m Hs Hc) as (Hh & Hl & Hul & He & Hwr). cbv zeta in *.
    split; [lia|]. split; [lia|]. split; [lia|]. split.
    { unfold __whl_slice_buf. rewrite at_unchecked_small by lia. reflexivity. }
    split; [assumption|].
    eapply Forall_impl; [exact Hm|]. cbn. intros c Hcc. lia.
Qed.

(** A successful allocation stays inside the wheel and clear of every live
    slice, and the buffer it hands out holds the requested bytes inside the
    units it reserves. *)
Theorem make_slice_in_bounds_and_free fuel m size offset bufp m' cs :
  wheel_ok m -> live_chain m cs ->
  is_size_t size -> spec_need size <= UINT32_MAX ->
  whl_make_slice fuel m size = Some (offset, bufp, m') ->
  offset <> WHL_INVALID_OFFSET ->
  let need := spec_need size in
  0 <= offset /\ 1 <= need
  /\ offset + need <= aligned_size (wheel m)
  /\ bufp = Some (WHL_ALIGN + WHL_ALIGN * offset + sizeof_whl_slice_t)
  /\ sizeof_whl_slice_t + size <= WHL_ALIGN * need
  /\ Forall (fun c => c + units m c <= offset \/ offset + need <= c) cs.
Proof. apply make_slice_clear. Qed.

Lemma chain_first m l h cs : chain m l h cs -> exists rest, cs = h :: rest.
Proof. destruct 1; eauto. Qed.

Lemma chain_snoc m m' l h cs o :
  aligned_size (wheel m') = aligned_size (wheel m) ->
  chain m l h cs ->
  (forall c, c ∈ cs -> c <> o) ->
  (forall c, c ∈ cs -> c <> l -> units m' c = units m c) ->
  next_head m' l = o ->
  chain m' o h (cs ++ [o]).
Proof.
  intros Ea Hc. induction Hc as [|h cs Hne Hc IH]; intros Hno Hu Hn.
  - cbn [app]. constructor; [apply Hno; left|]. rewrite Hn. constructor.
  - cbn [app]. constructor; [apply Hno; left|].
    assert (E : next_head m' h = next_head m h).
    { unfold next_head. rewrite Ea, Hu; [reflexivity|left|assumption]. }
    rewrite E. apply IH.
    + intros c Hin. apply Hno. right. assumption.
    + intros c Hin. apply Hu. right. assumption.
    + assumption.
Qed.

(** The chain and the slices after a successful allocation. *)
Lemma make_slice_snoc fuel m size offset bufp m' cs :
  wheel_ok m -> live_chain m cs ->
  is_size_t size -> spec_need size <= UINT32_MAX ->
  whl_make_slice fuel m size = Some (offset, bufp, m') ->
  offset <> WHL_INVALID_OFFSET ->
  live_chain m' (cs ++ [offset])
  /\ slice_at m' (__whl_at_unchecked offset)
     = {| trailing_user_size := size;
          aligned_size_in_wheel := spec_need size;
          state := WHL_SLICE_UNINIT |}
  /\ Forall (fun c =>
               state (slice_at m' (__whl_at_unchecked c))
               = state (slice_at m (__whl_at_unchecked c))
               /\ trailing_user_size (slice_at m' (__whl_at_unchecked c))
                  = trailing_user_size (slice_at m (__whl_at_unchecked c))) cs.
Proof.
  intros Hok Hlive Hsz Hfit Hmk Hv.
  pose proof (make_slice_clear _ _ _ _ _ _ _ Hok Hlive Hsz Hfit Hmk Hv) as Hclear.
  cbv zeta in Hclear. destruct Hclear as (Ho0 & Hn1 & HoA & _ & _ & Hfree).
  destruct (slice_units_fits size) as [E _]; [unfold_consts; lia|assumption|].
  assert (Hn2 : 1 <= slice_units size) by lia.
  destruct (make_slice_cases _ _ _ _ _ _ Hok Hn2 Hmk Hv) as [_ Hcases].
  cbv zeta in Hcases. rewrite E in Hcases.
  assert (Hs : 1 <= aligned_size (wheel m) <= MAX_ALIGNED_SIZE) by (destruct Hok; assumption).
  assert (Hnew : new_slice size
                 = {| trailing_user_size := size;
                      aligned_size_in_wheel := spec_need size;
                      state := WHL_SLICE_UNINIT |})
    by (unfold new_slice; rewrite E; reflexivity).
  destruct Hcases as [(Hp & -> & Hle & ->)|[(Hnp & Eo & Hw & Hu & ->)|(Hnp & Hhl & -> & Hle & ->)]].
  - destruct Hlive as [[_ ->]|(Hh & _)]; [|rewrite Hp in Hh; cbn in Hh; congruence].
    split; [|split; [|constructor]].
    + right. cbn. split; [unfold_consts; lia|]. split; [unfold_consts; lia|].
      constructor.
    + rewrite slice_at_perform_head_last, slice_at_perform_slice,
        decide_True by reflexivity. exact Hnew.
  - pose proof (wheel_ok_members m cs Hok Hlive Hnp) as Hm. cbv zeta in Hm.
    destruct Hlive as [[Hp _]|(Hhv & Hlv & Hch)]; [congruence|].
    destruct Hok as [_ [Hp|Hc]]; [congruence|].
    pose proof (chain_ok_bounds m Hs Hc) as (Hh & Hl & Hul & He & Hwr). cbv zeta in *.
    rewrite Forall_forall in Hm, Hfree.
    assert (Hrange : forall c, c ∈ cs -> 0 <= c < 2 ^ 26 /\ c <> offset).
    { intros c Hin. specialize (Hm c Hin). specialize (Hfree c Hin).
      unfold_consts. lia. }
    rewrite <- Eo. split; [|split].
    + right. cbn [perform wheel write_mem fst head_last head last].
      split; [assumption|]. split; [assumption|].
      apply (chain_snoc m _ (last (head_last (wheel m)))); [reflexivity|exact Hch| | |].
      * intros c Hin. apply Hrange. assumption.
      * intros c Hin _. destruct (Hrange c Hin).
        rewrite units_perform_head_last, units_perform_slice by (unfold_consts; lia).
        apply decide_False. congruence.
      * unfold next_head.
        rewrite units_perform_head_last, units_perform_slice by (unfold_consts; lia).
        rewrite decide_False by lia.
        cbn [perform wheel write_mem fst aligned_size].
        rewrite u32_small by (unfold_consts; lia).
        rewrite Z.mod_small by lia. symmetry. exact Eo.
    + rewrite slice_at_perform_head_last, slice_at_perform_slice,
        decide_True by reflexivity. exact Hnew.
    + apply Forall_forall. intros c Hin. destruct (Hrange c Hin) as [Hc26 Hco].
      rewrite slice_at_perform_head_last, slice_at_perform_slice.
      rewrite decide_False; [auto|].
      intros Ea. apply at_unchecked_inj in Ea; [congruence|unfold_consts; lia|lia].
  - pose proof (wheel_ok_members m cs Hok Hlive Hnp) as Hm. cbv zeta in Hm.
    destruct Hlive as [[Hp _]|(Hhv & Hlv & Hch)]; [congruence|].
    destruct Hok as [_ [Hp|Hc]]; [congruence|].
    pose proof (chain_ok_bounds m Hs Hc) as (Hh & Hl & Hul & He & Hwr). cbv zeta in *.
    rewrite Forall_forall in Hm, Hfree.
    assert (Hrange : forall c, c ∈ cs -> 0 <= c < 2 ^ 26 /\ c <> 0).
    { intros c Hin. specialize (Hm c Hin). specialize (Hfree c Hin).
      unfold_consts. lia. }
    set (l := last (head_last (wheel m))) in *.
    split; [|split].
    + right. cbn [perform wheel write_mem fst head_last head last].
      split; [assumption|]. split; [unfold_consts; lia|].
      apply (chain_snoc m _ (last (head_last (wheel m)))); [reflexivity|exact Hch| | |].
      * intros c Hin. apply Hrange. assumption.
      * intros c Hin Hcl. destruct (Hrange c Hin).
        rewrite units_perform_head_last, units_perform_slice by (unfold_consts; lia).
        rewrite decide_False by congruence.
        rewrite units_perform_units by (unfold_consts; lia).
        apply decide_False. intros E'. apply Hcl. symmetry. exact E'.
      * unfold next_head.
        rewrite units_perform_head_last, units_perform_slice by (unfold_consts; lia).
        rewrite decide_False by lia.
        rewrite units_perform_units by (unfold_consts; lia).
        rewrite decide_True by reflexivity.
        cbn [perform wheel write_mem fst aligned_size]. fold l.
        replace (l + (aligned_size (wheel m) - l)) with (aligned_size (wheel m)) by lia.
        rewrite u32_small by (unfold_consts; lia). apply Z.mod_same. lia.
    + rewrite slice_at_perform_head_last, slice_at_perform_slice,
        decide_True by reflexivity. exact Hnew.
    + apply Forall_forall. intros c Hin. destruct (Hrange c Hin) as [Hc26 Hco].
      rewrite slice_at_perform_head_last, slice_at_perform_slice.
      rewrite decide_False.
      2:{ intros Ea. apply at_unchecked_inj in Ea; [congruence|lia|lia]. }
      rewrite slice_at_perform_units.
      destruct (decide (__whl_at_unchecked l = __whl_at_unchecked c)) as [->|]; auto.
Qed.

(** On a well-formed wheel, a successful allocation for a request whose
    footprint fits 32 bits appends its slice to the chain of live slices:
    the new slice becomes the last one, with the requested user size, its
    footprint and state [UNINIT]; the slices before it keep their order,
    their state and their user size. (A request with a larger footprint is
    recorded with a truncated size and can be placed on a live slice.) *)
Theorem make_slice_appends fuel m size offset bufp m' cs :
  wheel_ok m -> live_chain m cs ->
  is_size_t size -> spec_need size <= UINT32_MAX ->
  whl_make_slice fuel m size = Some (offset, bufp, m') ->
  offset <> WHL_INVALID_OFFSET ->
  live_chain m' (cs ++ [offset])
  /\ slice_at m' (__whl_at_unchecked offset)
     = {| trailing_user_size := size;
          aligned_size_in_wheel := spec_need size;
          state := WHL_SLICE_UNINIT |}
  /\ Forall (fun c =>
               state (slice_at m' (__whl_at_unchecked c))
               = state (slice_at m (__whl_at_unchecked c))
               /\ trailing_user_size (slice_at m' (__whl_at_unchecked c))
                  = trailing_user_size (slice_at m (__whl_at_unchecked c))) cs.
Proof. apply make_slice_snoc. Qed.

(** ** The wheel as a queue *)

Lemma wheel_ok_header_ok m : wheel_ok m -> header_ok m.
Proof.
  intros [Hs [Hp|Hc]].
  - split; [assumption|rewrite Hp; cbn; unfold_consts; lia..|rewrite Hp; cbn; tauto].
  - pose proof (chain_ok_bounds m Hs Hc) as (Hh & Hl & _). cbv zeta in *.
    split; [assumption|unfold_consts; lia..|].
    split; intros E; unfold_consts; lia.
Qed.

Lemma chain_suffix m l pre : forall h x rest,
  chain m l h (pre ++ x :: rest) -> chain m l x (x :: rest).
Proof.
  induction pre as [|p pre IH]; intros h x rest Hc; cbn [app] in Hc.
  - destruct (chain_first _ _ _ _ Hc) as (rest' & [= <- _]). assumption.
  - inversion Hc as [E|h' cs' Hne Hc' E1]; subst.
    + destruct pre; discriminate.
    + eapply IH. eassumption.
Qed.

Lemma chain_members_valid m l h cs x :
  1 <= aligned_size (wheel m) <= MAX_ALIGNED_SIZE ->
  h <> WHL_INVALID_OFFSET -> chain m l h cs -> x ∈ cs -> x <> WHL_INVALID_OFFSET.
Proof.
  intros Hs Hh Hc. revert Hh. induction Hc as [|h cs Hne Hc IH]; intros Hh Hx.
  - apply list_elem_of_singleton in Hx as ->. assumption.
  - apply elem_of_cons in Hx as [->|Hx]; [assumption|]. apply IH; [|assumption].
    pose proof (next_head_range m h ltac:(lia)). unfold_consts. lia.
Qed.

Lemma chain_last_member m l h cs : chain m l h cs -> l ∈ cs.
Proof. induction 1; [left|right; assumption]. Qed.

(** What is left of the chain after the walk is the chain of the wheel. *)
Lemma return_slice_chain fuel m off cs :
  wheel_ok m -> live_chain m cs -> (length cs < fuel)%nat ->
  state (slice_at m (__whl_at_unchecked off)) <> WHL_SLICE_RETURNED ->
  let m1 := perform (St_state (__whl_at_unchecked off) WHL_SLICE_RETURNED) m in
  exists m',
    whl_return_slice fuel m off
    = Some (Z.of_nat (length (returned_prefix m1 cs)), m')
    /\ live_chain m' (after_returned m1 cs)
    /\ wheel_ok m'
    /\ slices m' = slices m1
    /\ aligned_size (wheel m') = aligned_size (wheel m).
Proof.
  intros Hok Hlive Hf Hst. cbv zeta.
  pose proof (return_slice_walk fuel m off cs (wheel_ok_header_ok m Hok) Hlive Hf) as H.
  cbv zeta in H. destruct H as [_ H].
  rewrite (proj2 (Z.eqb_neq _ _) Hst) in H.
  destruct H as (m' & E & Hsl & Ha & Hp & _). exists m'.
  split; [exact E|]. split; [|split; [eapply wheel_ok_return; eassumption|auto]].
  set (m1 := perform (St_state (__whl_at_unchecked off) WHL_SLICE_RETURNED) m) in *.
  destruct (returned_prefix_maximal m1 cs) as (Hsplit & _ & _).
  destruct (after_returned m1 cs) as [|x rest] eqn:Eaft; [left; auto|].
  destruct Hlive as [[_ ->]|(Hhv & Hlv & Hch)]; [discriminate|].
  assert (Hs : 1 <= aligned_size (wheel m) <= MAX_ALIGNED_SIZE) by (destruct Hok; assumption).
  right. rewrite Hp. cbn [pair_after head last].
  split; [|split; [assumption|]].
  - eapply chain_members_valid; [exact Hs|exact Hhv|exact Hch|].
    rewrite Hsplit. apply elem_of_app. right. left.
  - rewrite Hsplit in Hch. apply chain_suffix in Hch.
    eapply chain_same; [exact Ha| |exact Hch].
    intros o. unfold units, slice_at. rewrite Hsl. fold (slice_at m1 (__whl_at_unchecked o)).
    fold (units m1 o). apply units_perform_state.
Qed.

(** Returning slices takes them off the front of the chain of live slices:
    the call returns the number of leading slices that are [RETURNED] once the
    slice at [off] is marked, and the live slices of the wheel afterwards are
    the ones that follow them, in the same order. *)
Theorem return_slice_pops fuel m off cs :
  wheel_ok m -> live_chain m cs -> (length cs < fuel)%nat ->
  state (slice_at m (__whl_at_unchecked off)) <> WHL_SLICE_RETURNED ->
  let m1 := perform (St_state (__whl_at_unchecked off) WHL_SLICE_RETURNED) m in
  exists m',
    whl_return_slice fuel m off
    = Some (Z.of_nat (length (returned_prefix m1 cs)), m')
    /\ live_chain m' (after_returned m1 cs)
    /\ wheel_ok m'
    /\ slices m' = slices m1
    /\ aligned_size (wheel m') = aligned_size (wheel m).
Proof. apply return_slice_chain. Qed.

(** The peek in terms of the chain. *)
Lemma peek_front m cs :
  live_chain m cs ->
  whl_next_shared_slice m
  = match cs with
    | [] => (WHL_INVALID_OFFSET, None, m)
    | c :: _ =>
        let sl := slice_at m (__whl_at_unchecked c) in
        if state sl =? WHL_SLICE_READABLE
        then (c, Some (__whl_slice_buf (__whl_at_unchecked c), trailing_user_size sl), m)
        else (WHL_INVALID_OFFSET, None, m)
    end.
Proof.
  intros [[Hp ->]|(Hhv & _ & Hch)]; unfold whl_next_shared_slice; cbv zeta.
  - rewrite Hp. reflexivity.
  - destruct (chain_first _ _ _ _ Hch) as (rest & ->).
    rewrite (proj2 (Z.eqb_neq _ _) Hhv).
    destruct (_ =? WHL_SLICE_READABLE); reflexivity.
Qed.


Lemma make_slice_invalid_same fuel m size bufp m' :
  whl_make_slice fuel m size = Some (WHL_INVALID_OFFSET, bufp, m') ->
  bufp = None /\ m' = m.
Proof.
  unfold whl_make_slice. destruct (_ <? size); [intros [= <- <-]; auto|].
  cbv zeta. destruct (Z.eqb_spec (__whl_next_offset_aligned m (slice_units size)
                                    (head_last (wheel m))) WHL_INVALID_OFFSET) as [|Hne];
    [intros [= <- <-]; auto|].
  destruct (publish_last _ _ _ _); [|discriminate]. intros [= E _ _]. congruence.
Qed.

(** On a well-formed wheel, once the consumer has been given a slice, the
    producer does not change what it is given by a request whose footprint
    fits 32 bits, nor by a publication: after any such allocation, whether it
    succeeds or fails, and after the publication of any offset,
    [whl_next_shared_slice] returns the same offset, pointer and size. (A
    request with a larger footprint is recorded with a truncated size and can
    be placed on the slice at the head.) *)
Theorem peek_stable_under_producer fuel m :
  wheel_ok m ->
  fst (fst (whl_next_shared_slice m)) <> WHL_INVALID_OFFSET ->
  (forall size offset bufp m',
      is_size_t size -> spec_need size <= UINT32_MAX ->
      whl_make_slice fuel m size = Some (offset, bufp, m') ->
      fst (whl_next_shared_slice m') = fst (whl_next_shared_slice m))
  /\ (forall x,
         fst (whl_next_shared_slice (whl_share_slice m x))
         = fst (whl_next_shared_slice m)).
Proof.
  intros Hok Hpeek. split.
  - intros size offset bufp m' Hsz Hfit Hmk.
    destruct (decide (offset = WHL_INVALID_OFFSET)) as [->|Hv].
    { apply make_slice_invalid_same in Hmk as [_ ->]. reflexivity. }
    destruct (wheel_ok_live_chain m Hok) as (cs & Hlive & _).
    destruct (make_slice_snoc _ _ _ _ _ _ _ Hok Hlive Hsz Hfit Hmk Hv)
      as (Hlive' & _ & Hframe).
    rewrite (peek_front m cs Hlive) in Hpeek |- *.
    rewrite (peek_front m' _ Hlive').
    destruct cs as [|c rest]; [cbn in Hpeek; congruence|].
    cbn [app]. cbv zeta. apply Forall_cons in Hframe as [[-> ->] _].
    destruct (_ =? WHL_SLICE_READABLE); reflexivity.
  - intros x. revert Hpeek. unfold whl_next_shared_slice, whl_share_slice. cbv zeta.
    rewrite wheel_perform_state.
    destruct (_ =? WHL_INVALID_OFFSET); [reflexivity|].
    rewrite slice_at_perform_state.
    set (a := __whl_at_unchecked (head (head_last (wheel m)))).
    destruct (Z.eqb_spec (state (slice_at m a)) WHL_SLICE_READABLE) as [E|E];
      cbn [negb fst]; [intros _|congruence].
    destruct (decide (__whl_at_unchecked x = a)) as [->|].
    + cbn [set_state state trailing_user_size]. reflexivity.
    + rewrite E. reflexivity.
Qed.

(** A message through an empty wheel. On a well-formed wheel with no live
    slice, a request that fits the wheel is placed at offset 0; once it is
    published the consumer is given the same pointer and the requested size;
    returning it reclaims one slice and leaves the wheel empty again. *)
Theorem empty_wheel_round_trip fuel m size :
  wheel_ok m -> head_last (wheel m) = whl_invalid_offset_pair ->
  is_size_t size -> spec_need size <= aligned_size (wheel m) ->
  exists buf m1 m3,
    whl_make_slice (S fuel) m size = Some (0, Some buf, m1)
    /\ whl_next_shared_slice (whl_share_slice m1 0)
       = (0, Some (buf, size), whl_share_slice m1 0)
    /\ whl_return_slice (S (S fuel)) (whl_share_slice m1 0) 0 = Some (1, m3)
    /\ head_last (wheel m3) = whl_invalid_offset_pair
    /\ aligned_size (wheel m3) = aligned_size (wheel m)
    /\ wheel_ok m3.
Proof.
  intros Hok Hp Hsz Hfit.
  assert (Hs : 1 <= aligned_size (wheel m) <= MAX_ALIGNED_SIZE) by (destruct Hok; assumption).
  assert (Hfit32 : spec_need size <= UINT32_MAX) by (unfold_consts; lia).
  destruct (slice_units_fits size) as [E Hn1]; [unfold_consts; lia|assumption|].
  destruct (whl_make_slice_total fuel m size) as ([[offset bufp] m1] & Hmk).
  assert (Hoff : offset = 0).
  { destruct (make_slice_follows_policy_core fuel m size Hok Hsz Hfit32) as (b & m2 & Hmk2).
    rewrite Hmk in Hmk2. injection Hmk2 as -> _ _.
    unfold spec_offset. cbv zeta. rewrite decide_True by assumption.
    apply Z.leb_le in Hfit. rewrite Hfit. reflexivity. }
  subst offset.
  assert (Hn2 : 1 <= slice_units size) by lia.
  assert (Hv0 : 0 <> WHL_INVALID_OFFSET) by (unfold_consts; lia).
  destruct (make_slice_cases _ _ _ _ _ _ Hok Hn2 Hmk Hv0) as [-> Hcases].
  cbv zeta in Hcases.
  destruct Hcases as [(_ & _ & _ & Hm1)|[(Hnp & _)|(Hnp & _)]]; [|congruence..].
  exists (__whl_slice_buf (__whl_at_unchecked 0)), m1.
  set (m2 := whl_share_slice m1 0).
  assert (Hw2 : head_last (wheel m2) = {| head := 0; last := 0 |})
    by (unfold m2, whl_share_slice; rewrite Hm1; reflexivity).
  assert (Hsl2 : slice_at m2 (__whl_at_unchecked 0)
                 = set_state WHL_SLICE_READABLE (new_slice size)).
  { unfold m2, whl_share_slice. rewrite slice_at_perform_state, decide_True by reflexivity.
    rewrite Hm1, slice_at_perform_head_last, slice_at_perform_slice,
      decide_True by reflexivity. reflexivity. }
  assert (Hok2 : wheel_ok m2).
  { apply wheel_ok_share. eapply wheel_ok_make; [exact Hok|exact Hn2|exact Hmk]. }
  assert (Hlive2 : live_chain m2 [0]).
  { right. rewrite Hw2. cbn. split; [unfold_consts; lia|]. split; [unfold_consts; lia|].
    constructor. }
  assert (Hlen : (length [0] < S (S fuel))%nat) by (cbn; lia).
  assert (Hst2 : state (slice_at m2 (__whl_at_unchecked 0)) <> WHL_SLICE_RETURNED)
    by (rewrite Hsl2; cbn; unfold_consts; lia).
  destruct (return_slice_chain (S (S fuel)) m2 0 [0] Hok2 Hlive2 Hlen Hst2)
    as (m3 & Hret & Hlive3 & Hok3 & _ & Ha3).
  cbv zeta in Hret, Hlive3.
  assert (Hret1 : is_returned (perform (St_state (__whl_at_unchecked 0)
                                          WHL_SLICE_RETURNED) m2) 0 = true).
  { unfold is_returned. rewrite slice_at_perform_state, decide_True by reflexivity.
    reflexivity. }
  cbn [returned_prefix after_returned] in Hret, Hlive3. rewrite Hret1 in Hret, Hlive3.
  exists m3. split; [exact Hmk|]. split.
  { unfold whl_next_shared_slice. cbv zeta. rewrite Hw2. cbn [head].
    change (0 =? WHL_INVALID_OFFSET) with false. cbv iota. rewrite Hsl2.
    cbn [set_state state trailing_user_size new_slice]. reflexivity. }
  split; [exact Hret|]. split.
  { destruct Hlive3 as [[Hp3 _]|(_ & _ & Hch)]; [exact Hp3|]. inversion Hch. }
  split; [|exact Hok3].
  rewrite Ha3. unfold m2, whl_share_slice. rewrite Hm1. reflexivity.
Qed.

(** ** The eventfd layer over the spin layer *)

Lemma efd_step_spin fuel o e :
  (fun r => (fst r, spin (atomic (snd r)))) <$> efd_step fuel o e
  = spin_step fuel o (spin (atomic e)).
Proof.
  destruct o as [size|offset| |off]; cbn [efd_step spin_step].
  - unfold whl_efd_make_slice.
    destruct (whl_make_slice fuel (spin (atomic e)) size) as [[[offset bufp] m]|];
      [|reflexivity]. cbv zeta.
    destruct (offset =? WHL_INVALID_OFFSET); cbn; [|reflexivity].
    destruct (_ =? 1); rewrite ?atomic_write_writable; reflexivity.
  - unfold whl_efd_share_slice. cbv zeta. cbn.
    destruct (_ =? 0); rewrite ?atomic_write_readable; reflexivity.
  - unfold whl_efd_next_shared_slice.
    destruct (whl_next_shared_slice (spin (atomic e))) as [[offset out] m].
    destruct (offset =? WHL_INVALID_OFFSET); cbn; [|reflexivity].
    destruct (_ =? 1); rewrite ?atomic_read_readable; reflexivity.
  - unfold whl_efd_return_slice.
    destruct (whl_return_slice fuel (spin (atomic e)) off) as [[r m]|];
      [|reflexivity]. cbv zeta. cbn.
    destruct (_ =? 0); rewrite ?atomic_read_writable; reflexivity.
Qed.

(** The eventfd layer leaves the wheel to the spin layer: a sequence of
    [whl_efd_] calls returns within the same fuel, returns the same offsets
    and counts, and leaves the same shared region as the same sequence of
    spin calls, whatever the flags and the counters of the descriptors
    hold. *)
Theorem efd_layer_runs_spin_layer fuel ops : forall e,
  (fun r => (fst r, spin (atomic (snd r)))) <$> efd_run fuel ops e
  = spin_run fuel ops (spin (atomic e)).
Proof.
  induction ops as [|o ops IH]; intros e; cbn [efd_run spin_run]; [reflexivity|].
  rewrite <- efd_step_spin.
  destruct (efd_step fuel o e) as [[ev e1]|]; [|reflexivity]. cbn [fmap option_fmap option_map fst snd].
  rewrite <- IH.
  destruct (efd_run fuel ops e1) as [[evs e2]|]; reflexivity.
Qed.

Lemma efd_ok_init a :
  (is_readable a = 0 \/ is_readable a = 1) ->
  (is_writable a = 0 \/ is_writable a = 1) ->
  efd_ok (whl_efd_init a) /\ errno (whl_efd_init a) = 0.
Proof.
  intros Hr Hw. unfold whl_efd_init, __whl_efd_write_writable.
  cbn [writable].
  assert (Ew : forall w, w = 0 \/ w = 1 ->
            eventfd_write 0 (u64 (-1 - 1 - w)) = inl (UINT64_MAX - 1 - w)).
  { intros w [-> | ->]; reflexivity. }
  rewrite (Ew _ Hw). unfold efd_ok. cbn. auto.
Qed.

Lemma efd_ok_step fuel o e ev e' :
  efd_ok e -> efd_step fuel o e = Some (ev, e') -> efd_ok e' /\ errno e' = 0.
Proof.
  intros (Hr & Hw & Er & Ew). destruct e as [[m0 r w] rd wr er].
  cbn in Hr, Hw, Er, Ew. subst rd wr.
  destruct o as [size|offset| |off]; cbn [efd_step].
  - unfold whl_efd_make_slice. cbn [atomic spin].
    destruct (whl_make_slice fuel m0 size) as [[[offset bufp] m]|];
      [|discriminate]. cbv zeta.
    destruct (offset =? WHL_INVALID_OFFSET); intros [= _ <-];
      destruct Hr as [-> | ->], Hw as [-> | ->]; unfold efd_ok; cbn; auto 10.
  - intros [= _ <-]. unfold whl_efd_share_slice. cbv zeta.
    destruct Hr as [-> | ->], Hw as [-> | ->]; unfold efd_ok; cbn; auto 10.
  - unfold whl_efd_next_shared_slice. cbn [atomic spin].
    destruct (whl_next_shared_slice m0) as [[offset out] m].
    destruct (offset =? WHL_INVALID_OFFSET); intros [= _ <-];
      destruct Hr as [-> | ->], Hw as [-> | ->]; unfold efd_ok; cbn; auto 10.
  - unfold whl_efd_return_slice. cbn [atomic spin].
    destruct (whl_return_slice fuel m0 off) as [[r0 m]|];
      [|discriminate]. cbv zeta. intros [= _ <-].
    destruct Hr as [-> | ->], Hw as [-> | ->]; unfold efd_ok; cbn; auto 10.
Qed.

Lemma efd_ok_run fuel ops : forall e evs e',
  efd_ok e -> errno e = 0 -> efd_run fuel ops e = Some (evs, e') ->
  efd_ok e' /\ errno e' = 0.
Proof.
  induction ops as [|o ops IH]; intros e evs e' Hok He; cbn [efd_run].
  - intros [= _ <-]. auto.
  - destruct (efd_step fuel o e) as [[ev e1]|] eqn:E1; [|discriminate].
    destruct (efd_run fuel ops e1) as [[evs1 e2]|] eqn:E2; [|discriminate].
    intros [= _ <-]. destruct (efd_ok_step _ _ _ _ _ Hok E1) as [Hok1 He1].
    eapply IH; eassumption.
Qed.

(** The descriptors follow the flags. From [whl_efd_init] on a header whose
    flags are 0 or 1, after any sequence of [whl_efd_] calls: no read or write
    of an eventfd has failed ([errno] is 0), the counter of [readable] equals
    [is_readable], so the descriptor polls readable exactly when the flag is
    1, and the counter of [writable] leaves room for a write exactly when
    [is_writable] is 1. *)
Theorem efd_counters_follow_flags a fuel ops evs e :
  (is_readable a = 0 \/ is_readable a = 1) ->
  (is_writable a = 0 \/ is_writable a = 1) ->
  efd_run fuel ops (whl_efd_init a) = Some (evs, e) ->
  errno e = 0
  /\ readable e = is_readable (atomic e)
  /\ writable e = UINT64_MAX - 1 - is_writable (atomic e)
  /\ (0 < readable e <-> is_readable (atomic e) = 1)
  /\ (writable e + 1 <= UINT64_MAX - 1 <-> is_writable (atomic e) = 1).
Proof.
  intros Hr Hw Hrun. destruct (efd_ok_init a Hr Hw) as [Hok0 He0].
  destruct (efd_ok_run _ _ _ _ _ Hok0 He0 Hrun) as [(Hr' & Hw' & Er & Ew) He].
  rewrite Er, Ew. unfold_consts. repeat split; try assumption; lia.
Qed.

Lemma efd_counters_follow_flags_witness :
  match efd_run 4 full_run (sample_efd 256) with
  | Some (evs, e) =>
      errno e = 0
      /\ readable e = is_readable (atomic e)
      /\ writable e = UINT64_MAX - 1 - is_writable (atomic e)
      /\ (0 < readable e <-> is_readable (atomic e) = 1)
      /\ (writable e + 1 <= UINT64_MAX - 1 <-> is_writable (atomic e) = 1)
  | None => False
  end.
Proof.
  destruct (efd_run 4 full_run (sample_efd 256)) as [[evs e]|] eqn:E.
  - apply (efd_counters_follow_flags (snd (whl_atomic_init zero_atomic 256))
             4 full_run evs e); [left; reflexivity|right; reflexivity|exact E].
  - vm_compute in E. discriminate E.
Defined.

(** [whl_atomic_init] returns what [whl_init] returns for the size and sets
    the flags to 0 and 1 either way. Where [whl_init] refuses a size and
    leaves the region as it was, [whl_atomic_init] has already cleared the
    header: [aligned_size], [head] and [last] are 0 afterwards. *)
Theorem whl_atomic_init_clears_header a buf_size :
  let r := whl_atomic_init a buf_size in
  fst r = fst (whl_init (spin a) buf_size)
  /\ is_readable (snd r) = 0 /\ is_writable (snd r) = 1
  /\ slices (spin (snd r)) = slices (spin a)
  /\ (fst r = 0 -> wheel (spin (snd r)) = wheel (snd (whl_init (spin a) buf_size)))
  /\ (fst r <> 0 ->
      wheel (spin (snd r))
      = {| aligned_size := 0; head_last := {| head := 0; last := 0 |} |}
      /\ snd (whl_init (spin a) buf_size) = spin a).
Proof.
  cbv zeta. unfold whl_atomic_init, whl_init. cbv zeta.
  destruct (_ || _ || _); cbn; repeat split; try reflexivity;
    try (intros Hr; discriminate Hr);
    try (intros Hr; exfalso; apply Hr; reflexivity); try congruence.
Qed.

(** ** The payload of the example program *)

Section ExampleFacts.

Import Example.

(** What the sender of the example writes, its receiver accepts. For a buffer
    of at least [bufsize] bytes, [write_buf] stays inside the buffer, leaves
    the bytes behind [bufsize] as they were, fills what lies between the end
    of [MAGIC] and [bufsize] with [0xf0], and [test_buf] with the same size
    returns 1 on the result: also for sizes shorter than [MAGIC], and for
    size 0. *)
Theorem test_buf_accepts_write_buf buf bufsize :
  0 <= bufsize <= Z.of_nat (length buf) ->
  exists buf',
    write_buf buf bufsize = Some buf'
    /\ test_buf buf' bufsize = Some true
    /\ length buf' = length buf
    /\ drop (Z.to_nat bufsize) buf' = drop (Z.to_nat bufsize) buf
    /\ (forall i, (Z.to_nat sizeof_MAGIC <= i < Z.to_nat bufsize)%nat ->
                  buf' !! i = Some 240).
Proof.
  intros Hb. unfold write_buf, test_buf, memset.
  replace (bufsize <=? Z.of_nat (length buf)) with true by (symmetry; apply Z.leb_le; lia).
  cbn [mbind option_bind].
  set (filled := replicate (Z.to_nat bufsize) (u8 240) ++ drop (Z.to_nat bufsize) buf).
  assert (Hlen : length filled = length buf).
  { unfold filled. rewrite length_app, length_replicate, length_drop. lia. }
  set (k := min sizeof_MAGIC bufsize).
  assert (Hk : 0 <= k <= bufsize /\ k <= sizeof_MAGIC
               /\ (sizeof_MAGIC <= bufsize -> k = sizeof_MAGIC)).
  { unfold k, min. destruct (Z.gtb_spec sizeof_MAGIC bufsize); unfold sizeof_MAGIC in *;
      cbn [length MAGIC] in *; lia. }
  unfold memcpy. rewrite Hlen.
  replace (k <=? Z.of_nat (length buf)) with true by (symmetry; apply Z.leb_le; lia).
  replace (k <=? Z.of_nat (length MAGIC)) with true
    by (symmetry; apply Z.leb_le; unfold sizeof_MAGIC in Hk; lia).
  cbn [andb].
  assert (HkM : (Z.to_nat k <= length MAGIC)%nat) by (unfold sizeof_MAGIC in Hk; lia).
  eexists. split; [reflexivity|].
  assert (Hlen' : length (take (Z.to_nat k) MAGIC ++ drop (Z.to_nat k) filled)
                  = length buf).
  { rewrite length_app, length_take, length_drop. lia. }
  split; [|split; [exact Hlen'|split]].
  - unfold memcmp_is_zero. rewrite Hlen'.
    replace (k <=? Z.of_nat (length buf)) with true by (symmetry; apply Z.leb_le; lia).
    replace (k <=? Z.of_nat (length MAGIC)) with true
      by (symmetry; apply Z.leb_le; unfold sizeof_MAGIC in Hk; lia).
    cbn [andb]. f_equal. apply bool_decide_eq_true.
    rewrite take_app_le by (rewrite length_take; lia).
    rewrite take_take. f_equal. lia.
  - rewrite drop_app_ge by (rewrite length_take; lia).
    rewrite length_take, drop_drop.
    replace (Z.to_nat k + (Z.to_nat bufsize - Z.to_nat k `min` length MAGIC))%nat
      with (Z.to_nat bufsize) by lia.
    unfold filled. rewrite drop_app_ge by (rewrite length_replicate; lia).
    rewrite length_replicate, Nat.sub_diag. reflexivity.
  - intros i Hi. destruct Hk as (_ & _ & Hk).
    rewrite Hk by lia.
    rewrite lookup_app_r by (rewrite length_take; lia).
    rewrite length_take, lookup_drop.
    unfold filled. rewrite lookup_app_l by (rewrite length_replicate; lia).
    apply lookup_replicate. split; [reflexivity|lia].
Qed.

End ExampleFacts.

Lemma test_buf_accepts_write_buf_witness :
  exists buf',
    Example.write_buf [1; 2; 3; 4; 5] 3 = Some buf'
    /\ Example.test_buf buf' 3 = Some true
    /\ length buf' = length [1; 2; 3; 4; 5]
    /\ drop (Z.to_nat 3) buf' = drop (Z.to_nat 3) [1; 2; 3; 4; 5]
    /\ (forall i, (Z.to_nat Example.sizeof_MAGIC <= i < Z.to_nat 3)%nat ->
                  buf' !! i = Some 240).
Proof.
  apply (test_buf_accepts_write_buf [1; 2; 3; 4; 5] 3). cbn. lia.
Defined.

(** ** Descriptor passing: the paths that carry descriptors *)

Section ScmTransfer.

Import Scm.

Variables (SOL_SOCKET SCM_RIGHTS EINTR E2BIG : Z).

(** The copy loop fills [outfds] from index [i] on until [mx] entries are
    written or the descriptors run out. *)
Lemma copy_fds_fills (mx : nat) : forall fds (i : nat) l,
  (i <= mx <= length l)%nat ->
  copy_fds (Z.of_nat mx) (Z.of_nat i) (Some l) fds
  = inr (Some (take i l ++ take (mx - i) fds
               ++ drop (i + Nat.min (mx - i) (length fds)) l),
         Z.of_nat (i + Nat.min (mx - i) (length fds)),
         drop (mx - i) fds).
Proof.
  induction fds as [|fd rest IH]; intros i l Hi; cbn [copy_fds].
  - rewrite take_nil, Nat.min_0_r, Nat.add_0_r, drop_nil. cbn [app].
    rewrite take_drop. reflexivity.
  - destruct (Z.ltb_spec (Z.of_nat i) (Z.of_nat mx)) as [Hlt|Hge].
    + replace (Z.of_nat (length l) <=? Z.of_nat i) with false
        by (symmetry; apply Z.leb_gt; lia).
      rewrite Nat2Z.id.
      replace (Z.of_nat i + 1) with (Z.of_nat (S i)) by lia.
      rewrite IH by (rewrite length_insert; lia).
      replace (mx - i)%nat with (S (mx - S i)) by lia.
      cbn [take drop length Nat.min].
      replace (S i + Nat.min (mx - S i) (length rest))%nat
        with (i + S (Nat.min (mx - S i) (length rest)))%nat by lia.
      f_equal. f_equal. f_equal.
      assert (Hl : (i < length l)%nat) by lia.
      rewrite (take_S_r (<[i:=fd]> l) i fd)
        by (apply list_lookup_insert_eq; assumption).
      rewrite take_insert_ge by lia.
      rewrite drop_insert_lt by lia.
      rewrite <- app_assoc. reflexivity.
    + assert (i = mx) as -> by lia.
      rewrite Nat.sub_diag. cbn [Nat.min take drop app].
      rewrite Nat.add_0_r, take_drop. reflexivity.
Qed.

Lemma has_rights_test cmsg :
  cmsg_level cmsg = SOL_SOCKET -> cmsg_type cmsg = SCM_RIGHTS ->
  negb (cmsg_level cmsg =? SOL_SOCKET) || negb (cmsg_type cmsg =? SCM_RIGHTS) = false.
Proof. intros -> ->. rewrite !Z.eqb_refl. reflexivity. Qed.

Lemma recv_rights script c bytes cmsg arr n :
  recvmsg_retry EINTR script = Some (Recv_data bytes (Some cmsg)) ->
  0 <= bytes <= INT_MAX ->
  cmsg_level cmsg = SOL_SOCKET -> cmsg_type cmsg = SCM_RIGHTS ->
  outfds c = Some arr -> n_outfds c = Some (Z.of_nat n) ->
  Z.of_nat n <= INT_MAX -> (n <= length arr)%nat ->
  let fds := cmsg_fds cmsg in
  let k := Nat.min n (length fds) in
  recv_fds_with_data SOL_SOCKET SCM_RIGHTS EINTR script c
  = Returned bytes (recvmsg_errno EINTR None script)
      {| outfds := Some (take k fds ++ drop k arr);
         n_outfds := Some (Z.of_nat k) |}
      (drop k fds).
Proof.
  intros Hr Hb Hlv Hty Ha Hn Hn32 Hlen. cbv zeta.
  unfold recv_fds_with_data. rewrite Hr, Hn, Ha. cbv zeta.
  rewrite (int32_small bytes) by assumption.
  rewrite (int32_small (Z.of_nat n)) by lia.
  replace (bytes <? 0) with false by (symmetry; apply Z.ltb_ge; lia).
  rewrite has_rights_test by assumption.
  rewrite u64_small by (unfold_consts; lia).
  change 0 with (Z.of_nat 0) at 1.
  rewrite (copy_fds_fills n (cmsg_fds cmsg) 0 arr) by lia.
  rewrite Nat.sub_0_r, Nat.add_0_l. cbn [take app].
  rewrite u64_small by (unfold_consts; lia).
  destruct (Nat.min_spec n (length (cmsg_fds cmsg))) as [[_ ->]|[Hle ->]];
    [reflexivity|].
  rewrite (take_ge (cmsg_fds cmsg) n), (drop_ge (cmsg_fds cmsg) n) by lia.
  rewrite (take_ge (cmsg_fds cmsg) (length (cmsg_fds cmsg))) by lia.
  rewrite (drop_ge (cmsg_fds cmsg) (length (cmsg_fds cmsg))) by lia.
  reflexivity.
Qed.

(** A datagram with rights. When the caller passes an array of at least [n]
    entries and the count [n], [recv_fds_with_data] stores the first
    [min n (number received)] descriptors at the front of the array in the
    order received, leaves the entries behind them as they were, sets the
    count to the number stored, closes every descriptor it did not store, and
    returns the byte count of the payload: each descriptor received is either
    handed to the caller or closed. *)
Theorem recv_rights_stores_or_closes script c bytes cmsg arr n :
  recvmsg_retry EINTR script = Some (Recv_data bytes (Some cmsg)) ->
  0 <= bytes <= INT_MAX ->
  cmsg_level cmsg = SOL_SOCKET -> cmsg_type cmsg = SCM_RIGHTS ->
  outfds c = Some arr -> n_outfds c = Some (Z.of_nat n) ->
  Z.of_nat n <= INT_MAX -> (n <= length arr)%nat ->
  exists stored closed,
    recv_fds_with_data SOL_SOCKET SCM_RIGHTS EINTR script c
    = Returned bytes (recvmsg_errno EINTR None script)
        {| outfds := Some (stored ++ drop (length stored) arr);
           n_outfds := Some (Z.of_nat (length stored)) |}
        closed
    /\ stored ++ closed = cmsg_fds cmsg
    /\ length stored = Nat.min n (length (cmsg_fds cmsg)).
Proof.
  intros Hr Hb Hlv Hty Ha Hn Hn32 Hlen.
  pose proof (recv_rights script c bytes cmsg arr n Hr Hb Hlv Hty Ha Hn Hn32 Hlen) as E.
  cbv zeta in E.
  exists (take (Nat.min n (length (cmsg_fds cmsg))) (cmsg_fds cmsg)),
         (drop (Nat.min n (length (cmsg_fds cmsg))) (cmsg_fds cmsg)).
  rewrite length_take, take_drop.
  replace (Nat.min (Nat.min n (length (cmsg_fds cmsg))) (length (cmsg_fds cmsg)))
    with (Nat.min n (length (cmsg_fds cmsg))) by lia.
  split; [exact E|split; reflexivity].
Qed.

Lemma u64_nonneg z : (u64 z <? 0) = false.
Proof. apply Z.ltb_ge. unfold u64. apply Z.mod_pos_bound. lia. Qed.

Lemma first_of_singleton (outfd : option Z) :
  (((fun v => [v]) <$> outfd) ≫= (fun l => l !! 0%nat)) = outfd.
Proof. destruct outfd; reflexivity. Qed.

Lemma recv_fd_error script outfd e :
  recvmsg_retry EINTR script = Some (Recv_error e) ->
  recv_fd SOL_SOCKET SCM_RIGHTS EINTR script outfd = Fd_returned 1 (Some e) outfd [].
Proof.
  intros Hr. unfold recv_fd, recv_fds, recv_fds_with_data. rewrite Hr. cbv zeta.
  rewrite u64_nonneg. cbn [outfds n_outfds default].
  rewrite first_of_singleton. reflexivity.
Qed.

Lemma recv_fd_count script outfd ret en o closed :
  recv_fd SOL_SOCKET SCM_RIGHTS EINTR script outfd = Fd_returned ret en o closed ->
  ret = 0 \/ ret = 1.
Proof.
  unfold recv_fd, recv_fds, recv_fds_with_data. cbv zeta.
  destruct (recvmsg_retry EINTR script) as [[e|bytes control]|]; [| |discriminate].
  - rewrite u64_nonneg. cbn. intros [= <- _ _ _]. auto.
  - destruct (int32 bytes <? 0).
    { rewrite u64_nonneg. cbn. intros [= <- _ _ _]. auto. }
    destruct (match control with Some _ => _ | None => true end).
    { cbn [n_outfds]. rewrite u64_nonneg. cbn. intros [= <- _ _ _]. auto. }
    cbn [n_outfds outfds]. change (int32 1) with 1.
    destruct (match control with Some cmsg => cmsg_fds cmsg | None => [] end)
      as [|fd rest]; cbn [copy_fds].
    { rewrite u64_nonneg. cbn. intros [= <- _ _ _]. auto. }
    change (0 <? 1) with true. cbv iota.
    destruct outfd as [v|]; cbn [fmap option_fmap option_map]; [|discriminate].
    change (Z.of_nat (length [v]) <=? 0) with false. cbv iota.
    destruct rest as [|fd' rest]; cbn [copy_fds];
      [|change (0 + 1 <? 1) with false; cbv iota];
      rewrite u64_nonneg; cbn; intros [= <- _ _ _]; auto.
Qed.

(** [recv_fd] does not report a failed [recvmsg]: its test of the value of
    [recv_fds] is made on a [size_t] and never holds. When [recvmsg] fails
    the call returns 1, the value it returns when it has stored a
    descriptor, with [errno] set by [recvmsg] and [*outfd] as it was; and
    whatever is received, the value returned is 0 or 1, never [(size_t)-1]. *)
Theorem recv_fd_hides_errors script outfd :
  (forall e,
      recvmsg_retry EINTR script = Some (Recv_error e) ->
      recv_fd SOL_SOCKET SCM_RIGHTS EINTR script outfd
      = Fd_returned 1 (Some e) outfd [])
  /\ (forall ret en o closed,
         recv_fd SOL_SOCKET SCM_RIGHTS EINTR script outfd
         = Fd_returned ret en o closed ->
         ret = 0 \/ ret = 1).
Proof.
  split; [intros e; apply recv_fd_error|intros ret en o closed; apply recv_fd_count].
Qed.

Lemma recv_fd_data script v bytes control :
  recvmsg_retry EINTR script = Some (Recv_data bytes control) ->
  0 <= bytes <= INT_MAX ->
  (lacks_rights SOL_SOCKET SCM_RIGHTS control ->
   recv_fd SOL_SOCKET SCM_RIGHTS EINTR script (Some v)
   = Fd_returned 0 (recvmsg_errno EINTR None script) (Some v) [])
  /\ (forall cmsg,
         control = Some cmsg ->
         cmsg_level cmsg = SOL_SOCKET -> cmsg_type cmsg = SCM_RIGHTS ->
         recv_fd SOL_SOCKET SCM_RIGHTS EINTR script (Some v)
         = match cmsg_fds cmsg with
           | [] => Fd_returned 0 (recvmsg_errno EINTR None script) (Some v) []
           | fd :: rest =>
               Fd_returned 1 (recvmsg_errno EINTR None script) (Some fd) rest
           end).
Proof.
  intros Hr Hb. split.
  - intros Hl. unfold recv_fd, recv_fds. cbv zeta.
    rewrite (recv_without_rights SOL_SOCKET SCM_RIGHTS EINTR _ _ _ _ Hr Hb Hl).
    cbn [n_outfds outfds fmap option_fmap option_map].
    replace (bytes <? 0) with false by (symmetry; apply Z.ltb_ge; lia).
    reflexivity.
  - intros cmsg -> Hlv Hty. unfold recv_fd, recv_fds. cbv zeta.
    pose proof (recv_rights script {| outfds := Some [v]; n_outfds := Some 1 |}
                  bytes cmsg [v] 1 Hr Hb Hlv Hty eq_refl eq_refl) as E.
    cbv zeta in E. cbn [fmap option_fmap option_map].
    rewrite E by (unfold_consts; cbn; lia).
    replace (bytes <? 0) with false by (symmetry; apply Z.ltb_ge; lia).
    destruct (cmsg_fds cmsg) as [|fd rest]; reflexivity.
Qed.

(** [recv_fd] on a datagram. Without rights it returns 0 and leaves [*outfd]
    as it was. With rights it stores the first descriptor received in
    [*outfd], closes every other one, and returns 1; a message of rights
    that holds no descriptor gives 0. *)
Theorem recv_fd_takes_first script v bytes control :
  recvmsg_retry EINTR script = Some (Recv_data bytes control) ->
  0 <= bytes <= INT_MAX ->
  (lacks_rights SOL_SOCKET SCM_RIGHTS control ->
   recv_fd SOL_SOCKET SCM_RIGHTS EINTR script (Some v)
   = Fd_returned 0 (recvmsg_errno EINTR None script) (Some v) [])
  /\ (forall cmsg,
         control = Some cmsg ->
         cmsg_level cmsg = SOL_SOCKET -> cmsg_type cmsg = SCM_RIGHTS ->
         recv_fd SOL_SOCKET SCM_RIGHTS EINTR script (Some v)
         = match cmsg_fds cmsg with
           | [] => Fd_returned 0 (recvmsg_errno EINTR None script) (Some v) []
           | fd :: rest =>
               Fd_returned 1 (recvmsg_errno EINTR None script) (Some fd) rest
           end).
Proof. apply recv_fd_data. Qed.

(** ** Sending and receiving *)

Lemma send_message ndebug res fds buflen r en cmsg len :
  send_fds_with_data SOL_SOCKET SCM_RIGHTS E2BIG ndebug res fds buflen
  = Send_returned r en (Some (cmsg, len)) ->
  (length fds <= 16)%nat
  /\ cmsg = {| cmsg_level := SOL_SOCKET; cmsg_type := SCM_RIGHTS; cmsg_fds := fds |}
  /\ len = buflen.
Proof.
  unfold send_fds_with_data. cbv zeta. unfold SCM_MAX_FDS.
  destruct (Z.leb_spec (Z.of_nat (length fds)) 16) as [Hle|Hgt].
  - rewrite andb_false_r.
    replace (16 <? Z.of_nat (length fds)) with false by (symmetry; apply Z.ltb_ge; lia).
    destruct res; intros [= _ _ <- <-]; (split; [lia|split; reflexivity]).
  - replace (16 <? Z.of_nat (length fds)) with true by (symmetry; apply Z.ltb_lt; lia).
    destruct ndebug; discriminate.
Qed.

(** The two ends agree. Whatever [send_fds_with_data] hands to [sendmsg]
    holds at most 16 descriptors in one message of level [SOL_SOCKET] and
    type [SCM_RIGHTS]. When the datagram arrives with a control message of
    that level and type and as many descriptors, and the receiver passes a
    count and an array that hold them all, [recv_fds_with_data] takes the
    path for rights: it stores every descriptor, in order, sets the count to
    their number and closes none. *)
Theorem sent_descriptors_arrive ndebug res fds buflen r en cmsg len
    script bytes cmsg' c arr n :
  send_fds_with_data SOL_SOCKET SCM_RIGHTS E2BIG ndebug res fds buflen
  = Send_returned r en (Some (cmsg, len)) ->
  recvmsg_retry EINTR script = Some (Recv_data bytes (Some cmsg')) ->
  0 <= bytes <= INT_MAX ->
  cmsg_level cmsg' = cmsg_level cmsg -> cmsg_type cmsg' = cmsg_type cmsg ->
  length (cmsg_fds cmsg') = length (cmsg_fds cmsg) ->
  outfds c = Some arr -> n_outfds c = Some (Z.of_nat n) ->
  (length fds <= n <= length arr)%nat -> Z.of_nat n <= INT_MAX ->
  (length fds <= 16)%nat
  /\ recv_fds_with_data SOL_SOCKET SCM_RIGHTS EINTR script c
     = Returned bytes (recvmsg_errno EINTR None script)
         {| outfds := Some (cmsg_fds cmsg' ++ drop (length fds) arr);
            n_outfds := Some (Z.of_nat (length fds)) |}
         [].
Proof.
  intros Hs Hr Hb Hlv Hty Hlen Ha Hn Hfit Hn32.
  apply send_message in Hs as (H16 & -> & _). cbn in Hlv, Hty, Hlen.
  split; [assumption|].
  pose proof (recv_rights script c bytes cmsg' arr n Hr Hb Hlv Hty Ha Hn Hn32
                (proj2 Hfit)) as E.
  cbv zeta in E. rewrite E.
  replace (Nat.min n (length (cmsg_fds cmsg'))) with (length (cmsg_fds cmsg')) by lia.
  rewrite take_ge, (drop_ge (cmsg_fds cmsg')) by lia. rewrite Hlen. reflexivity.
Qed.

End ScmTransfer.

(** The constants of Linux: [SOL_SOCKET] and [SCM_RIGHTS] are 1, [EINTR] is
    4, [E2BIG] is 7. *)
Lemma recv_rights_stores_or_closes_witness :
  exists stored closed,
    Scm.recv_fds_with_data 1 1 4
      [Scm.Recv_data 1 (Some {| Scm.cmsg_level := 1; Scm.cmsg_type := 1;
                               Scm.cmsg_fds := [7; 8; 9] |})]
      {| Scm.outfds := Some [0; 0; 0]; Scm.n_outfds := Some 2 |}
    = Scm.Returned 1 None
        {| Scm.outfds := Some (stored ++ drop (length stored) [0; 0; 0]);
           Scm.n_outfds := Some (Z.of_nat (length stored)) |}
        closed
    /\ stored ++ closed = [7; 8; 9]
    /\ length stored = Nat.min 2 3.
Proof.
  apply (recv_rights_stores_or_closes 1 1 4
           [Scm.Recv_data 1 (Some {| Scm.cmsg_level := 1; Scm.cmsg_type := 1;
                                    Scm.cmsg_fds := [7; 8; 9] |})]
           {| Scm.outfds := Some [0; 0; 0]; Scm.n_outfds := Some 2 |}
           1 {| Scm.cmsg_level := 1; Scm.cmsg_type := 1; Scm.cmsg_fds := [7; 8; 9] |}
           [0; 0; 0] 2);
    try reflexivity; try (vm_compute; intuition discriminate); cbn; lia.
Defined.

Lemma recv_fd_hides_errors_witness :
  Scm.recv_fd 1 1 4 [Scm.Recv_error 4; Scm.Recv_error 11] (Some 5)
  = Scm.Fd_returned 1 (Some 11) (Some 5) [].
Proof.
  apply (recv_fd_hides_errors 1 1 4 [Scm.Recv_error 4; Scm.Recv_error 11] (Some 5)).
  reflexivity.
Defined.

Lemma recv_fd_takes_first_witness :
  Scm.recv_fd 1 1 4
    [Scm.Recv_data 1 (Some {| Scm.cmsg_level := 1; Scm.cmsg_type := 1;
                             Scm.cmsg_fds := [7; 8; 9] |})]
    (Some 5)
  = Scm.Fd_returned 1 None (Some 7) [8; 9].
Proof.
  assert (Hb : 0 <= 1 <= INT_MAX) by (vm_compute; intuition discriminate).
  exact (proj2 (recv_fd_takes_first 1 1 4
                  [Scm.Recv_data 1 (Some {| Scm.cmsg_level := 1; Scm.cmsg_type := 1;
                                           Scm.cmsg_fds := [7; 8; 9] |})]
                  5 1
                  (Some {| Scm.cmsg_level := 1; Scm.cmsg_type := 1;
                           Scm.cmsg_fds := [7; 8; 9] |})
                  eq_refl Hb)
           {| Scm.cmsg_level := 1; Scm.cmsg_type := 1; Scm.cmsg_fds := [7; 8; 9] |}
           eq_refl eq_refl eq_refl).
Defined.

Lemma sent_descriptors_arrive_witness :
  (length [3; 4; 5] <= 16)%nat
  /\ Scm.recv_fds_with_data 1 1 4
       [Scm.Recv_data 1 (Some {| Scm.cmsg_level := 1; Scm.cmsg_type := 1;
                                Scm.cmsg_fds := [7; 8; 9] |})]
       {| Scm.outfds := Some [0; 0; 0]; Scm.n_outfds := Some 3 |}
     = Scm.Returned 1 None
         {| Scm.outfds := Some ([7; 8; 9] ++ drop (length [3; 4; 5]) [0; 0; 0]);
            Scm.n_outfds := Some (Z.of_nat (length [3; 4; 5])) |}
         [].
Proof.
  apply (sent_descriptors_arrive 1 1 4 7 false (Scm.Send_ok 1) [3; 4; 5] 1
           1 None
           {| Scm.cmsg_level := 1; Scm.cmsg_type := 1; Scm.cmsg_fds := [3; 4; 5] |} 1
           [Scm.Recv_data 1 (Some {| Scm.cmsg_level := 1; Scm.cmsg_type := 1;
                                    Scm.cmsg_fds := [7; 8; 9] |})]
           1 {| Scm.cmsg_level := 1; Scm.cmsg_type := 1; Scm.cmsg_fds := [7; 8; 9] |}
           {| Scm.outfds := Some [0; 0; 0]; Scm.n_outfds := Some 3 |}
           [0; 0; 0] 3);
    try reflexivity; try (vm_compute; intuition discriminate); cbn; lia.
Defined.

(** ** No wake-up is lost *)

Lemma make_slice_fuel fuel m size r :
  whl_make_slice fuel m size = Some r -> whl_make_slice 1 m size = Some r.
Proof.
  destruct fuel as [|fuel]; [|rewrite !whl_make_slice_once; auto].
  unfold whl_make_slice. destruct (_ <? size); [auto|]. cbv zeta.
  destruct (_ =? WHL_INVALID_OFFSET); [auto|]. cbn [publish_last]. discriminate.
Qed.

(** An allocation does not change what the consumer is given. *)
Lemma make_slice_peek fuel m size offset bufp m' :
  wheel_ok m -> is_size_t size -> spec_need size <= UINT32_MAX ->
  whl_make_slice fuel m size = Some (offset, bufp, m') ->
  fst (whl_next_shared_slice m') = fst (whl_next_shared_slice m).
Proof.
  intros Hok Hsz Hfit Hmk.
  destruct (decide (offset = WHL_INVALID_OFFSET)) as [->|Hv].
  { apply make_slice_invalid_same in Hmk as [_ ->]. reflexivity. }
  destruct (wheel_ok_live_chain m Hok) as (cs & Hlive & _).
  destruct (make_slice_snoc _ _ _ _ _ _ _ Hok Hlive Hsz Hfit Hmk Hv)
    as (Hlive' & Hnew & Hframe).
  rewrite (peek_front m cs Hlive), (peek_front m' _ Hlive').
  destruct cs as [|c rest]; cbn [app]; cbv zeta.
  - rewrite Hnew. reflexivity.
  - apply Forall_cons in Hframe as [[-> ->] _].
    destruct (_ =? WHL_SLICE_READABLE); reflexivity.
Qed.

(** A request that fits is refused on a wheel that holds a slice only. *)
Lemma make_slice_refused fuel m size bufp m' :
  wheel_ok m -> is_size_t size -> spec_need size <= aligned_size (wheel m) ->
  whl_make_slice fuel m size = Some (WHL_INVALID_OFFSET, bufp, m') ->
  head_last (wheel m) <> whl_invalid_offset_pair.
Proof.
  intros Hok Hsz Hfit Hmk Hp.
  assert (Hs : 1 <= aligned_size (wheel m) <= MAX_ALIGNED_SIZE) by (destruct Hok; assumption).
  assert (Hfit32 : spec_need size <= UINT32_MAX) by (unfold_consts; lia).
  apply make_slice_fuel in Hmk.
  destruct (make_slice_follows_policy_core 0 m size Hok Hsz Hfit32) as (b & m2 & Hmk2).
  rewrite Hmk in Hmk2. injection Hmk2 as E _ _. revert E.
  unfold spec_offset. cbv zeta. rewrite decide_True by assumption.
  apply Z.leb_le in Hfit. rewrite Hfit. discriminate.
Qed.

Lemma efd_step_spin_of fuel o e ev e' :
  efd_step fuel o e = Some (ev, e') ->
  spin_step fuel o (spin (atomic e)) = Some (ev, spin (atomic e')).
Proof.
  intros H. rewrite <- efd_step_spin, H. reflexivity.
Qed.

Lemma efd_awake_step fuel o e ev e' :
  wheel_ok (spin (atomic e)) -> efd_awake e -> op_in_protocol e o ->
  efd_step fuel o e = Some (ev, e') ->
  wheel_ok (spin (atomic e')) /\ efd_awake e'.
Proof.
  intros Hok [Hrd Hwr] Hop Hstep.
  assert (Hs : 1 <= aligned_size (wheel (spin (atomic e))) <= MAX_ALIGNED_SIZE)
    by (destruct Hok; assumption).
  destruct (efd_step_flags _ _ _ _ _ Hstep) as [Er Ew].
  apply efd_step_spin_of in Hstep.
  unfold efd_awake. cbv zeta. rewrite Er, Ew.
  unfold op_in_protocol in Hop. cbv zeta in Hrd, Hwr, Hop.
  set (m := spin (atomic e)) in *. set (m1 := spin (atomic e')) in *.
  clearbody m m1.
  destruct o as [size|offset| |off]; cbn [spin_step] in Hstep.
  - destruct Hop as [Hsz Hfit].
    assert (Hfit32 : spec_need size <= UINT32_MAX) by (unfold_consts; lia).
    destruct (whl_make_slice fuel m size) as [[[offset bufp] m2]|] eqn:Hmk;
      [|discriminate].
    cbn in Hstep. injection Hstep as <- <-.
    cbn [readable_latch writable_latch].
    destruct (slice_units_fits size) as [E1 E2]; [unfold_consts; lia|assumption|].
    split; [eapply wheel_ok_make; [exact Hok| |exact Hmk]; lia|].
    split.
    + rewrite (make_slice_peek _ _ _ _ _ _ Hok Hsz Hfit32 Hmk). exact Hrd.
    + destruct (Z.eqb_spec offset WHL_INVALID_OFFSET) as [->|Hv].
      * intros _. pose proof Hmk as Hmk'.
        apply make_slice_invalid_same in Hmk' as [_ ->].
        eapply make_slice_refused; eassumption.
      * intros _.
        destruct (wheel_ok_live_chain m Hok) as (cs & Hlive & _).
        destruct (make_slice_snoc _ _ _ _ _ _ _ Hok Hlive Hsz Hfit32 Hmk Hv)
          as ([[_ Hnil]|(Hh & Hl & _)] & _ & _).
        { destruct cs; discriminate Hnil. }
        intros Hp. rewrite Hp in Hh. apply Hh. reflexivity.
  - injection Hstep as <- <-. cbn [readable_latch writable_latch].
    split; [apply wheel_ok_share; assumption|].
    split; [reflexivity|].
    unfold whl_share_slice. rewrite wheel_perform_state. exact Hwr.
  - injection Hstep as <- <-. cbn [readable_latch writable_latch].
    rewrite whl_next_shared_slice_same.
    split; [assumption|]. split; [|exact Hwr].
    destruct (Z.eqb_spec (fst (fst (whl_next_shared_slice m))) WHL_INVALID_OFFSET);
      [contradiction|exact Hrd].
  - destruct Hop as [Hv Hpk].
    destruct (whl_return_slice fuel m off) as [[r m2]|] eqn:Hret; [|discriminate].
    cbn in Hstep. injection Hstep as <- <-.
    cbn [readable_latch writable_latch].
    split; [eapply wheel_ok_return; eassumption|].
    split; [|discriminate].
    intros _. apply Hrd. rewrite Hpk. exact Hv.
Qed.

Lemma efd_awake_run fuel ops : forall e evs e',
  wheel_ok (spin (atomic e)) -> efd_awake e -> in_protocol fuel ops e ->
  efd_run fuel ops e = Some (evs, e') ->
  wheel_ok (spin (atomic e')) /\ efd_awake e'.
Proof.
  induction ops as [|o ops IH]; intros e evs e' Hok Haw; cbn [in_protocol efd_run].
  - intros _ [= _ <-]. auto.
  - intros [Hop Hrest].
    destruct (efd_step fuel o e) as [[ev e1]|] eqn:E1; [|discriminate].
    destruct (efd_run fuel ops e1) as [[evs1 e2]|] eqn:E2; [|discriminate].
    intros [= _ <-].
    destruct (efd_awake_step _ _ _ _ _ Hok Haw Hop E1) as [Hok1 Haw1].
    eapply IH; eassumption.
Qed.

(** No wake-up is lost. From a successful [whl_atomic_init] and
    [whl_efd_init], after any sequence of [whl_efd_] calls in which every
    request fits the wheel and every slice returned is the one
    [whl_next_shared_slice] gives, with no call of the peer in between:
    whenever [whl_next_shared_slice] would deliver a slice, the counter of
    the [readable] descriptor is 1, so a poll finds it readable; and whenever
    the wheel holds no slice, the counter of the [writable] descriptor is one
    short of its ceiling, so a poll finds it writable. *)
Theorem no_wakeup_is_lost a0 buf_size a fuel ops evs e :
  whl_atomic_init a0 buf_size = (0, a) ->
  in_protocol fuel ops (whl_efd_init a) ->
  efd_run fuel ops (whl_efd_init a) = Some (evs, e) ->
  let m := spin (atomic e) in
  (fst (fst (whl_next_shared_slice m)) <> WHL_INVALID_OFFSET -> readable e = 1)
  /\ (head_last (wheel m) = whl_invalid_offset_pair ->
      writable e = UINT64_MAX - 1 - 1).
Proof.
  intros Hi Hproto Hrun. cbv zeta.
  destruct (whl_atomic_init_flags _ _ _ _ Hi) as [Fr Fw].
  assert (Hok0 : wheel_ok (spin (atomic (whl_efd_init a)))).
  { unfold whl_efd_init. rewrite atomic_write_writable. cbn [atomic].
    revert Hi. unfold whl_atomic_init. cbv zeta.
    destruct (whl_init _ buf_size) as [r m0] eqn:E. intros [= -> <-]. cbn [spin].
    eapply wheel_ok_init. exact E. }
  assert (Haw0 : efd_awake (whl_efd_init a)).
  { unfold efd_awake, whl_efd_init. cbv zeta. rewrite atomic_write_writable.
    cbn [atomic]. rewrite Fw. split; [|discriminate].
    revert Hi. unfold whl_atomic_init. cbv zeta.
    destruct (whl_init_cases
                (perform (St_wheel {| aligned_size := 0;
                                      head_last := {| head := 0; last := 0 |} |})
                   (spin a0)) buf_size) as [[_ E]|[_ E]]; rewrite E;
      intros [= <-]. cbn [spin]. unfold whl_next_shared_slice. cbv zeta.
    cbn. intros H. exfalso. apply H. reflexivity. }
  destruct (efd_awake_run _ _ _ _ _ Hok0 Haw0 Hproto Hrun) as [_ [Hrd Hwr]].
  destruct (efd_ok_init a) as [Hk0 He0]; [left; assumption|right; assumption|].
  destruct (efd_ok_run _ _ _ _ _ Hk0 He0 Hrun) as [(Hr & Hw & Er & Ew) _].
  rewrite Er, Ew. split.
  - exact Hrd.
  - intros Hp. destruct Hw as [Hw|Hw]; [|rewrite Hw; reflexivity].
    exfalso. apply (Hwr Hw). exact Hp.
Qed.

(** ** The properties above on sample wheels *)

Lemma two_slices_live : live_chain (sample_wheel 256 two_slices_run) [0; 1].
Proof.
  right. split; [vm_compute; discriminate|]. split; [vm_compute; discriminate|].
  replace (last (head_last (wheel (sample_wheel 256 two_slices_run)))) with 1
    by (vm_compute; reflexivity).
  replace (head (head_last (wheel (sample_wheel 256 two_slices_run)))) with 0
    by (vm_compute; reflexivity).
  apply chain_next; [discriminate|].
  replace (next_head (sample_wheel 256 two_slices_run) 0) with 1
    by (vm_compute; reflexivity).
  apply chain_last.
Qed.

Lemma two_slices_ok : wheel_ok (sample_wheel 256 two_slices_run).
Proof. apply reachable_fit_wheel_ok, two_slices_wheel_fit. Qed.

Lemma make_slice_in_bounds_and_free_witness :
  let m := sample_wheel 256 two_slices_run in
  match whl_make_slice 1 m 16 with
  | Some (offset, bufp, m') =>
      0 <= offset /\ 1 <= spec_need 16
      /\ offset + spec_need 16 <= aligned_size (wheel m)
      /\ bufp = Some (WHL_ALIGN + WHL_ALIGN * offset + sizeof_whl_slice_t)
      /\ sizeof_whl_slice_t + 16 <= WHL_ALIGN * spec_need 16
      /\ Forall (fun c => c + units m c <= offset \/ offset + spec_need 16 <= c) [0; 1]
  | None => False
  end.
Proof.
  cbv zeta.
  destruct (whl_make_slice 1 (sample_wheel 256 two_slices_run) 16)
    as [[[offset bufp] m']|] eqn:E; [|vm_compute in E; discriminate E].
  assert (Ho : offset = 2) by (vm_compute in E; congruence).
  assert (Hv : offset <> WHL_INVALID_OFFSET) by (rewrite Ho; vm_compute; discriminate).
  apply (make_slice_in_bounds_and_free 1 (sample_wheel 256 two_slices_run) 16
           offset bufp m' [0; 1] two_slices_ok two_slices_live);
    [vm_compute; intuition discriminate|vm_compute; discriminate|exact E|exact Hv].
Defined.

Lemma make_slice_appends_witness :
  let m := sample_wheel 256 two_slices_run in
  match whl_make_slice 1 m 16 with
  | Some (offset, bufp, m') =>
      live_chain m' ([0; 1] ++ [offset])
      /\ slice_at m' (__whl_at_unchecked offset)
         = {| trailing_user_size := 16;
              aligned_size_in_wheel := spec_need 16;
              state := WHL_SLICE_UNINIT |}
      /\ Forall (fun c =>
                   state (slice_at m' (__whl_at_unchecked c))
                   = state (slice_at m (__whl_at_unchecked c))
                   /\ trailing_user_size (slice_at m' (__whl_at_unchecked c))
                      = trailing_user_size (slice_at m (__whl_at_unchecked c))) [0; 1]
  | None => False
  end.
Proof.
  cbv zeta.
  destruct (whl_make_slice 1 (sample_wheel 256 two_slices_run) 16)
    as [[[offset bufp] m']|] eqn:E; [|vm_compute in E; discriminate E].
  assert (Ho : offset = 2) by (vm_compute in E; congruence).
  assert (Hv : offset <> WHL_INVALID_OFFSET) by (rewrite Ho; vm_compute; discriminate).
  apply (make_slice_appends 1 (sample_wheel 256 two_slices_run) 16
           offset bufp m' [0; 1] two_slices_ok two_slices_live);
    [vm_compute; intuition discriminate|vm_compute; discriminate|exact E|exact Hv].
Defined.

Lemma return_slice_pops_witness :
  let m := sample_wheel 256 two_slices_run in
  let m1 := perform (St_state (__whl_at_unchecked 0) WHL_SLICE_RETURNED) m in
  exists m',
    whl_return_slice 3 m 0
    = Some (Z.of_nat (length (returned_prefix m1 [0; 1])), m')
    /\ live_chain m' (after_returned m1 [0; 1])
    /\ wheel_ok m'
    /\ slices m' = slices m1
    /\ aligned_size (wheel m') = aligned_size (wheel m).
Proof.
  apply (return_slice_pops 3 (sample_wheel 256 two_slices_run) 0 [0; 1]
           two_slices_ok two_slices_live); [cbn; lia|vm_compute; discriminate].
Defined.


Lemma peek_stable_under_producer_witness :
  let m := sample_wheel 256 two_slices_run in
  (forall size offset bufp m',
      is_size_t size -> spec_need size <= UINT32_MAX ->
      whl_make_slice 1 m size = Some (offset, bufp, m') ->
      fst (whl_next_shared_slice m') = fst (whl_next_shared_slice m))
  /\ (forall x,
         fst (whl_next_shared_slice (whl_share_slice m x))
         = fst (whl_next_shared_slice m)).
Proof.
  apply (peek_stable_under_producer 1 (sample_wheel 256 two_slices_run) two_slices_ok).
  vm_compute. discriminate.
Defined.

Lemma empty_wheel_round_trip_witness :
  let m := snd (whl_init zero_shm 256) in
  exists buf m1 m3,
    whl_make_slice 1 m 16 = Some (0, Some buf, m1)
    /\ whl_next_shared_slice (whl_share_slice m1 0)
       = (0, Some (buf, 16), whl_share_slice m1 0)
    /\ whl_return_slice 2 (whl_share_slice m1 0) 0 = Some (1, m3)
    /\ head_last (wheel m3) = whl_invalid_offset_pair
    /\ aligned_size (wheel m3) = aligned_size (wheel m)
    /\ wheel_ok m3.
Proof.
  apply (empty_wheel_round_trip 0 (snd (whl_init zero_shm 256)) 16).
  - apply (wheel_ok_init zero_shm 256). reflexivity.
  - reflexivity.
  - vm_compute. intuition discriminate.
  - vm_compute. discriminate.
Defined.

Lemma no_wakeup_is_lost_witness :
  match efd_run 4 one_message_run (sample_efd 256) with
  | Some (evs, e) =>
      (fst (fst (whl_next_shared_slice (spin (atomic e)))) <> WHL_INVALID_OFFSET ->
       readable e = 1)
      /\ (head_last (wheel (spin (atomic e))) = whl_invalid_offset_pair ->
          writable e = UINT64_MAX - 1 - 1)
  | None => False
  end.
Proof.
  destruct (efd_run 4 one_message_run (sample_efd 256)) as [[evs e]|] eqn:E;
    [|vm_compute in E; discriminate E].
  apply (no_wakeup_is_lost zero_atomic 256 (snd (whl_atomic_init zero_atomic 256))
           4 one_message_run evs e); [reflexivity| |exact E].
  vm_compute. intuition discriminate.
Defined.
